(** * css-anchor-positioning: the rewrite pass and the runtime resolver

    A shallow embedding of [src/polyfill.ts] (pixel resolver, fallback
    selector) and [src/parse.ts] (CSS rewrite pass, anchor registry, binder),
    with the properties the specification states about them. *)

From Stdlib Require Import ZArith List String Ascii Bool Lia Floats.
From stdpp Require Import base option list gmap strings.

Set Default Proof Using "Type".
Local Open Scope string_scope.

Scheme All for list.
Scheme All for option.

(** ** JavaScript values *)

(** A JavaScript [number] is an IEEE 754 binary64 value. *)
Abbreviation number := float.

(** DOM elements are opaque handles. *)
Definition Element := nat.

(** [x || 0] on a number: [NaN], [0] and [-0] are falsy. *)
Definition orZero (v : number) : number :=
  if (PrimFloat.is_nan v || PrimFloat.eqb v 0)%bool then 0%float else v.

(** [Math.max(a, b)]: [NaN] when either argument is [NaN]; [+0] is larger
    than [-0]. *)
Definition Math_max (a b : number) : number :=
  if (PrimFloat.is_nan a || PrimFloat.is_nan b)%bool then PrimFloat.nan
  else if PrimFloat.ltb a b then b
  else if PrimFloat.ltb b a then a
  else if PrimFloat.eqb a 0 then
         (if PrimFloat.get_sign a then b else a)
  else a.

(** Truthiness of an optional string: [undefined] and [''] are falsy. *)
Definition truthy (s : option string) : bool :=
  match s with
  | Some s => negb (String.eqb s "")
  | None => false
  end.

(** *** Strings

    A JavaScript string is held as the bytes of its UTF-8 encoding (the text
    of a style sheet and of a computed style is well formed). *)

(** [String.prototype.trim] strips the code points of ECMAScript's
    [WhiteSpace] and [LineTerminator]: U+0009 to U+000D, U+0020, U+00A0,
    U+1680, U+2000 to U+200A, U+2028, U+2029, U+202F, U+205F, U+3000 and
    U+FEFF. [whiteSpace1], [whiteSpace2] and [whiteSpace3] are their
    encodings in one, two and three bytes. *)
Definition whiteSpace1 (a : nat) : bool :=
  ((9 <=? a) && (a <=? 13) || (a =? 32))%nat%bool.

Definition whiteSpace2 (a b : nat) : bool :=
  ((a =? 194) && (b =? 160))%nat%bool.

Definition whiteSpace3 (a b c : nat) : bool :=
  ((a =? 225) && (b =? 154) && (c =? 128)
   || (a =? 226) && (b =? 128)
      && ((128 <=? c) && (c <=? 138) || (c =? 168) || (c =? 169) || (c =? 175))
   || (a =? 226) && (b =? 129) && (c =? 159)
   || (a =? 227) && (b =? 128) && (c =? 128)
   || (a =? 239) && (b =? 187) && (c =? 191))%nat%bool.

(** The bytes of [s] after the white space it starts with. *)
Fixpoint trimStart (s : string) : string :=
  match s with
  | String a s1 =>
      if whiteSpace1 (nat_of_ascii a) then trimStart s1
      else
        match s1 with
        | String b s2 =>
            if whiteSpace2 (nat_of_ascii a) (nat_of_ascii b) then trimStart s2
            else
              match s2 with
              | String c s3 =>
                  if whiteSpace3 (nat_of_ascii a) (nat_of_ascii b) (nat_of_ascii c)
                  then trimStart s3
                  else s
              | EmptyString => s
              end
        | EmptyString => s
        end
  | EmptyString => EmptyString
  end.

(** The same on the reversed bytes: the encodings are read last byte
    first. *)
Fixpoint trimStartReversed (s : string) : string :=
  match s with
  | String a s1 =>
      if whiteSpace1 (nat_of_ascii a) then trimStartReversed s1
      else
        match s1 with
        | String b s2 =>
            if whiteSpace2 (nat_of_ascii b) (nat_of_ascii a) then trimStartReversed s2
            else
              match s2 with
              | String c s3 =>
                  if whiteSpace3 (nat_of_ascii c) (nat_of_ascii b) (nat_of_ascii a)
                  then trimStartReversed s3
                  else s
              | EmptyString => s
              end
        | EmptyString => s
        end
  | EmptyString => EmptyString
  end.

Definition reverse (s : string) : string :=
  string_of_list_ascii (rev (list_ascii_of_string s)).

Definition trimEnd (s : string) : string := reverse (trimStartReversed (reverse s)).

Definition trim (s : string) : string := trimEnd (trimStart s).

(** [s.startsWith(p)] *)
Definition startsWith (s p : string) : bool := String.prefix p s.

(** *** Plain objects

    [parse.ts] keeps its registries and its maps in plain objects ([{}]),
    read and written by key ([obj[key]]). A [gmap] holds the object's own
    properties. A read by key also finds what the object inherits from
    [Object.prototype]; a write creates or replaces an own property, except
    under the key [__proto__], which is an accessor of [Object.prototype]:
    its setter replaces the object's prototype when the value is an object,
    does nothing otherwise, and creates no own property either way. *)

(** The properties of [Object.prototype] (ECMAScript, with Annex B): their
    values are functions, and the value of [__proto__] is [Object.prototype]
    itself; every one is truthy, none is an array, and none has an
    enumerable own property. *)
Definition objectPrototypeMembers : list string :=
  ["constructor"; "__defineGetter__"; "__defineSetter__"; "hasOwnProperty";
   "__lookupGetter__"; "__lookupSetter__"; "isPrototypeOf"; "propertyIsEnumerable";
   "toString"; "valueOf"; "__proto__"; "toLocaleString"].

Definition isPrototypeMember (key : string) : bool :=
  existsb (String.eqb key) objectPrototypeMembers.

(** [obj[key]] *)
Inductive Property (V : Type) :=
| Own (value : V)   (** an own property *)
| Inherited         (** a member of [Object.prototype] *)
| Missing.          (** [undefined] *)
Arguments Own {V} value.
Arguments Inherited {V}.
Arguments Missing {V}.

Definition getProperty {V : Type} (obj : gmap string V) (key : string) : Property V :=
  match obj !! key with
  | Some value => Own value
  | None => if isPrototypeMember key then Inherited else Missing
  end.

(** ** The host: layout oracle and JavaScript built-ins

    Everything [polyfill.ts] reads from the browser, from [@floating-ui/dom]
    ([platform]) and from the JavaScript runtime. *)
Record Host := {
  (** [getComputedStyle(el).getPropertyValue(prop)] *)
  getPropertyValue : Element -> string -> string;
  (** [platform.getOffsetParent?.(el)] *)
  platform_getOffsetParent : Element -> option Element;
  (** [platform.isElement?.(value)] *)
  platform_isElement : option Element -> bool;
  (** [platform.getDocumentElement?.(el)] *)
  platform_getDocumentElement : Element -> option Element;
  (** [window.document.documentElement] *)
  documentElement : option Element;
  (** [platform.isRTL?.(el)] *)
  platform_isRTL : Element -> option bool;
  clientHeight : Element -> number;
  clientWidth : Element -> number;
  offsetHeight : Element -> number;
  offsetWidth : Element -> number;
  (** [parseInt(text, 10)] *)
  parseInt : string -> number;
  (** [`${value}`] for a number *)
  numberToString : number -> string;
  (** [Number(text)] *)
  toNumber : string -> number;
  (** [document.querySelector(selector)] *)
  querySelector : string -> option Element;
}.

(** [parse.ts], [getCSSPropertyValue] *)
Definition getCSSPropertyValue (h : Host) (el : Element) (prop : string) : string :=
  trim (getPropertyValue h el prop).

(** [parse.ts], [AnchorSide = AnchorSideKeyword | number]; the keyword is
    whatever identifier the style sheet had, so it is kept as a string. *)
Inductive AnchorSide :=
| SideKeyword (keyword : string)
| SideNumber (percentage : number).

(** [parse.ts], [isInset] *)
Definition isInset (property : string) : bool :=
  existsb (String.eqb property) ["left"; "right"; "top"; "bottom"].


(** ** [parse.ts] *)

Module Parse.

(** *** The syntax tree of [css-tree]

    The nodes the pass looks at. A rule's prelude and an at-rule's prelude
    are raw text ([parseRulePrelude: false], [parseAtrulePrelude: false]);
    a declaration's value is a [Value] node with children (the
    [DeclarationWithValue] of [parse.ts]). Value nodes without children that
    the pass never inspects are [Leaf]. *)
Inductive ValueNode :=
| Identifier (name : string)
| Percentage (value : string)
| Operator (value : string)
| Raw (value : string)
| Function (name : string) (children : list ValueNode)
| Leaf (text : string).

Inductive Node :=
| Rule (prelude : string) (block : list Node)
| Atrule (name : string) (prelude : option string) (block : option (list Node))
| Declaration (property : string) (value : list ValueNode).

(** [node.name], where the node has one. *)
Definition nodeName (node : ValueNode) : option string :=
  match node with
  | Identifier name | Function name _ => Some name
  | _ => None
  end.

(** [node.name = name] *)
Definition setName (name : string) (node : ValueNode) : ValueNode :=
  match node with
  | Identifier _ => Identifier name
  | Function _ children => Function name children
  | _ => node
  end.

Definition isDeclaration (node : Node) : bool :=
  match node with Declaration _ _ => true | _ => false end.

Definition isAnchorNameDeclaration (node : Node) : bool :=
  match node with
  | Declaration property _ => String.eqb property "anchor-name"
  | _ => false
  end.

Definition isAnchorFunction (node : ValueNode) : bool :=
  match node with
  | Function name _ => String.eqb name "anchor"
  | _ => false
  end.

Definition isVarFunction (node : ValueNode) : bool :=
  match node with
  | Function name _ => String.eqb name "var"
  | _ => false
  end.

Definition isFallbackDeclaration (node : Node) : bool :=
  match node with
  | Declaration property _ => String.eqb property "position-fallback"
  | _ => false
  end.

Definition isFallbackAtRule (node : Node) : bool :=
  match node with
  | Atrule name _ _ => String.eqb name "position-fallback"
  | _ => false
  end.

Definition isTryAtRule (node : Node) : bool :=
  match node with
  | Atrule name _ _ => String.eqb name "try"
  | _ => false
  end.

Definition isIdentifier (node : ValueNode) : bool :=
  match node with
  | Identifier name => negb (String.eqb name "")
  | _ => false
  end.

Definition isPercentage (node : ValueNode) : bool :=
  match node with
  | Percentage value => negb (String.eqb value "")
  | _ => false
  end.

(** [node.children.first] of a function node. *)
Definition firstChild (node : ValueNode) : option ValueNode :=
  match node with
  | Function _ children => head children
  | _ => None
  end.

(** *** The rule model *)

(** [AnchorFunction]. [parseAnchorFn] always gives [fallbackValue] and
    [key]; an object made by the second walk from something that is not an
    [AnchorFunction] has a [key] only, and its [fallbackValue] is
    [undefined]. *)
Record AnchorFunction := {
  anchorEl : option Element;
  anchorName : option string;
  anchorEdge : option AnchorSide;
  fallbackValue : option string;
  customPropName : option string;
  key : string;
}.

(** A value of a try block: [string | AnchorFunction]. *)
Inductive TryValue :=
| TryRaw (text : string)
| TryAnchor (data : AnchorFunction).

(** [TryBlock]: property to value. *)
Abbreviation TryBlock := (gmap string TryValue).

Record AnchorPosition := {
  declarations : option (gmap string AnchorFunction);
  fallbacks : option (list TryBlock);
}.

(** [StyleData] of [fetch.ts]. The text [css] is held as the tree [getAST]
    reads from it. *)
Record StyleData := {
  css : list Node;
  changed : bool;
}.

(** What [getAnchorEl] hands to [validatedForPositioning] as
    [anchorSelectors]: the registry's list for the name, the empty list for
    a name the registry does not have, or, for a name that is a member of
    [Object.prototype], that member, which is not a list. *)
Inductive Candidates :=
| Selectors (selectors : list string)
| NotSelectors (member : string).

(** How a run of [parseCSS] stands: nothing has happened to it; or a write
    under [__proto__] has replaced the prototype of [anchorFunctions] or of
    [fallbacks]; or a callback has thrown a [TypeError], which ends the run
    without a result. After a prototype was replaced the run goes on, and
    the registries and the style sheets are written as before; but reads of
    these two maps by key find what the new prototype has, so their
    contents, and with them the rule model, are described no further. *)
Inductive Status :=
| Running
| Threw
| PrototypeReplaced.

(** What [parseCSS] gives its caller. *)
Inductive Outcome :=
| Returned (validPositions : gmap string AnchorPosition)
| Throws
| Undescribed.

(** The module-level state of [parse.ts]: the two registries, and how many
    times [uuid()] has been called. *)
Record Store := {
  anchorNames : gmap string (list string);
  customPropAssignments : gmap string AnchorFunction;
  uuidCalls : nat;
}.

Definition emptyStore : Store :=
  {| anchorNames := ∅; customPropAssignments := ∅; uuidCalls := 0 |}.

(** An object with string keys whose entries are read in insertion order
    ([Object.entries]). *)
Fixpoint assign {V : Type} (k : string) (v : V) (o : list (string * V)) : list (string * V) :=
  match o with
  | [] => [(k, v)]
  | (k', v') :: o' => if String.eqb k k' then (k, v) :: o' else (k', v') :: assign k v o'
  end.

(** *** The walker

    [csstree.walk(ast, enter)]: [enter] is called on every node, parents
    first, with the enclosing rule and declaration as context. What [enter]
    does to a value node is one of two things: it leaves the node in place
    (possibly renaming its first child), and the walker goes on into the
    children; or it rewrites the node into one without children. *)
Inductive Visit :=
| Descend (renameFirst : option string)
| Replace (node : ValueNode).

Section Walk.
Context {S : Type}.

(** [enter] on a value node, given [this.rule?.prelude.value] and
    [this.declaration.property]. *)
Variable enterValue : option string -> string -> ValueNode -> S -> Visit * S.
(** [enter] on a rule, an at-rule or a declaration. *)
Variable enterNode : option string -> Node -> S -> S.

(** [rename] is the name [enter] on the parent gave this node, if any. *)
Fixpoint walkValue (rule : option string) (declaration : string)
    (rename : option string) (node : ValueNode) (s : S) {struct node}
    : ValueNode * S :=
  let found := from_option (fun name => setName name node) node rename in
  let '(visit, s) := enterValue rule declaration found s in
  match visit with
  | Replace node' => (node', s)
  | Descend renameFirst =>
      match node with
      | Function _ children =>
          let '(children', s) :=
            (fix walkChildren (rename : option string) (l : list ValueNode) (s : S)
               : list ValueNode * S :=
               match l with
               | [] => ([], s)
               | child :: l' =>
                   let '(child', s) := walkValue rule declaration rename child s in
                   let '(l'', s) := walkChildren None l' s in
                   (child' :: l'', s)
               end) renameFirst children s in
          (Function (default "" (nodeName found)) children', s)
      | _ => (found, s)
      end
  end.

Fixpoint walkValues (rule : option string) (declaration : string)
    (l : list ValueNode) (s : S) : list ValueNode * S :=
  match l with
  | [] => ([], s)
  | child :: l' =>
      let '(child', s) := walkValue rule declaration None child s in
      let '(l'', s) := walkValues rule declaration l' s in
      (child' :: l'', s)
  end.

Fixpoint walkNode (rule : option string) (node : Node) (s : S) {struct node}
    : Node * S :=
  let s := enterNode rule node s in
  let walkNodes :=
    fix walkNodes (rule : option string) (l : list Node) (s : S) : list Node * S :=
      match l with
      | [] => ([], s)
      | child :: l' =>
          let '(child', s) := walkNode rule child s in
          let '(l'', s) := walkNodes rule l' s in
          (child' :: l'', s)
      end in
  match node with
  | Rule prelude block =>
      let '(block', s) := walkNodes (Some prelude) block s in
      (Rule prelude block', s)
  | Atrule name prelude (Some block) =>
      let '(block', s) := walkNodes rule block s in
      (Atrule name prelude (Some block'), s)
  | Atrule name prelude None => (node, s)
  | Declaration property value =>
      let '(value', s) := walkValues rule property value s in
      (Declaration property value', s)
  end.

(** The walk of a style sheet: no rule encloses its top-level nodes. *)
Fixpoint walk (ast : list Node) (s : S) : list Node * S :=
  match ast with
  | [] => ([], s)
  | node :: ast' =>
      let '(node', s) := walkNode None node s in
      let '(ast'', s) := walk ast' s in
      (node' :: ast'', s)
  end.

End Walk.

(** *** The rewrite pass *)

Section Rewrite.

(** The host, for [Number], [document.querySelector] and computed styles. *)
Variable h : Host.
(** The values [uuid()] returns, in the order of the calls. *)
Variable uuid : nat -> string.
(** [csstree.generate] on a value node, and on a [Value] with its children. *)
Variable generate : ValueNode -> string.
Variable generateValue : list ValueNode -> string.
(** [validatedForPositioning] of [validate.js]; its source is not at hand. *)
Variable validatedForPositioning : option Element -> Candidates -> option Element.

(** The locals of the [forEach] in [parseAnchorFn]. *)
Record AnchorFnArgs := {
  argName : option string;
  argEdge : option AnchorSide;
  argFallback : string;
  foundComma : bool;
  argCustomProp : option string;
}.

Definition parseAnchorFnChild (acc : AnchorFnArgs) (idx : nat) (child : ValueNode)
    : AnchorFnArgs :=
  if foundComma acc then
    {| argName := argName acc; argEdge := argEdge acc;
       argFallback := argFallback acc ++ generate child;
       foundComma := true; argCustomProp := argCustomProp acc |}
  else
    match child with
    | Operator "," =>
        {| argName := argName acc; argEdge := argEdge acc;
           argFallback := argFallback acc;
           foundComma := true; argCustomProp := argCustomProp acc |}
    | _ =>
        match idx with
        | 0 =>
            if isIdentifier child then
              {| argName := nodeName child; argEdge := argEdge acc;
                 argFallback := argFallback acc;
                 foundComma := false; argCustomProp := argCustomProp acc |}
            else if (isVarFunction child && bool_decide (is_Some (firstChild child)))%bool then
              {| argName := argName acc; argEdge := argEdge acc;
                 argFallback := argFallback acc;
                 foundComma := false;
                 argCustomProp := firstChild child ≫= nodeName |}
            else acc
        | 1 =>
            match child with
            | Identifier name =>
                if isIdentifier child then
                  {| argName := argName acc; argEdge := Some (SideKeyword name);
                     argFallback := argFallback acc;
                     foundComma := false; argCustomProp := argCustomProp acc |}
                else acc
            | Percentage value =>
                if isPercentage child then
                  let number := toNumber h value in
                  {| argName := argName acc;
                     argEdge := if PrimFloat.is_nan number then None
                                else Some (SideNumber number);
                     argFallback := argFallback acc;
                     foundComma := false; argCustomProp := argCustomProp acc |}
                else acc
            | _ => acc
            end
        | _ => acc
        end
    end.

Fixpoint parseAnchorFnChildren (acc : AnchorFnArgs) (idx : nat) (children : list ValueNode)
    : AnchorFnArgs :=
  match children with
  | [] => acc
  | child :: children' =>
      parseAnchorFnChildren (parseAnchorFnChild acc idx child) (S idx) children'
  end.

(** The key [parseAnchorFn] makes from the [n]-th call of [uuid()]. *)
Definition freshKey (n : nat) : string := "--anchor-" ++ uuid n.

(** [parseAnchorFn(node, replaceCss)] on the children of the function node:
    the parsed data, the node it leaves in the tree when [replaceCss] is set,
    and the store after the call of [uuid()]. *)
Definition parseAnchorFn (children : list ValueNode) (st : Store)
    : AnchorFunction * ValueNode * Store :=
  let acc :=
    parseAnchorFnChildren
      {| argName := None; argEdge := None; argFallback := "";
         foundComma := false; argCustomProp := None |} 0 children in
  let key := freshKey (uuidCalls st) in
  ({| anchorEl := None;
      anchorName := argName acc;
      anchorEdge := argEdge acc;
      fallbackValue :=
        Some (if String.eqb (argFallback acc) "" then "0px" else argFallback acc);
      customPropName := argCustomProp acc;
      key := key |},
   Raw ("var(" ++ key ++ ")"),
   {| anchorNames := anchorNames st;
      customPropAssignments := customPropAssignments st;
      uuidCalls := S (uuidCalls st) |}).

(** [getAnchorNameData]: the name and the selector, when both are there. *)
Definition getAnchorNameData (node : Node) (rule : option string)
    : option (option string * string) :=
  match node with
  | Declaration _ value =>
      if (isAnchorNameDeclaration node && bool_decide (is_Some (head value))
          && truthy rule)%bool
      then Some (head value ≫= nodeName, default "" rule)
      else None
  | _ => None
  end.

(** [getPositionFallbackDeclaration] *)
Definition getPositionFallbackDeclaration (node : Node) (rule : option string)
    : option (option string * string) :=
  match node with
  | Declaration _ value =>
      if (isFallbackDeclaration node && bool_decide (is_Some (head value))
          && truthy rule)%bool
      then Some (head value ≫= nodeName, default "" rule)
      else None
  | _ => None
  end.

(** [tryBlock[property] = value]: the try block is a plain object, so
    under [__proto__] no own property is made (an [AnchorFunction] becomes
    the prototype of the try block, a string is dropped). *)
Definition setTryValue (property : string) (value : TryValue) (tryBlock : TryBlock)
    : TryBlock :=
  if String.eqb property "__proto__" then tryBlock else <[property := value]> tryBlock.

(** The declarations of one [@try] block, in order. *)
Fixpoint tryDeclarations (declarations : list Node) (tryBlock : TryBlock) (st : Store)
    : TryBlock * Store :=
  match declarations with
  | Declaration property value :: rest =>
      match head value with
      | Some (Function name children as first) =>
          if isAnchorFunction first then
            let '(data, _, st) := parseAnchorFn children st in
            tryDeclarations rest (setTryValue property (TryAnchor data) tryBlock) st
          else
            tryDeclarations rest
              (setTryValue property (TryRaw (generateValue value)) tryBlock) st
      | _ =>
          tryDeclarations rest
            (setTryValue property (TryRaw (generateValue value)) tryBlock) st
      end
  | _ :: rest => tryDeclarations rest tryBlock st
  | [] => (tryBlock, st)
  end.

(** The [@try] at-rules of one [@position-fallback] block, in order. *)
Fixpoint tryAtRules (children : list Node) (st : Store) : list TryBlock * Store :=
  match children with
  | Atrule name _ block as atRule :: rest =>
      if isTryAtRule atRule then
        match block with
        | Some declarations =>
            let '(tryBlock, st) := tryDeclarations declarations ∅ st in
            let '(tryBlocks, st) := tryAtRules rest st in
            (tryBlock :: tryBlocks, st)
        | None => tryAtRules rest st
        end
      else tryAtRules rest st
  | _ :: rest => tryAtRules rest st
  | [] => ([], st)
  end.

(** [getPositionFallbackRules] *)
Definition getPositionFallbackRules (node : Node) (st : Store)
    : option (string * list TryBlock) * Store :=
  match node with
  | Atrule _ prelude (Some children) =>
      if (isFallbackAtRule node && truthy prelude)%bool then
        let '(tryBlocks, st) := tryAtRules children st in
        (Some (default "" prelude, tryBlocks), st)
      else (None, st)
  | _ => (None, st)
  end.

(** The locals of [parseCSS] that the walks update, with the store, and how
    the run stands. *)
Record Pass := {
  store : Store;
  anchorFunctions : gmap string (gmap string AnchorFunction);
  fallbackNames : list (string * string);
  fallbackRules : gmap string (list TryBlock);
  astChanged : bool;
  status : Status;
}.

(** The run has not thrown. *)
Definition isRunning (p : Pass) : bool :=
  match status p with
  | Threw => false
  | _ => true
  end.

Definition withStore (st : Store) (p : Pass) : Pass :=
  {| store := st; anchorFunctions := anchorFunctions p;
     fallbackNames := fallbackNames p; fallbackRules := fallbackRules p;
     astChanged := astChanged p; status := status p |}.

Definition withStatus (s : Status) (p : Pass) : Pass :=
  {| store := store p; anchorFunctions := anchorFunctions p;
     fallbackNames := fallbackNames p; fallbackRules := fallbackRules p;
     astChanged := astChanged p; status := s |}.

(** [anchorFunctions[selector] = { ...anchorFunctions[selector], [property]: data }]
    and [changed = true]. What is spread is the own entry of [selector], or
    nothing: a member of [Object.prototype] has no enumerable own property.
    Under the selector [__proto__] the write replaces the prototype of
    [anchorFunctions]. *)
Definition setAnchorFunction (selector property : string) (data : AnchorFunction)
    (p : Pass) : Pass :=
  if String.eqb selector "__proto__" then
    withStatus PrototypeReplaced
      {| store := store p; anchorFunctions := anchorFunctions p;
         fallbackNames := fallbackNames p; fallbackRules := fallbackRules p;
         astChanged := true; status := status p |}
  else
    {| store := store p;
       anchorFunctions :=
         <[selector := <[property := data]> (default ∅ (anchorFunctions p !! selector))]>
           (anchorFunctions p);
       fallbackNames := fallbackNames p; fallbackRules := fallbackRules p;
       astChanged := true; status := status p |}.

(** The first thing the callback of the first walk does with a node:
    [anchorNames[anchorName].push(anchorSelector)] when [anchorNames[anchorName]]
    is truthy, and [anchorNames[anchorName] = [anchorSelector]] otherwise. A
    member of [Object.prototype] is truthy and has no [push]: the call
    throws. *)
Definition registerAnchorName (rule : option string) (node : Node) (p : Pass) : Pass :=
  match getAnchorNameData node rule with
  | Some (Some anchorName, anchorSelector) =>
      if negb (String.eqb anchorName "") then
        let st := store p in
        match getProperty (anchorNames st) anchorName with
        | Own selectors =>
            withStore
              {| anchorNames :=
                   <[anchorName := (selectors ++ [anchorSelector])%list]> (anchorNames st);
                 customPropAssignments := customPropAssignments st;
                 uuidCalls := uuidCalls st |} p
        | Inherited => withStatus Threw p
        | Missing =>
            withStore
              {| anchorNames := <[anchorName := [anchorSelector]]> (anchorNames st);
                 customPropAssignments := customPropAssignments st;
                 uuidCalls := uuidCalls st |} p
        end
      else p
  | _ => p
  end.

(** [fallbackNames[fbSelector] = fbName]: a string written under
    [__proto__] is dropped. *)
Definition registerFallbackName (rule : option string) (node : Node) (p : Pass) : Pass :=
  match getPositionFallbackDeclaration node rule with
  | Some (Some fbName, fbSelector) =>
      if (negb (String.eqb fbName "") && negb (String.eqb fbSelector "__proto__"))%bool
      then
        {| store := store p; anchorFunctions := anchorFunctions p;
           fallbackNames := assign fbSelector fbName (fallbackNames p);
           fallbackRules := fallbackRules p; astChanged := astChanged p;
           status := status p |}
      else p
  | _ => p
  end.

(** [fallbacks[fbRuleName] = fbTryBlocks]: under [__proto__] the list
    becomes the prototype of [fallbacks]. *)
Definition registerFallbackRules (node : Node) (p : Pass) : Pass :=
  match getPositionFallbackRules node (store p) with
  | (Some (fbRuleName, fbTryBlocks), st) =>
      if negb (Nat.eqb (length fbTryBlocks) 0) then
        if String.eqb fbRuleName "__proto__" then
          withStatus PrototypeReplaced (withStore st p)
        else
          {| store := st; anchorFunctions := anchorFunctions p;
             fallbackNames := fallbackNames p;
             fallbackRules := <[fbRuleName := fbTryBlocks]> (fallbackRules p);
             astChanged := astChanged p; status := status p |}
      else withStore st p
  | (None, st) => withStore st p
  end.

(** The callback of the first walk, on rules, at-rules and declarations.
    After a throw there is no further call. *)
Definition enterNode1 (rule : option string) (node : Node) (p : Pass) : Pass :=
  if negb (isRunning p) then p
  else
    (* Parse `anchor-name` declaration *)
    let p := registerAnchorName rule node p in
    if negb (isRunning p) then p
    else
      (* Parse `position-fallback` declaration *)
      let p := registerFallbackName rule node p in
      (* Parse `@position-fallback` rule *)
      registerFallbackRules node p.

(** The callback of the first walk on a value node: [getAnchorFunctionData]
    and what [parseCSS] does with its result. *)
Definition enterValue1 (rule : option string) (property : string) (node : ValueNode)
    (p : Pass) : Visit * Pass :=
  if negb (isRunning p) then (Descend None, p)
  else
    match node with
    | Function _ children =>
        if (isAnchorFunction node && truthy rule)%bool then
          if startsWith property "--" then
            let '(data, _, st) := parseAnchorFn children (store p) in
            (Descend None,
             withStore
               {| anchorNames := anchorNames st;
                  customPropAssignments := <[property := data]> (customPropAssignments st);
                  uuidCalls := uuidCalls st |} p)
          else if isInset property then
            let '(data, raw, st) := parseAnchorFn children (store p) in
            (Replace raw, setAnchorFunction (default "" rule) property data (withStore st p))
          else (Descend None, p)
        else (Descend None, p)
    | _ => (Descend None, p)
    end.

(** [{ ...anchorFnData }] with [key] set to [`${data.key}-${prop}`], for
    what [customPropAssignments[child.name]] gave: an [AnchorFunction], or a
    member of [Object.prototype], whose spread is empty and whose [key] is
    [undefined]. *)
Definition cloneFor (property : string) (found : Property AnchorFunction)
    : option AnchorFunction :=
  match found with
  | Own anchorFnData =>
      Some {| anchorEl := anchorEl anchorFnData;
              anchorName := anchorName anchorFnData;
              anchorEdge := anchorEdge anchorFnData;
              fallbackValue := fallbackValue anchorFnData;
              customPropName := customPropName anchorFnData;
              key := key anchorFnData ++ "-" ++ property |}
  | Inherited =>
      Some {| anchorEl := None; anchorName := None; anchorEdge := None;
              fallbackValue := None; customPropName := None;
              key := "undefined" ++ "-" ++ property |}
  | Missing => None
  end.

(** The callback of the second walk on a value node. [child.name] is
    [undefined] for a first child without a name, and the key read is then
    ['undefined']. *)
Definition enterValue2 (rule : option string) (property : string) (node : ValueNode)
    (p : Pass) : Visit * Pass :=
  if negb (isRunning p) then (Descend None, p)
  else if (truthy rule && isVarFunction node && bool_decide (is_Some (firstChild node))
           && isInset property)%bool then
    let name := default "undefined" (firstChild node ≫= nodeName) in
    match cloneFor property (getProperty (customPropAssignments (store p)) name) with
    | Some data =>
        (Descend (Some (key data)), setAnchorFunction (default "" rule) property data p)
    | None => (Descend None, p)
    end
  else (Descend None, p).

Definition enterNode2 (rule : option string) (node : Node) (p : Pass) : Pass := p.

(** *** Text and tree

    [styleObj.css = csstree.generate(ast)] followed by [getAST(styleObj.css)]
    in the next walk gives the tree back, except that a placeholder, left in
    the tree as a raw node, is read back as the [var()] function its text
    spells. *)
Fixpoint dropPrefix (prefix s : string) : option string :=
  match prefix, s with
  | EmptyString, _ => Some s
  | String a prefix', String b s' =>
      if Ascii.eqb a b then dropPrefix prefix' s' else None
  | _, _ => None
  end.

Fixpoint dropClosing (s : string) : option string :=
  match s with
  | EmptyString => None
  | String c EmptyString => if Ascii.eqb c ")" then Some EmptyString else None
  | String c s' => String c <$> dropClosing s'
  end.

Definition readRaw (text : string) : ValueNode :=
  match dropPrefix "var(" text ≫= dropClosing with
  | Some name => Function "var" [Identifier name]
  | None => Raw text
  end.

Fixpoint rereadValue (node : ValueNode) : ValueNode :=
  match node with
  | Raw text => readRaw text
  | Function name children => Function name (map rereadValue children)
  | _ => node
  end.

Fixpoint rereadNode (node : Node) : Node :=
  match node with
  | Rule prelude block => Rule prelude (map rereadNode block)
  | Atrule name prelude block => Atrule name prelude (map rereadNode <$> block)
  | Declaration property value => Declaration property (map rereadValue value)
  end.

(** One style sheet in one of the two loops of [parseCSS]. A throw leaves
    the sheet it happens in, and the sheets after it, as they are. *)
Definition walkSheet (enterValue : option string -> string -> ValueNode -> Pass -> Visit * Pass)
    (enterNode : option string -> Node -> Pass -> Pass)
    (styleObj : StyleData) (p : Pass) : StyleData * Pass :=
  let p :=
    {| store := store p; anchorFunctions := anchorFunctions p;
       fallbackNames := fallbackNames p; fallbackRules := fallbackRules p;
       astChanged := false; status := status p |} in
  let '(ast, p) := walk enterValue enterNode (css styleObj) p in
  if (astChanged p && isRunning p)%bool then
    ({| css := map rereadNode ast; changed := true |}, p)
  else (styleObj, p).

Fixpoint walkSheets (enterValue : option string -> string -> ValueNode -> Pass -> Visit * Pass)
    (enterNode : option string -> Node -> Pass -> Pass)
    (styleData : list StyleData) (p : Pass) : list StyleData * Pass :=
  match styleData with
  | [] => ([], p)
  | styleObj :: rest =>
      let '(styleObj', p) := walkSheet enterValue enterNode styleObj p in
      let '(rest', p) := walkSheets enterValue enterNode rest p in
      (styleObj' :: rest', p)
  end.

(** *** The binder *)

(** [anchorName ? anchorNames[anchorName] ?? [] : []] *)
Definition candidatesFor (st : Store) (name : option string) : Candidates :=
  match name with
  | Some name =>
      if negb (String.eqb name "") then
        match getProperty (anchorNames st) name with
        | Own selectors => Selectors selectors
        | Inherited => NotSelectors name
        | Missing => Selectors []
        end
      else Selectors []
  | None => Selectors []
  end.

Definition getAnchorEl (st : Store) (targetEl : option Element) (anchorObj : AnchorFunction)
    : option Element :=
  let name :=
    match targetEl, customPropName anchorObj with
    | Some el, Some customPropName =>
        if (negb (truthy (anchorName anchorObj))
            && negb (String.eqb customPropName ""))%bool
        then Some (getCSSPropertyValue h el customPropName)
        else anchorName anchorObj
    | _, _ => anchorName anchorObj
    end in
  validatedForPositioning targetEl (candidatesFor st name).

(** [{ ...anchorObj, anchorEl }] *)
Definition withAnchorEl (anchorEl : option Element) (anchorObj : AnchorFunction)
    : AnchorFunction :=
  {| anchorEl := anchorEl;
     anchorName := anchorName anchorObj;
     anchorEdge := anchorEdge anchorObj;
     fallbackValue := fallbackValue anchorObj;
     customPropName := customPropName anchorObj;
     key := key anchorObj |}.

Definition bind (st : Store) (targetEl : option Element) (anchorObj : AnchorFunction)
    : AnchorFunction :=
  withAnchorEl (getAnchorEl st targetEl anchorObj) anchorObj.

Definition bindTryValue (st : Store) (targetEl : option Element) (value : TryValue)
    : TryValue :=
  match value with
  | TryAnchor data => TryAnchor (bind st targetEl data)
  | TryRaw text => TryRaw text
  end.

(** The first loop after the walks. The try blocks of a fallback name are
    one array shared by every selector that names it, so [anchorEl] is
    written into the shared blocks, selector after selector. For a fallback
    name that is a member of [Object.prototype], and not the name of a
    [@position-fallback] rule, [fallbacks[fallbackName]] is truthy and has
    no [forEach]: the call throws, and the result is [None]. *)
Fixpoint bindFallbacks (st : Store) (fallbackNames : list (string * string))
    (rules : gmap string (list TryBlock)) : option (gmap string (list TryBlock)) :=
  match fallbackNames with
  | [] => Some rules
  | (targetSel, fallbackName) :: fallbackNames' =>
      match getProperty rules fallbackName with
      | Own positionFallbacks =>
          let targetEl := querySelector h targetSel in
          bindFallbacks st fallbackNames'
            (<[fallbackName := fmap (bindTryValue st targetEl) <$> positionFallbacks]> rules)
      | Inherited => None
      | Missing => bindFallbacks st fallbackNames' rules
      end
  end.

(** [validPositions[targetSel] = { fallbacks: positionFallbacks }], for the
    selectors of [fallbackNames], none of which is [__proto__]. *)
Definition fallbackPositions (fallbackNames : list (string * string))
    (rules : gmap string (list TryBlock)) : gmap string AnchorPosition :=
  fold_left
    (fun validPositions '(targetSel, fallbackName) =>
       match rules !! fallbackName with
       | Some positionFallbacks =>
           <[targetSel := {| declarations := None; fallbacks := Some positionFallbacks |}]>
             validPositions
       | None => validPositions
       end)
    fallbackNames ∅.

(** The second loop after the walks, for one selector: its declarations
    with [anchorEl] filled in. *)
Definition boundDeclarations (st : Store) (targetSel : string)
    (anchorFns : gmap string AnchorFunction) : option (gmap string AnchorFunction) :=
  if bool_decide (anchorFns = ∅) then None
  else Some (bind st (querySelector h targetSel) <$> anchorFns).

(** [{ ...validPositions[targetSel], declarations }] *)
Definition withDeclarations (position : option AnchorPosition)
    (bound : option (gmap string AnchorFunction)) : option AnchorPosition :=
  match bound with
  | Some bound =>
      Some {| declarations := Some bound; fallbacks := position ≫= fallbacks |}
  | None => position
  end.

(** [parseCSS(styleData)], from the module-level state [st]: what the
    caller gets (the rule model, a [TypeError], or, after a prototype was
    replaced, something that is not described), the style sheet records and
    the module-level state when the run ends. *)
Definition parseCSS (styleData : list StyleData) (st : Store)
    : Outcome * list StyleData * Store :=
  let p :=
    {| store := st; anchorFunctions := ∅; fallbackNames := [];
       fallbackRules := ∅; astChanged := false; status := Running |} in
  let '(styleData, p) := walkSheets enterValue1 enterNode1 styleData p in
  (* Find where CSS custom properties are used *)
  let '(styleData, p) :=
    if (bool_decide (customPropAssignments (store p) = ∅) || negb (isRunning p))%bool
    then (styleData, p)
    else walkSheets enterValue2 enterNode2 styleData p in
  let st := store p in
  match status p with
  | Running =>
      match bindFallbacks st (fallbackNames p) (fallbackRules p) with
      | Some rules =>
          let validPositions := fallbackPositions (fallbackNames p) rules in
          let validPositions :=
            merge withDeclarations validPositions
              (map_imap (boundDeclarations st) (anchorFunctions p)) in
          (Returned validPositions, styleData, st)
      | None => (Throws, styleData, st)
      end
  | Threw => (Throws, styleData, st)
  | PrototypeReplaced => (Undescribed, styleData, st)
  end.

End Rewrite.

End Parse.

(** ** [polyfill.ts] *)

Module Polyfill.

(** [Rect] of [@floating-ui/dom] *)
Record Rect := { x : number; y : number; width : number; height : number }.

Inductive Axis := axis_x | axis_y.
Inductive Dimension := dim_width | dim_height.

Definition getOffsetParent (h : Host) (el : Element) : option Element :=
  let offsetParent := platform_getOffsetParent h el in
  if negb (platform_isElement h offsetParent) then
    match platform_getDocumentElement h el with
    | Some d => Some d
    | None => documentElement h
    end
  else offsetParent.

Definition resolveLogicalSideKeyword (side : AnchorSide) (rtl : bool) : option number :=
  let percentage : option number :=
    match side with
    | SideKeyword k =>
        if (String.eqb k "start" || String.eqb k "self-start")%bool then Some 0%float
        else if (String.eqb k "end" || String.eqb k "self-end")%bool then Some 100%float
        else None
    | SideNumber n => if negb (PrimFloat.is_nan n) then Some n else None
    end in
  match percentage with
  | Some percentage => Some (if rtl then (100 - percentage)%float else percentage)
  | None => None
  end.

Definition resolveLogicalSizeKeyword (size : string) (vertical : bool) : option Dimension :=
  if (String.eqb size "block" || String.eqb size "self-block")%bool then
    Some (if vertical then dim_width else dim_height)
  else if (String.eqb size "inline" || String.eqb size "self-inline")%bool then
    Some (if vertical then dim_height else dim_width)
  else None.

Definition getAxis (position : string) : option Axis :=
  if (String.eqb position "top" || String.eqb position "bottom")%bool then Some axis_y
  else if (String.eqb position "left" || String.eqb position "right")%bool then Some axis_x
  else None.

Definition getAxisProperty (axis : option Axis) : option Dimension :=
  match axis with
  | Some axis_x => Some dim_width
  | Some axis_y => Some dim_height
  | None => None
  end.

Definition isInline (h : Host) (el : Element) : bool :=
  String.eqb (getCSSPropertyValue h el "display") "inline".

Definition getBorders (h : Host) (el : Element) (axis : Axis) : number :=
  let props :=
    match axis with
    | axis_x => ["border-left-width"; "border-right-width"]
    | axis_y => ["border-top-width"; "border-bottom-width"]
    end in
  orZero
    (fold_left (fun total prop => (total + parseInt h (getCSSPropertyValue h el prop))%float)
       props 0%float).

Definition getMargin (h : Host) (el : Element) (dir : string) : number :=
  orZero (parseInt h (getCSSPropertyValue h el ("margin-" ++ dir))).

(** [anchorRect[axis]] and [anchorRect[dir]] *)
Definition rectAxis (r : Rect) (a : Axis) : number :=
  match a with axis_x => x r | axis_y => y r end.

Definition rectDim (r : Rect) (d : Dimension) : number :=
  match d with dim_width => width r | dim_height => height r end.

(** Modelled from the spec: [isInsetProp] is imported from [parse.js], whose
    source at hand only has [isInset]; the glossary's inset properties are the
    same four ("one of the four edge-offset properties
    (top/right/bottom/left)"). A number is never one of them. *)
Definition isInsetProp (property : string) : bool := isInset property.

Definition isInsetSide (side : AnchorSide) : bool :=
  match side with
  | SideKeyword k => isInsetProp k
  | SideNumber _ => false
  end.

(** [getAxis(anchorSide)] *)
Definition getAxisOfSide (side : AnchorSide) : option Axis :=
  match side with
  | SideKeyword k => getAxis k
  | SideNumber _ => None
  end.

Definition eqAxis (a : option Axis) (b : option Axis) : bool :=
  match a, b with
  | Some axis_x, Some axis_x | Some axis_y, Some axis_y | None, None => true
  | _, _ => false
  end.

Record GetPixelValueOpts := {
  targetEl : option Element;
  targetProperty : string;
  anchorRect : option Rect;
  anchorSide : option AnchorSide;
  anchorSize : option string;
  fallback : string;
}.

Section Resolver.

(** The host the resolver runs in. *)
Variable h : Host.

(** [isSizingProp] of [parse.js] (the sizing properties [anchor-size()] may
    feed); its source is not at hand, so it is a parameter. *)
Variable isSizingProp : string -> bool.

(** The [switch (anchorSide)] of [getPixelValue]. *)
Definition sidePercentage (targetEl : Element) (anchorSide : AnchorSide) : option number :=
  match anchorSide with
  | SideKeyword "left" => Some 0%float
  | SideKeyword "right" => Some 100%float
  | SideKeyword "top" => Some 0%float
  | SideKeyword "bottom" => Some 100%float
  | SideKeyword "center" => Some 50%float
  | _ =>
      let rtl := default false (platform_isRTL h targetEl) in
      resolveLogicalSideKeyword anchorSide rtl
  end.

(** The [switch (anchorSize)] of [getPixelValue]. *)
Definition resolvedSize (targetEl : Element) (anchorSize : string) : option Dimension :=
  match anchorSize with
  | "width" => Some dim_width
  | "height" => Some dim_height
  | _ =>
      let writingMode := getCSSPropertyValue h targetEl "writing-mode" in
      let vertical :=
        (startsWith writingMode "vertical-" || startsWith writingMode "sideways-")%bool in
      resolveLogicalSizeKeyword anchorSize vertical
  end.

(** The [switch (targetProperty)] that turns the offset into a distance from
    the far edge of the offset parent. *)
Definition fromFarEdge (targetProperty : string) (offsetParent : option Element)
    (axis : Axis) (value : number) : number :=
  match targetProperty, offsetParent with
  | "bottom", Some offsetParent =>
      let clientSize := clientHeight h offsetParent in
      let size :=
        if (PrimFloat.eqb clientSize 0 && isInline h offsetParent)%bool then
          (offsetHeight h offsetParent - getBorders h offsetParent axis)%float
        else clientSize in
      (size - value)%float
  | "right", Some offsetParent =>
      let clientSize := clientWidth h offsetParent in
      let size :=
        if (PrimFloat.eqb clientSize 0 && isInline h offsetParent)%bool then
          (offsetWidth h offsetParent - getBorders h offsetParent axis)%float
        else clientSize in
      (size - value)%float
  | _, _ => value
  end.

Definition getPixelValue (opts : GetPixelValueOpts) : string :=
  match targetEl opts, anchorRect opts with
  | Some targetEl, Some anchorRect =>
      if negb (truthy (anchorSize opts) || bool_decide (is_Some (anchorSide opts))) then
        fallback opts
      else if truthy (anchorSize opts) then
        if negb (isSizingProp (targetProperty opts)) then fallback opts
        else
          match resolvedSize targetEl (default "" (anchorSize opts)) with
          | Some size => numberToString h (rectDim anchorRect size) ++ "px"
          | None => fallback opts
          end
      else
        match anchorSide opts with
        | Some anchorSide =>
            let axis := getAxis (targetProperty opts) in
            if negb (isInsetProp (targetProperty opts)
                     && bool_decide (is_Some axis)
                     && (negb (isInsetSide anchorSide)
                         || eqAxis axis (getAxisOfSide anchorSide))) then
              fallback opts
            else
              let percentage := sidePercentage targetEl anchorSide in
              let dir := getAxisProperty axis in
              match percentage, axis, dir with
              | Some percentage, Some axis, Some dir =>
                  if PrimFloat.is_nan percentage then fallback opts
                  else
                    let offsetParent :=
                      if (String.eqb (targetProperty opts) "bottom"
                          || String.eqb (targetProperty opts) "right")%bool
                      then getOffsetParent h targetEl else None in
                    let value :=
                      (rectAxis anchorRect axis
                       + rectDim anchorRect dir * (percentage / 100))%float in
                    let value := fromFarEdge (targetProperty opts) offsetParent axis value in
                    numberToString h value ++ "px"
              | _, _, _ => fallback opts
              end
        | None => fallback opts
        end
  | _, _ => fallback opts
  end.

End Resolver.

(** *** The fallback selector, [applyPositionFallbacks] *)

(** [SideObject] of [@floating-ui/dom]: what [checkOverflow] resolves to. *)
Module SideObject.
Record t := { top : number; right : number; bottom : number; left : number }.
End SideObject.

(** [Object.values(overflow).every((side) => side <= 0)] *)
Definition noneOverflows (overflow : SideObject.t) : bool :=
  (PrimFloat.leb (SideObject.top overflow) 0
   && PrimFloat.leb (SideObject.right overflow) 0
   && PrimFloat.leb (SideObject.bottom overflow) 0
   && PrimFloat.leb (SideObject.left overflow) 0)%bool.

(** The field of a try block the selector reads. *)
Record TryBlock := { uuid : string }.

(** What one callback of the [fallbacks.map] reads after its
    [checkOverflow]: the overflow and the target's client box. *)
Record Measurement := {
  overflow : SideObject.t;
  targetClientHeight : number;
  targetClientWidth : number;
}.

Record Visible := { visibleHeight : number; visibleWidth : number }.

Definition visible (m : Measurement) : Visible :=
  {| visibleHeight :=
       (targetClientHeight m
        - Math_max 0 (SideObject.top (overflow m))
        - Math_max 0 (SideObject.bottom (overflow m)))%float;
     visibleWidth :=
       (targetClientWidth m
        - Math_max 0 (SideObject.left (overflow m))
        - Math_max 0 (SideObject.right (overflow m)))%float |}.

Inductive Sorter := sortHeight | sortWidth.

Definition sorterOf (order : string) : Sorter :=
  if existsb (String.eqb order) ["most-height"; "most-block-size"]
  then sortHeight else sortWidth.

Definition visibleBy (sorter : Sorter) (v : Visible) : number :=
  match sorter with
  | sortHeight => visibleHeight v
  | sortWidth => visibleWidth v
  end.

(** [Array.prototype.sort(compareFn)]: a stable sort; [a] goes after [b]
    only when [compareFn(a, b) > 0] (a [NaN] result counts as [0]). *)
Section Sort.
Context {A : Type} (compareFn : A -> A -> number).

Fixpoint sortInsert (a : A) (l : list A) : list A :=
  match l with
  | [] => [a]
  | b :: l' =>
      if PrimFloat.ltb 0 (compareFn a b) then b :: sortInsert a l' else a :: l
  end.

Definition sort (l : list A) : list A := foldr sortInsert [] l.
End Sort.

(** Where a suspended run of the [autoUpdate] callback waits. *)
Inductive Pending :=
| AwaitDefault            (** [await checkOverflow] for the default box *)
| AwaitTry (index : nat)  (** [await checkOverflow] in the [normal] loop *)
| AwaitAll.               (** [await Promise.all(...)] *)

(** One target of [applyPositionFallbacks]: the [checking] flag of its
    closure, its [data-anchor-polyfill] attribute, the suspended runs of its
    callback, and the attribute at each [checkOverflow] call issued so far. *)
Record TargetState := {
  checking : bool;
  attribute : option string;
  pending : list Pending;
  checks : list (option string);
}.

Inductive Event :=
| LayoutChange
    (** [autoUpdate] calls the callback *)
| Overflow (run : nat) (result : SideObject.t)
    (** the [checkOverflow] that run [run] awaits resolves *)
| AllMeasured (run : nat) (results : list Measurement).
    (** the [Promise.all] that run [run] awaits resolves *)

Section Selector.

Variable fallbacks : list TryBlock.
Variable order : string.

(** The run at [run] ends. *)
Definition finish (run : nat) (checking : bool) (attribute : option string)
    (s : TargetState) : TargetState :=
  {| checking := checking; attribute := attribute;
     pending := delete run (pending s); checks := checks s |}.

(** The [normal] loop reaches [index]: apply that block and measure. *)
Definition tryAt (run index : nat) (s : TargetState) : TargetState :=
  match fallbacks !! index with
  | Some block =>
      {| checking := checking s; attribute := Some (uuid block);
         pending := <[run := AwaitTry index]> (pending s);
         checks := checks s ++ [Some (uuid block)] |}
  | None => finish run (checking s) (attribute s) s
  end.

Definition step (e : Event) (s : TargetState) : TargetState :=
  match e with
  | LayoutChange =>
      if checking s then s
      else
        {| checking := true; attribute := None;
           pending := pending s ++ [AwaitDefault];
           checks := checks s ++ [None] |}
  | Overflow run result =>
      match pending s !! run with
      | Some AwaitDefault =>
          if noneOverflows result then finish run false (attribute s) s
          else if String.eqb order "normal" then tryAt run 0 s
          else
            {| checking := checking s;
               attribute :=
                 match last fallbacks with
                 | Some block => Some (uuid block)
                 | None => attribute s
                 end;
               pending := <[run := AwaitAll]> (pending s);
               checks := checks s ++ map (fun b => Some (uuid b)) fallbacks |}
      | Some (AwaitTry index) =>
          if noneOverflows result then finish run false (attribute s) s
          else if Nat.eqb index (length fallbacks - 1) then finish run false None s
          else tryAt run (S index) s
      | _ => s
      end
  | AllMeasured run results =>
      match pending s !! run with
      | Some AwaitAll =>
          let visibleArea :=
            zip_with (fun b m => (uuid b, visible m)) fallbacks results in
          let sorter := sorterOf order in
          let sorted :=
            sort (fun a b => (visibleBy sorter b.2 - visibleBy sorter a.2)%float)
              visibleArea in
          match sorted with
          | winner :: _ => finish run false (Some winner.1) s
          | [] => finish run (checking s) (attribute s) s
          end
      | _ => s
      end
  end.

Definition run (events : list Event) (s : TargetState) : TargetState :=
  fold_left (fun s e => step e s) events s.

End Selector.

(** A target at rest. *)
Definition idle : TargetState :=
  {| checking := false; attribute := None; pending := []; checks := [] |}.

(** *** The callbacks on a page *)

(** What the second loop of [position] reads of an entry of the rule
    model. *)
Module Position.
Record t := { fallbacks : option (list TryBlock); order : option string }.
End Position.

(** One callback handed to [autoUpdate] by [applyPositionFallbacks]: its
    target; the try blocks and the order of the call that made it; and its
    closure: the [checking] flag, the runs it has suspended, and the
    attribute at each [checkOverflow] it has issued. *)
Record Callback := {
  callbackTarget : Element;
  callbackFallbacks : list TryBlock;
  callbackOrder : string;
  callbackChecking : bool;
  callbackPending : list Pending;
  callbackChecks : list (option string);
}.

(** The page: the [data-anchor-polyfill] attribute of its elements, which
    all the callbacks of an element share, and the callbacks, in the order
    they were installed. *)
Record Page := {
  attributes : gmap Element string;
  callbacks : list Callback;
}.

Section Page.

(** [document.querySelectorAll(targetSel)] *)
Variable querySelectorAll : string -> list Element.

(** [applyPositionFallbacks(targetSel, fallbacks, order = 'normal')]:
    nothing is installed for an empty list; otherwise every element of
    [querySelectorAll(targetSel)] gets a callback with a [checking] flag of
    its own. *)
Definition applyPositionFallbacks (targetSel : string) (fallbacks : list TryBlock)
    (order : option string) : list Callback :=
  if Nat.eqb (length fallbacks) 0 then []
  else
    map (fun target =>
           {| callbackTarget := target; callbackFallbacks := fallbacks;
              callbackOrder := default "normal" order;
              callbackChecking := false; callbackPending := []; callbackChecks := [] |})
      (querySelectorAll targetSel).

(** The second loop of [position(rules)]: one call of
    [applyPositionFallbacks] for each entry of [rules], in order. (The
    first loop, [applyAnchorPositions], neither reads nor writes what the
    callbacks of the second do.) *)
Definition position (rules : list (string * Position.t)) : list Callback :=
  flat_map
    (fun '(targetSel, position) =>
       applyPositionFallbacks targetSel (default [] (Position.fallbacks position))
         (Position.order position))
    rules.

End Page.

(** An event reaches the callback at [index]: the callback runs on its own
    closure and on the attribute of its target. *)
Definition notify (index : nat) (e : Event) (page : Page) : Page :=
  match callbacks page !! index with
  | Some c =>
      let s :=
        step (callbackFallbacks c) (callbackOrder c) e
          {| checking := callbackChecking c;
             attribute := attributes page !! callbackTarget c;
             pending := callbackPending c; checks := callbackChecks c |} in
      {| attributes :=
           match attribute s with
           | Some value => <[callbackTarget c := value]> (attributes page)
           | None => delete (callbackTarget c) (attributes page)
           end;
         callbacks :=
           <[index := {| callbackTarget := callbackTarget c;
                         callbackFallbacks := callbackFallbacks c;
                         callbackOrder := callbackOrder c;
                         callbackChecking := checking s;
                         callbackPending := pending s;
                         callbackChecks := checks s |}]> (callbacks page) |}
  | None => page
  end.

Definition notifyAll (events : list (nat * Event)) (page : Page) : Page :=
  fold_left (fun page '(index, e) => notify index e page) events page.

End Polyfill.

(** * Properties *)

(** ** Binary64 facts *)

Section NumberFacts.
Import SpecFloat.
Local Open Scope Z_scope.

Lemma shr_1_xO (p : positive) :
  shr_1 {| shr_m := Z.pos p~0; shr_r := false; shr_s := false |}
  = {| shr_m := Z.pos p; shr_r := false; shr_s := false |}.
Proof. reflexivity. Qed.

Lemma shr_iter_xO (n : nat) (p : positive) :
  Nat.iter n shr_1 {| shr_m := Z.pos (Nat.iter n xO p); shr_r := false; shr_s := false |}
  = {| shr_m := Z.pos p; shr_r := false; shr_s := false |}.
Proof.
  induction n as [|n IH]; [reflexivity|].
  rewrite (Nat.iter_succ_r n shr_1).
  change (Nat.iter (S n) xO p) with (xO (Nat.iter n xO p)).
  rewrite shr_1_xO. exact IH.
Qed.

Lemma iter_pos_nat {A} (f : A -> A) (p : positive) (a : A) :
  iter_pos f p a = Nat.iter (Pos.to_nat p) f a.
Proof.
  revert a. induction p as [p IH|p IH|]; intros a; cbn [iter_pos].
  - rewrite !IH, Pos2Nat.inj_xI. cbn [Nat.mul].
    rewrite Nat.add_0_r, <- Nat.iter_add, <- Nat.iter_succ_r. reflexivity.
  - rewrite !IH, Pos2Nat.inj_xO. cbn [Nat.mul].
    rewrite Nat.add_0_r, <- Nat.iter_add. reflexivity.
  - reflexivity.
Qed.

Lemma digits2_iter_xO (n : nat) (p : positive) :
  Z.pos (digits2_pos (Nat.iter n xO p)) = Z.pos (digits2_pos p) + Z.of_nat n.
Proof.
  induction n as [|n IH]; [cbn; lia|].
  change (Nat.iter (S n) xO p) with (xO (Nat.iter n xO p)).
  cbn [digits2_pos]. lia.
Qed.

(** Multiplying by [1] is exact, for every binary64 value. *)
Lemma SFmul_one_r (s : spec_float) :
  SpecFloat.valid_binary prec emax s = true ->
  SF64mul s (S754_finite false 4503599627370496 (-52)) = s.
Proof.
  destruct s as [sx|sx| |sx mx ex]; intros Hv;
    try reflexivity; try (destruct sx; reflexivity).
  unfold SF64mul, SFmul.
  cbn [SpecFloat.valid_binary] in Hv. unfold bounded in Hv.
  apply andb_prop in Hv as [Hc Hb].
  unfold canonical_mantissa in Hc. apply Z.eqb_eq in Hc. apply Z.leb_le in Hb.
  rewrite Pos.mul_comm.
  replace (4503599627370496 * mx)%positive with (Nat.iter 52 xO mx) by reflexivity.
  unfold binary_round_aux, shr_fexp.
  cbn [Zdigits2]. rewrite digits2_iter_xO.
  replace (Z.pos (digits2_pos mx) + Z.of_nat 52 + (ex + -52))
    with (Z.pos (digits2_pos mx) + ex) by lia.
  rewrite Hc.
  replace (ex - (ex + -52)) with 52 by lia.
  cbn [shr_record_of_loc shr]. rewrite iter_pos_nat.
  change (Pos.to_nat 52) with 52%nat. rewrite shr_iter_xO.
  cbn [shr_m loc_of_shr_record round_nearest_even Zdigits2].
  replace (ex + -52 + 52) with ex by lia.
  rewrite Hc, Z.sub_diag. cbn [shr shr_record_of_loc shr_m].
  destruct (Z.leb_spec ex (emax - prec)); [|lia].
  destruct sx; reflexivity.
Qed.

Lemma mul_one_r (v : number) : (v * 1)%float = v.
Proof.
  apply Prim2SF_inj. rewrite mul_spec.
  change (Prim2SF 1) with (S754_finite false 4503599627370496 (-52)).
  apply SFmul_one_r, Prim2SF_valid.
Qed.

End NumberFacts.

(** ** Sample hosts *)

(** A left-to-right page: element [0] is the document element, every box is
    200 by 100. *)
Definition sampleHost : Host :=
  {| getPropertyValue := fun _ _ => "";
     platform_getOffsetParent := fun _ => None;
     platform_isElement := fun o => bool_decide (is_Some o);
     platform_getDocumentElement := fun _ => Some 0;
     documentElement := Some 0;
     platform_isRTL := fun _ => Some false;
     clientHeight := fun _ => 100%float;
     clientWidth := fun _ => 200%float;
     offsetHeight := fun _ => 100%float;
     offsetWidth := fun _ => 200%float;
     parseInt := fun _ => 0%float;
     numberToString := fun v => if PrimFloat.eqb v 30 then "30" else "?";
     toNumber := fun text => if String.eqb text "50" then 50%float else 100%float;
     querySelector := fun selector =>
       if String.eqb selector "#target" then Some 1
       else if String.eqb selector "#anchor" then Some 2 else None |}.

(** The same page, written right to left. *)
Definition sampleHostRtl : Host :=
  {| getPropertyValue := getPropertyValue sampleHost;
     platform_getOffsetParent := platform_getOffsetParent sampleHost;
     platform_isElement := platform_isElement sampleHost;
     platform_getDocumentElement := platform_getDocumentElement sampleHost;
     documentElement := documentElement sampleHost;
     platform_isRTL := fun _ => Some true;
     clientHeight := clientHeight sampleHost;
     clientWidth := clientWidth sampleHost;
     offsetHeight := offsetHeight sampleHost;
     offsetWidth := offsetWidth sampleHost;
     parseInt := parseInt sampleHost;
     numberToString := numberToString sampleHost;
     toNumber := toNumber sampleHost;
     querySelector := querySelector sampleHost |}.

Definition sampleRect : Polyfill.Rect :=
  {| Polyfill.x := 5; Polyfill.y := 10; Polyfill.width := 40; Polyfill.height := 20 |}.

(** A validity check that takes the first candidate the page has, for a
    target that exists. *)
Definition sampleValidated (targetEl : option Element) (anchorSelectors : Parse.Candidates)
    : option Element :=
  match targetEl, anchorSelectors with
  | Some _, Parse.Selectors (selector :: _) => querySelector sampleHost selector
  | _, _ => None
  end.

Definition sampleReference : Parse.AnchorFunction :=
  {| Parse.anchorEl := None; Parse.anchorName := Some "--my-anchor";
     Parse.anchorEdge := Some (SideKeyword "bottom"); Parse.fallbackValue := Some "0px";
     Parse.customPropName := None; Parse.key := "--anchor-0" |}.

Definition sampleSizing (property : string) : bool :=
  existsb (String.eqb property) ["width"; "height"].

(** ** The pixel resolver *)

Section PixelResolver.
Import Polyfill.

Lemma isInset_cases (property : string) :
  isInset property = true ->
  property = "left" \/ property = "right" \/ property = "top" \/ property = "bottom".
Proof.
  unfold isInset. cbn [existsb]. rewrite !orb_true_iff, !String.eqb_eq. intuition discriminate.
Qed.

(** Two different binary64 values, by their bits. *)
Definition optionBits (v : option number) : SpecFloat.spec_float :=
  match v with
  | Some v => Prim2SF v
  | None => SpecFloat.S754_nan
  end.

Ltac number_discriminate H :=
  apply (f_equal optionBits) in H; vm_compute in H; discriminate H.

(** C2, as the specification states it, fails: on a right-to-left target
    the numeric side 25 resolves to 75, not to 25. *)
Lemma numeric_side_unchanged_by_rtl_fails :
  sidePercentage sampleHostRtl 1 (SideNumber 25) = Some 75%float
  /\ sidePercentage sampleHostRtl 1 (SideNumber 25) <> Some 25%float.
Proof.
  split; [reflexivity|].
  intros H. number_discriminate H.
Qed.

(** C2, amended: the percentage a side resolves to. Physical keywords give
    fixed end points; [start]/[self-start] give 0 and [end]/[self-end] give
    100, swapped on a right-to-left target; a numeric percentage [p] gives
    [p], and [100 - p] on a right-to-left target. *)
Theorem side_percentage (h : Host) (target : Element) (p : number) :
  let rtl := default false (platform_isRTL h target) in
  sidePercentage h target (SideKeyword "left") = Some 0%float
  /\ sidePercentage h target (SideKeyword "top") = Some 0%float
  /\ sidePercentage h target (SideKeyword "right") = Some 100%float
  /\ sidePercentage h target (SideKeyword "bottom") = Some 100%float
  /\ sidePercentage h target (SideKeyword "center") = Some 50%float
  /\ sidePercentage h target (SideKeyword "start")
     = Some (if rtl then 100%float else 0%float)
  /\ sidePercentage h target (SideKeyword "self-start")
     = Some (if rtl then 100%float else 0%float)
  /\ sidePercentage h target (SideKeyword "end")
     = Some (if rtl then 0%float else 100%float)
  /\ sidePercentage h target (SideKeyword "self-end")
     = Some (if rtl then 0%float else 100%float)
  /\ sidePercentage h target (SideNumber p)
     = if PrimFloat.is_nan p then None
       else Some (if rtl then (100 - p)%float else p).
Proof.
  intros rtl. subst rtl.
  repeat split; try reflexivity;
    unfold sidePercentage, resolveLogicalSideKeyword;
    destruct (default false (platform_isRTL h target));
    try reflexivity; destruct (PrimFloat.is_nan p); reflexivity.
Qed.

(** The mismatches of axis and of property family. *)
Inductive Mismatch (isSizingProp : string -> bool) (opts : GetPixelValueOpts) : Prop :=
| anchor_on_other_property (side : AnchorSide) :
    truthy (anchorSize opts) = false ->
    anchorSide opts = Some side ->
    isInsetProp (targetProperty opts) = false ->
    Mismatch isSizingProp opts
| side_on_other_axis (keyword : string) (sideAxis propertyAxis : Axis) :
    truthy (anchorSize opts) = false ->
    anchorSide opts = Some (SideKeyword keyword) ->
    getAxis keyword = Some sideAxis ->
    getAxis (targetProperty opts) = Some propertyAxis ->
    sideAxis <> propertyAxis ->
    Mismatch isSizingProp opts
| size_on_other_property :
    truthy (anchorSize opts) = true ->
    isSizingProp (targetProperty opts) = false ->
    Mismatch isSizingProp opts.

Lemma getAxis_isInset (keyword : string) (axis : Axis) :
  getAxis keyword = Some axis -> isInset keyword = true.
Proof.
  unfold getAxis, isInset. cbn [existsb].
  destruct (String.eqb keyword "top"), (String.eqb keyword "bottom"),
    (String.eqb keyword "left"), (String.eqb keyword "right");
    cbn; intros; try reflexivity; discriminate.
Qed.

(** C6: on every mismatch the resolver returns the fallback. *)
Theorem mismatch_falls_back (h : Host) (isSizingProp : string -> bool)
    (opts : GetPixelValueOpts) :
  Mismatch isSizingProp opts ->
  getPixelValue h isSizingProp opts = fallback opts.
Proof.
  intros Hm. unfold getPixelValue.
  destruct (targetEl opts) as [target|]; [|reflexivity].
  destruct (anchorRect opts) as [rect|]; [|reflexivity].
  destruct Hm as [side Hsize Hside Hprop
                 |keyword sideAxis propertyAxis Hsize Hside Hk Hp Hne
                 |Hsize Hprop].
  - rewrite Hsize, Hside, Hprop. reflexivity.
  - rewrite Hsize, Hside, Hp.
    cbn -[sidePercentage getOffsetParent fromFarEdge isInsetProp getAxis].
    unfold isInsetProp at 2.
    rewrite (getAxis_isInset _ _ Hk), Hk.
    destruct (isInsetProp (targetProperty opts)), propertyAxis, sideAxis;
      try reflexivity; congruence.
  - rewrite Hsize, Hprop. reflexivity.
Qed.

Lemma mismatch_falls_back_witness :
  getPixelValue sampleHost sampleSizing
    {| targetEl := Some 1; targetProperty := "top"; anchorRect := Some sampleRect;
       anchorSide := Some (SideKeyword "left"); anchorSize := None;
       fallback := "7px" |} = "7px".
Proof.
  apply (mismatch_falls_back sampleHost sampleSizing
           {| targetEl := Some 1; targetProperty := "top"; anchorRect := Some sampleRect;
              anchorSide := Some (SideKeyword "left"); anchorSize := None;
              fallback := "7px" |}).
  apply (side_on_other_axis _ _ "left" axis_x axis_y); try reflexivity.
  discriminate.
Defined.

(** The specification's words for C4 (§4.4), written from the host's
    measurements alone. The offset along the axis: *)
Definition offsetAlongAxis (rect : Rect) (axis : Axis) (percentage : number) : number :=
  match axis with
  | axis_x => (x rect + width rect * (percentage / 100))%float
  | axis_y => (y rect + height rect * (percentage / 100))%float
  end.

(** The containing block of the target: the offset parent the layout oracle
    gives when that is an element, and otherwise the document element, of
    the target or of the window. *)
Inductive ContainingBlock (h : Host) (target : Element) : option Element -> Prop :=
| block_is_offset_parent :
    platform_isElement h (platform_getOffsetParent h target) = true ->
    ContainingBlock h target (platform_getOffsetParent h target)
| block_is_document_element (root : Element) :
    platform_isElement h (platform_getOffsetParent h target) = false ->
    platform_getDocumentElement h target = Some root ->
    ContainingBlock h target (Some root)
| block_is_window_document :
    platform_isElement h (platform_getOffsetParent h target) = false ->
    platform_getDocumentElement h target = None ->
    ContainingBlock h target (documentElement h).

(** The computed value of a property, without the white space around it,
    and the border widths of a block along an axis: the two widths, read as
    integers, added up from [0]; [0] when that is not a number. *)
Definition computed (h : Host) (el : Element) (property : string) : string :=
  trim (getPropertyValue h el property).

Definition borderWidths (h : Host) (block : Element) (axis : Axis) : number :=
  match axis with
  | axis_x =>
      orZero (0 + parseInt h (computed h block "border-left-width")
                + parseInt h (computed h block "border-right-width"))%float
  | axis_y =>
      orZero (0 + parseInt h (computed h block "border-top-width")
                + parseInt h (computed h block "border-bottom-width"))%float
  end.

(** The size of the containing block along an axis: its content box, and,
    when that is zero and the block is inline, its border box less its
    border widths. *)
Definition containingSize (h : Host) (block : Element) (axis : Axis) : number :=
  let content :=
    match axis with
    | axis_x => clientWidth h block
    | axis_y => clientHeight h block
    end in
  let border :=
    match axis with
    | axis_x => offsetWidth h block
    | axis_y => offsetHeight h block
    end in
  if (PrimFloat.eqb content 0 && String.eqb (computed h block "display") "inline")%bool
  then (border - borderWidths h block axis)%float
  else content.

(** The pixels for each inset property: the offset itself for [top] and
    [left]; for [bottom] and [right] the distance of the offset from the far
    edge of the containing block [block] (the offset itself on a page with
    no element to measure against). *)
Definition expectedPixels (h : Host) (block : option Element) (property : string)
    (rect : Rect) (percentage : number) : number :=
  if String.eqb property "top" then offsetAlongAxis rect axis_y percentage
  else if String.eqb property "left" then offsetAlongAxis rect axis_x percentage
  else if String.eqb property "bottom" then
    match block with
    | Some block =>
        (containingSize h block axis_y - offsetAlongAxis rect axis_y percentage)%float
    | None => offsetAlongAxis rect axis_y percentage
    end
  else
    match block with
    | Some block =>
        (containingSize h block axis_x - offsetAlongAxis rect axis_x percentage)%float
    | None => offsetAlongAxis rect axis_x percentage
    end.

Lemma getOffsetParent_block (h : Host) (target : Element) (block : option Element) :
  ContainingBlock h target block -> getOffsetParent h target = block.
Proof.
  intros [Helement|root Helement Hroot|Helement Hroot]; unfold getOffsetParent;
    rewrite Helement; cbn [negb]; try rewrite Hroot; reflexivity.
Qed.

Lemma fromFarEdge_block (h : Host) (block : Element) (axis : Axis) (value : number) :
  fromFarEdge h "bottom" (Some block) axis_y value
  = (containingSize h block axis_y - value)%float
  /\ fromFarEdge h "right" (Some block) axis_x value
     = (containingSize h block axis_x - value)%float.
Proof. split; reflexivity. Qed.

(** C4: an [anchor()] reference on an inset property, with a bound rect and
    a side that resolves to the percentage [p], resolves to the pixels of
    the specification, measured against the containing block of the target;
    and [anchor(--name bottom)] on [top] is exactly the rect's [y] plus its
    [height]. *)
Theorem anchor_pixels (h : Host) (isSizingProp : string -> bool) (target : Element)
    (block : option Element) (property : string) (rect : Rect) (side : AnchorSide)
    (p : number) (fb : string) :
  isInsetProp property = true ->
  isInsetSide side = false \/ getAxisOfSide side = getAxis property ->
  sidePercentage h target side = Some p ->
  PrimFloat.is_nan p = false ->
  ContainingBlock h target block ->
  getPixelValue h isSizingProp
    {| targetEl := Some target; targetProperty := property; anchorRect := Some rect;
       anchorSide := Some side; anchorSize := None; fallback := fb |}
  = numberToString h (expectedPixels h block property rect p) ++ "px"
  /\ getPixelValue h isSizingProp
       {| targetEl := Some target; targetProperty := "top"; anchorRect := Some rect;
          anchorSide := Some (SideKeyword "bottom"); anchorSize := None; fallback := fb |}
     = numberToString h (y rect + height rect)%float ++ "px".
Proof.
  intros Hprop Haxis Hp Hnan Hblock. split.
  - assert (Hguard : (negb (isInsetSide side)
                      || eqAxis (getAxis property) (getAxisOfSide side))%bool = true).
    { destruct Haxis as [-> | ->]; [reflexivity|].
      rewrite orb_true_iff. right.
      destruct (getAxis property) as [[]|]; reflexivity. }
    unfold getPixelValue.
    cbn [targetEl anchorRect anchorSize anchorSide targetProperty fallback truthy orb negb].
    rewrite Hprop, Hguard, Hp, Hnan.
    apply isInset_cases in Hprop as [-> | [-> | [-> | ->]]];
      cbn -[getOffsetParent fromFarEdge containingSize];
      try reflexivity;
      rewrite (getOffsetParent_block _ _ _ Hblock);
      unfold expectedPixels; cbn -[fromFarEdge containingSize];
      destruct block as [block|]; try reflexivity;
      rewrite ?(proj1 (fromFarEdge_block h block _ _)),
        ?(proj2 (fromFarEdge_block h block _ _)); reflexivity.
  - unfold getPixelValue.
    cbn -[getOffsetParent getBorders isInline].
    change (100 / 100)%float with 1%float.
    rewrite mul_one_r. reflexivity.
Qed.

(** An inline containing block whose content box is zero: its border box is
    100 high, with borders of 2 and 3. *)
Definition sampleInlineHost : Host :=
  {| getPropertyValue := fun _ property =>
       if String.eqb property "display" then " inline "
       else if String.eqb property "border-top-width" then "2px"
       else if String.eqb property "border-bottom-width" then "3px"
       else "";
     platform_getOffsetParent := fun _ => Some 7;
     platform_isElement := fun o => bool_decide (is_Some o);
     platform_getDocumentElement := fun _ => Some 0;
     documentElement := Some 0;
     platform_isRTL := fun _ => Some false;
     clientHeight := fun _ => 0%float;
     clientWidth := fun _ => 0%float;
     offsetHeight := fun _ => 100%float;
     offsetWidth := fun _ => 200%float;
     parseInt := fun text =>
       if String.eqb text "2px" then 2%float
       else if String.eqb text "3px" then 3%float else PrimFloat.nan;
     numberToString := fun v => if PrimFloat.eqb v 65 then "65" else "?";
     toNumber := fun _ => PrimFloat.nan;
     querySelector := fun _ => None |}.

(** [bottom: anchor(--a bottom)]: the rect ends at 30, the block is
    100 - (2 + 3) high, so the distance from its far edge is 65. *)
Lemma anchor_pixels_witness :
  getPixelValue sampleInlineHost sampleSizing
    {| targetEl := Some 1; targetProperty := "bottom"; anchorRect := Some sampleRect;
       anchorSide := Some (SideKeyword "bottom"); anchorSize := None; fallback := "0px" |}
  = "65px".
Proof.
  refine (eq_trans
    (proj1 (anchor_pixels sampleInlineHost sampleSizing 1 (Some 7) "bottom" sampleRect
              (SideKeyword "bottom") 100 "0px" _ _ _ _ _)) _);
    try reflexivity.
  - right. reflexivity.
  - apply (block_is_offset_parent sampleInlineHost 1). reflexivity.
Defined.

End PixelResolver.

(** ** The binder *)

Section Binder.
Import Parse.

(** The anchor name the binder looks up (§4.3): the reference's own name
    when it has one, and otherwise, for a reference with a custom property
    on a target that exists, the computed value of that property. *)
Definition effectiveName (h : Host) (targetEl : option Element)
    (anchorObj : AnchorFunction) : option string :=
  if truthy (anchorName anchorObj) then anchorName anchorObj
  else
    match targetEl, customPropName anchorObj with
    | Some el, Some prop =>
        if negb (String.eqb prop "") then Some (getCSSPropertyValue h el prop)
        else anchorName anchorObj
    | _, _ => anchorName anchorObj
    end.

(** The bindings C7 calls unresolved: a name nobody declared, a reference
    with neither a name nor a custom property, a custom property whose
    computed value is empty or names nothing declared, a reference whose
    target element is missing, and a declared name none of whose elements
    the validity check accepts. A name nobody declared is a name for which
    [anchorNames[name]] is [undefined]. *)
Inductive Unresolved (h : Host)
    (validatedForPositioning : option Element -> Candidates -> option Element)
    (st : Store) (targetEl : option Element) (anchorObj : AnchorFunction) : Prop :=
| unknown_name (name : string) :
    anchorName anchorObj = Some name ->
    name <> "" ->
    getProperty (anchorNames st) name = Missing ->
    Unresolved h validatedForPositioning st targetEl anchorObj
| no_name :
    truthy (anchorName anchorObj) = false ->
    truthy (customPropName anchorObj) = false ->
    Unresolved h validatedForPositioning st targetEl anchorObj
| failed_lookup (el : Element) (prop : string) :
    targetEl = Some el ->
    truthy (anchorName anchorObj) = false ->
    customPropName anchorObj = Some prop ->
    prop <> "" ->
    getCSSPropertyValue h el prop = ""
    \/ getProperty (anchorNames st) (getCSSPropertyValue h el prop) = Missing ->
    Unresolved h validatedForPositioning st targetEl anchorObj
| no_target :
    targetEl = None ->
    truthy (anchorName anchorObj) = false ->
    Unresolved h validatedForPositioning st targetEl anchorObj
| no_match (name : string) (selectors : list string) :
    effectiveName h targetEl anchorObj = Some name ->
    name <> "" ->
    anchorNames st !! name = Some selectors ->
    validatedForPositioning targetEl (Selectors selectors) = None ->
    Unresolved h validatedForPositioning st targetEl anchorObj.

Lemma eqb_empty_false (s : string) : s <> "" -> String.eqb s "" = false.
Proof. intros Hs. apply String.eqb_neq, Hs. Qed.

Lemma not_truthy (s : option string) :
  truthy s = false -> s = None \/ s = Some "".
Proof.
  destruct s as [s|]; [|auto]. cbn. rewrite negb_false_iff, String.eqb_eq.
  intros ->. auto.
Qed.

(** The binder looks up the effective name. *)
Lemma getAnchorEl_effectiveName (h : Host)
    (validatedForPositioning : option Element -> Candidates -> option Element)
    (st : Store) (target : option Element) (anchorObj : AnchorFunction) :
  getAnchorEl h validatedForPositioning st target anchorObj
  = validatedForPositioning target
      (candidatesFor st (effectiveName h target anchorObj)).
Proof.
  unfold getAnchorEl, effectiveName.
  destruct target as [el|], (customPropName anchorObj) as [prop|];
    destruct (truthy (anchorName anchorObj)); reflexivity.
Qed.



End Binder.

(** ** The fallback selector *)

Section FallbackSelector.
Import Polyfill.

Variable fallbacks : list TryBlock.
Variable order : string.

(** At most one run of the callback is suspended, and only while the
    [checking] flag is set. *)
Definition oneRun (s : TargetState) : Prop :=
  pending s = [] \/ (checking s = true /\ exists p, pending s = [p]).

Lemma oneRun_finish (s : TargetState) (c : bool) (a : option string) (p : Pending) :
  pending s = [p] -> oneRun (finish 0 c a s).
Proof. intros Hp. left. cbn. rewrite Hp. reflexivity. Qed.

Lemma oneRun_tryAt (blocks : list TryBlock) (s : TargetState) (index : nat) (p : Pending) :
  checking s = true -> pending s = [p] -> oneRun (tryAt blocks 0 index s).
Proof.
  intros Hc Hp. unfold tryAt.
  destruct (blocks !! index); [|eapply oneRun_finish, Hp].
  right. cbn. rewrite Hp. eauto.
Qed.

Lemma oneRun_step (blocks : list TryBlock) (order' : string) (e : Event)
    (s : TargetState) :
  oneRun s -> oneRun (step blocks order' e s).
Proof.
  intros [Hnil|[Hc [p Hp]]].
  - destruct e as [|run result|run results]; cbn; rewrite ?Hnil; cbn.
    + destruct (checking s); [left; exact Hnil|].
      right. cbn. eauto.
    + left. exact Hnil.
    + left. exact Hnil.
  - assert (Hs : oneRun s) by (right; eauto).
    destruct e as [|run result|run results]; cbn.
    + rewrite Hc. exact Hs.
    + rewrite Hp. destruct run as [|run]; [|exact Hs]. cbn.
      destruct p as [|index|]; [| |exact Hs].
      * destruct (noneOverflows result); [eapply oneRun_finish, Hp|].
        destruct (String.eqb order' "normal"); [eapply oneRun_tryAt; eauto|].
        right. cbn. eauto.
      * destruct (noneOverflows result); [eapply oneRun_finish, Hp|].
        destruct (Nat.eqb index (length blocks - 1));
          [eapply oneRun_finish, Hp|eapply oneRun_tryAt; eauto].
    + rewrite Hp. destruct run as [|run]; [|exact Hs]. cbn.
      destruct p as [|index|]; [exact Hs|exact Hs|].
      destruct (sort _ _); eapply oneRun_finish, Hp.
Qed.

(** *** The callbacks of a page *)

Variable querySelectorAll : string -> list Element.

(** The closure of a callback, with the attribute [a] of its target. *)
Definition stateOf (a : option string) (c : Callback) : TargetState :=
  {| checking := callbackChecking c; attribute := a;
     pending := callbackPending c; checks := callbackChecks c |}.

Definition oneRunEach (page : Page) : Prop :=
  Forall (fun c => oneRun (stateOf None c)) (callbacks page).

Lemma oneRun_attribute (a b : option string) (s : TargetState) :
  oneRun {| checking := checking s; attribute := a; pending := pending s;
            checks := checks s |} ->
  oneRun {| checking := checking s; attribute := b; pending := pending s;
            checks := checks s |}.
Proof. intros H. exact H. Qed.

Lemma oneRunEach_notify (index : nat) (e : Event) (page : Page) :
  oneRunEach page -> oneRunEach (notify index e page).
Proof.
  intros Hpage. unfold notify.
  destruct (callbacks page !! index) as [c|] eqn:Hc; [|exact Hpage].
  unfold oneRunEach. cbn [callbacks].
  apply Forall_insert; [exact Hpage|].
  pose proof (proj1 (Forall_lookup _ _) Hpage _ _ Hc) as Hone.
  apply (oneRun_step (callbackFallbacks c) (callbackOrder c) e) in Hone.
  unfold stateOf, oneRun in *. cbn [checking pending] in *.
  match goal with
  | |- context [step ?f ?o e ?s] =>
      assert (Hsame : checking (step f o e s)
                      = checking (step f o e (stateOf None c))
                      /\ pending (step f o e s) = pending (step f o e (stateOf None c)))
  end.
  { unfold stateOf. destruct e as [|run result|run results]; cbn.
    - destruct (callbackChecking c); auto.
    - destruct (callbackPending c !! run) as [[|i|]|]; cbn; auto.
      + destruct (noneOverflows result); cbn; auto.
        destruct (String.eqb (callbackOrder c) "normal"); cbn; auto.
        unfold tryAt. destruct (callbackFallbacks c !! 0); cbn; auto.
      + destruct (noneOverflows result); cbn; auto.
        destruct (Nat.eqb i (length (callbackFallbacks c) - 1)); cbn; auto.
        unfold tryAt. destruct (callbackFallbacks c !! S i); cbn; auto.
    - destruct (callbackPending c !! run) as [[|i|]|]; cbn; auto.
      destruct (sort _ _); cbn; auto. }
  destruct Hsame as [-> ->]. exact Hone.
Qed.

Lemma oneRunEach_notifyAll (events : list (nat * Event)) (page : Page) :
  oneRunEach page -> oneRunEach (notifyAll events page).
Proof.
  revert page. induction events as [|[index e] events IH]; intros page Hpage;
    [exact Hpage|].
  apply IH, oneRunEach_notify, Hpage.
Qed.

Lemma oneRunEach_position (rules : list (string * Position.t))
    (attrs : gmap Element string) :
  oneRunEach {| attributes := attrs; callbacks := position querySelectorAll rules |}.
Proof.
  unfold oneRunEach, position. cbn [callbacks]. apply Forall_forall.
  intros c Hc. apply list_elem_of_In, in_flat_map in Hc as ([targetSel pos] & _ & Hc).
  unfold applyPositionFallbacks in Hc.
  destruct (Nat.eqb _ 0); [destruct Hc|].
  apply in_map_iff in Hc as (target & <- & _). left. reflexivity.
Qed.

Lemma notifyAll_app (events1 events2 : list (nat * Event)) (page : Page) :
  notifyAll (events1 ++ events2) page = notifyAll events2 (notifyAll events1 page).
Proof. apply fold_left_app. Qed.

(** A layout change that reaches a callback whose flag is set changes
    nothing on the page. *)
Lemma notify_busy (index : nat) (page : Page) (c : Callback) :
  callbacks page !! index = Some c -> callbackChecking c = true ->
  notify index LayoutChange page = page.
Proof.
  intros Hc Hbusy. unfold notify. rewrite Hc. cbn [step checking]. rewrite Hbusy.
  cbn [attribute checking pending checks].
  destruct page as [attrs cbs]. cbn [attributes callbacks] in *. f_equal.
  - destruct (attrs !! callbackTarget c) as [value|] eqn:Ha.
    + apply insert_id, Ha.
    + apply delete_id, Ha.
  - rewrite <- Hbusy. destruct c. apply list_insert_id, Hc.
Qed.

(** C9, amended: the flag belongs to a callback, and [position] installs
    one callback for each rule with try blocks and each element its selector
    matches. Whatever events reach the callbacks of a page, a callback has
    at most one run in flight, and only while its [checking] flag is set;
    and a layout change that reaches a callback whose flag is set is
    dropped: the page stays as it is, and everything afterwards is as if
    the notification had not arrived. *)
Theorem busy_callback_drops_layout_change (rules : list (string * Position.t))
    (attrs : gmap Element string) (events : list (nat * Event)) (index : nat)
    (c : Callback) :
  let installed := {| attributes := attrs; callbacks := position querySelectorAll rules |} in
  callbacks (notifyAll events installed) !! index = Some c ->
  length (callbackPending c) <= 1
  /\ (callbackPending c <> [] -> callbackChecking c = true)
  /\ (callbackChecking c = true ->
      notify index LayoutChange (notifyAll events installed) = notifyAll events installed
      /\ forall later,
           notifyAll (events ++ (index, LayoutChange) :: later) installed
           = notifyAll (events ++ later) installed).
Proof.
  cbv zeta. intros Hc.
  pose proof (oneRunEach_notifyAll events _ (oneRunEach_position rules attrs)) as Hall.
  pose proof (proj1 (Forall_lookup _ _) Hall _ _ Hc) as Hone.
  assert (Hdrop : callbackChecking c = true ->
            notify index LayoutChange
              (notifyAll events
                 {| attributes := attrs; callbacks := position querySelectorAll rules |})
            = notifyAll events
                {| attributes := attrs; callbacks := position querySelectorAll rules |}).
  { intros Hbusy. eapply notify_busy; eassumption. }
  destruct Hone as [Hnil|[Hbusy [p Hp]]]; cbn [stateOf pending checking] in *.
  - rewrite Hnil. split; [cbn; lia|]. split; [congruence|].
    intros Hbusy. split; [apply Hdrop, Hbusy|].
    intros later. rewrite !notifyAll_app. cbn [notifyAll fold_left].
    rewrite (Hdrop Hbusy). reflexivity.
  - rewrite Hp. split; [cbn; lia|]. split; [auto|].
    intros _. split; [apply Hdrop, Hbusy|].
    intros later. rewrite !notifyAll_app. cbn [notifyAll fold_left].
    rewrite (Hdrop Hbusy). reflexivity.
Qed.

Lemma run_cons (order' : string) (e : Event) (events : list Event) (s : TargetState) :
  run fallbacks order' (e :: events) s
  = run fallbacks order' events (step fallbacks order' e s).
Proof. reflexivity. Qed.

Lemma step_layout_change (order' : string) (s : TargetState) :
  checking s = false ->
  step fallbacks order' LayoutChange s
  = {| checking := true; attribute := None; pending := pending s ++ [AwaitDefault];
       checks := checks s ++ [None] |}.
Proof. intros Hc. cbn. rewrite Hc. reflexivity. Qed.

Lemma step_default_overflows (o : SideObject.t) (first : TryBlock) (c : bool)
    (a : option string) (cs : list (option string)) :
  noneOverflows o = false ->
  fallbacks !! 0 = Some first ->
  step fallbacks "normal" (Overflow 0 o)
    {| checking := c; attribute := a; pending := [AwaitDefault]; checks := cs |}
  = {| checking := c; attribute := Some (uuid first); pending := [AwaitTry 0];
       checks := cs ++ [Some (uuid first)] |}.
Proof.
  intros Ho Hfirst. cbn. rewrite Ho. cbn.
  unfold tryAt. rewrite Hfirst. reflexivity.
Qed.

Lemma step_try_fits (o : SideObject.t) (index : nat) (c : bool)
    (a : option string) (cs : list (option string)) :
  noneOverflows o = true ->
  step fallbacks "normal" (Overflow 0 o)
    {| checking := c; attribute := a; pending := [AwaitTry index]; checks := cs |}
  = {| checking := false; attribute := a; pending := []; checks := cs |}.
Proof. intros Ho. cbn. rewrite Ho. reflexivity. Qed.

Lemma step_try_last (o : SideObject.t) (index : nat) (c : bool)
    (a : option string) (cs : list (option string)) :
  noneOverflows o = false ->
  index = length fallbacks - 1 ->
  step fallbacks "normal" (Overflow 0 o)
    {| checking := c; attribute := a; pending := [AwaitTry index]; checks := cs |}
  = {| checking := false; attribute := None; pending := []; checks := cs |}.
Proof. intros Ho ->. cbn. rewrite Ho, Nat.eqb_refl. reflexivity. Qed.

Lemma step_try_next (o : SideObject.t) (index : nat) (next : TryBlock) (c : bool)
    (a : option string) (cs : list (option string)) :
  noneOverflows o = false ->
  index <> length fallbacks - 1 ->
  fallbacks !! S index = Some next ->
  step fallbacks "normal" (Overflow 0 o)
    {| checking := c; attribute := a; pending := [AwaitTry index]; checks := cs |}
  = {| checking := c; attribute := Some (uuid next); pending := [AwaitTry (S index)];
       checks := cs ++ [Some (uuid next)] |}.
Proof.
  intros Ho Hindex Hnext. cbn. rewrite Ho.
  apply Nat.eqb_neq in Hindex. rewrite Hindex.
  unfold tryAt. rewrite Hnext. reflexivity.
Qed.

(** The [normal] loop from block [index] on, when a later block fits. *)
Lemma normal_loop_fit (tried : list SideObject.t) (fit : SideObject.t)
    (index : nat) (block : TryBlock) (c : bool) (a : option string)
    (cs : list (option string)) :
  Forall (fun o => noneOverflows o = false) tried ->
  noneOverflows fit = true ->
  fallbacks !! (index + length tried) = Some block ->
  run fallbacks "normal" (map (Overflow 0) (tried ++ [fit]))
    {| checking := c; attribute := a; pending := [AwaitTry index]; checks := cs |}
  = {| checking := false;
       attribute := match tried with [] => a | _ => Some (uuid block) end;
       pending := [];
       checks := cs ++ map (fun b => Some (uuid b))
                         (take (length tried) (drop (S index) fallbacks)) |}.
Proof.
  revert index c a cs.
  induction tried as [|o tried IH]; intros index c a cs Htried Hfit Hblock.
  - cbn [app map]. rewrite run_cons, step_try_fits by exact Hfit.
    cbn. rewrite app_nil_r. reflexivity.
  - apply Forall_cons in Htried as [Ho Htried].
    cbn [length] in Hblock.
    assert (Hlt : index + S (length tried) < length fallbacks)
      by (eapply lookup_lt_Some, Hblock).
    destruct (lookup_lt_is_Some_2 fallbacks (S index) ltac:(lia)) as [next Hnext].
    cbn [app map]. rewrite run_cons.
    rewrite (step_try_next o index next) by (first [exact Ho|lia|exact Hnext]).
    rewrite IH; [|exact Htried|exact Hfit|].
    + f_equal.
      * destruct tried; [|reflexivity].
        cbn in Hblock. replace (index + 1) with (S index) in Hblock by lia. congruence.
      * rewrite <- app_assoc. f_equal. cbn [length take].
        rewrite (drop_S _ _ _ Hnext). reflexivity.
    + rewrite <- Hblock. f_equal. lia.
Qed.

(** The [normal] loop from block [index] on, when no block fits. *)
Lemma normal_loop_none (tried : list SideObject.t) (index : nat) (c : bool)
    (a : option string) (cs : list (option string)) :
  Forall (fun o => noneOverflows o = false) tried ->
  tried <> [] ->
  index + length tried = length fallbacks ->
  run fallbacks "normal" (map (Overflow 0) tried)
    {| checking := c; attribute := a; pending := [AwaitTry index]; checks := cs |}
  = {| checking := false; attribute := None; pending := [];
       checks := cs ++ map (fun b => Some (uuid b)) (drop (S index) fallbacks) |}.
Proof.
  revert index c a cs.
  induction tried as [|o tried IH]; intros index c a cs Htried Hne Hlen; [congruence|].
  apply Forall_cons in Htried as [Ho Htried]. cbn [length] in Hlen.
  cbn [map]. rewrite run_cons.
  destruct tried as [|o' tried].
  - rewrite step_try_last by (first [exact Ho|cbn in Hlen; lia]).
    cbn. rewrite drop_ge by (cbn in Hlen; lia). rewrite app_nil_r. reflexivity.
  - cbn [length] in Hlen.
    destruct (lookup_lt_is_Some_2 fallbacks (S index) ltac:(lia)) as [next Hnext].
    rewrite (step_try_next o index next) by (first [exact Ho|lia|exact Hnext]).
    rewrite IH; [|exact Htried|discriminate|cbn [length]; lia].
    f_equal. rewrite <- app_assoc. f_equal.
    rewrite (drop_S _ _ _ Hnext). reflexivity.
Qed.

(** C5: under [normal], from a target at rest whose default box overflows,
    the blocks are applied and measured in source order. If block [k] is
    the first that leaves no edge overflowing, the attribute is that block's
    identifier, the run is over, and the blocks measured are exactly blocks
    [0] to [k]; if all the blocks overflow, the attribute is removed after
    the last one. *)
Theorem normal_order_first_fit (s : TargetState) (defaultOverflow : SideObject.t)
    (tried : list SideObject.t) :
  checking s = false ->
  pending s = [] ->
  noneOverflows defaultOverflow = false ->
  Forall (fun o => noneOverflows o = false) tried ->
  (forall fit block,
     noneOverflows fit = true ->
     fallbacks !! length tried = Some block ->
     run fallbacks "normal"
       (LayoutChange :: Overflow 0 defaultOverflow :: map (Overflow 0) (tried ++ [fit])) s
     = {| checking := false; attribute := Some (uuid block); pending := [];
          checks := checks s ++ None ::
                      map (fun b => Some (uuid b)) (take (S (length tried)) fallbacks) |})
  /\ (fallbacks <> [] ->
      length tried = length fallbacks ->
      run fallbacks "normal"
        (LayoutChange :: Overflow 0 defaultOverflow :: map (Overflow 0) tried) s
      = {| checking := false; attribute := None; pending := [];
           checks := checks s ++ None :: map (fun b => Some (uuid b)) fallbacks |}).
Proof.
  intros Hc Hp Hdefault Htried. split.
  - intros fit block Hfit Hblock.
    destruct (lookup_lt_is_Some_2 fallbacks 0) as [first Hfirst];
      [apply lookup_lt_Some in Hblock; lia|].
    rewrite !run_cons, step_layout_change, Hp by exact Hc. cbn [app].
    rewrite (step_default_overflows _ first) by assumption.
    rewrite (normal_loop_fit tried fit 0 block); [|exact Htried|exact Hfit|exact Hblock].
    f_equal.
    + destruct tried; [|reflexivity]. cbn in Hblock. congruence.
    + rewrite <- !app_assoc. f_equal. cbn [app]. f_equal.
      destruct fallbacks as [|b0 rest]; [discriminate|].
      cbn in Hfirst. injection Hfirst as ->. reflexivity.
  - intros Hne Hlen.
    destruct fallbacks as [|first rest] eqn:Hfb; [congruence|]. rewrite <- Hfb in *.
    assert (Hfirst : fallbacks !! 0 = Some first) by (rewrite Hfb; reflexivity).
    rewrite !run_cons, step_layout_change, Hp by exact Hc. cbn [app].
    rewrite (step_default_overflows _ first) by assumption.
    rewrite (normal_loop_none tried 0); [|exact Htried| |rewrite Hlen; reflexivity].
    + f_equal. rewrite <- !app_assoc. f_equal. cbn [app]. f_equal.
      rewrite Hfb. reflexivity.
    + intros ->. rewrite Hfb in Hlen. discriminate.
Qed.

End FallbackSelector.

Section NumberOrder.
Import SpecFloat.
Local Open Scope Z_scope.

(** *** The order of the non-NaN values *)

(** A key whose lexicographic order is the order of the values. *)
Definition orderKey (s : spec_float) : Z * Z * Z :=
  match s with
  | S754_zero _ => (0, 0, 0)
  | S754_infinity false => (2, 0, 0)
  | S754_infinity true => (-2, 0, 0)
  | S754_nan => (0, 0, 0)
  | S754_finite false m e => (1, e, Z.pos m)
  | S754_finite true m e => (-1, - e, Z.neg m)
  end.

Definition keyLt (a b : Z * Z * Z) : Prop :=
  a.1.1 < b.1.1
  \/ (a.1.1 = b.1.1 /\ (a.1.2 < b.1.2 \/ (a.1.2 = b.1.2 /\ a.2 < b.2))).

Lemma SFltb_key (x y : spec_float) :
  x <> S754_nan -> y <> S754_nan ->
  SFltb x y = true <-> keyLt (orderKey x) (orderKey y).
Proof.
  intros Hx Hy. unfold SFltb, keyLt.
  destruct x as [sx|[]| |[] mx ex], y as [sy|[]| |[] my ey];
    try congruence; cbn;
    try (split; [discriminate|lia]);
    try (split; [lia|reflexivity]).
  - change (PosDef.Pos.compare_cont Eq mx my) with (Pos.compare mx my).
    destruct (Z.compare_spec ex ey), (Pos.compare_spec mx my); cbn;
      split; try discriminate; try reflexivity; lia.
  - change (PosDef.Pos.compare_cont Eq mx my) with (Pos.compare mx my).
    destruct (Z.compare_spec ex ey), (Pos.compare_spec mx my); cbn;
      split; try discriminate; try reflexivity; lia.
Qed.

Lemma not_nan_spec (v : number) :
  PrimFloat.is_nan v = false <-> Prim2SF v <> S754_nan.
Proof.
  unfold PrimFloat.is_nan. rewrite negb_false_iff, FloatAxioms.eqb_spec. unfold SFeqb.
  destruct (Prim2SF v) as [s|[]| |[] m e]; cbn;
    rewrite ?Z.compare_refl, ?Pos.compare_cont_refl; cbn;
    split; congruence.
Qed.

Lemma ltb_key (a b : number) :
  PrimFloat.is_nan a = false -> PrimFloat.is_nan b = false ->
  PrimFloat.ltb a b = true <-> keyLt (orderKey (Prim2SF a)) (orderKey (Prim2SF b)).
Proof.
  intros Ha Hb. rewrite FloatAxioms.ltb_spec.
  apply SFltb_key; apply not_nan_spec; assumption.
Qed.

Lemma ltb_irrefl (a : number) : PrimFloat.ltb a a = false.
Proof.
  rewrite FloatAxioms.ltb_spec. unfold SFltb.
  destruct (Prim2SF a) as [s|[]| |[] m e]; cbn;
    rewrite ?Z.compare_refl, ?Pos.compare_cont_refl; reflexivity.
Qed.

Lemma ltb_asym (a b : number) :
  PrimFloat.is_nan a = false -> PrimFloat.is_nan b = false ->
  PrimFloat.ltb a b = true -> PrimFloat.ltb b a = false.
Proof.
  intros Ha Hb Hab. apply not_true_is_false. intros Hba.
  apply (ltb_key a b Ha Hb) in Hab. apply (ltb_key b a Hb Ha) in Hba.
  unfold keyLt in *. lia.
Qed.

Lemma ltb_negtrans (a b c : number) :
  PrimFloat.is_nan a = false -> PrimFloat.is_nan b = false ->
  PrimFloat.is_nan c = false ->
  PrimFloat.ltb a b = false -> PrimFloat.ltb b c = false ->
  PrimFloat.ltb a c = false.
Proof.
  intros Ha Hb Hc Hab Hbc. apply not_true_is_false. intros Hac.
  apply (ltb_key a c Ha Hc) in Hac.
  apply not_true_iff_false in Hab, Hbc.
  rewrite (ltb_key a b Ha Hb) in Hab. rewrite (ltb_key b c Hb Hc) in Hbc.
  unfold keyLt in *. lia.
Qed.

(** *** The sign of a difference *)

Lemma digits2_pos_bounds (m : positive) :
  2 ^ (Z.pos (digits2_pos m) - 1) <= Z.pos m < 2 ^ Z.pos (digits2_pos m).
Proof.
  induction m as [m IH|m IH|]; cbn [digits2_pos]; [| |cbn; lia].
  - rewrite Pos2Z.inj_succ.
    replace (Z.succ (Z.pos (digits2_pos m)) - 1) with (Z.succ (Z.pos (digits2_pos m) - 1))
      by lia.
    rewrite !Z.pow_succ_r by lia. lia.
  - rewrite Pos2Z.inj_succ.
    replace (Z.succ (Z.pos (digits2_pos m)) - 1) with (Z.succ (Z.pos (digits2_pos m) - 1))
      by lia.
    rewrite !Z.pow_succ_r by lia. lia.
Qed.

Lemma bounded_canonical (m : positive) (e : Z) :
  bounded prec emax m e = true ->
  -1074 <= e /\ Z.pos (digits2_pos m) <= 53
  /\ (e = -1074 \/ Z.pos (digits2_pos m) = 53).
Proof.
  unfold bounded, canonical_mantissa, fexp, emin, prec, emax.
  intros H. apply andb_prop in H as [H _]. apply Z.eqb_eq in H. lia.
Qed.

Lemma iter_xO_value (m d : positive) :
  Z.pos (Pos.iter xO m d) = Z.pos m * 2 ^ Z.pos d.
Proof.
  induction d as [|d IH] using Pos.peano_ind.
  - cbn. lia.
  - rewrite Pos.iter_succ, Pos2Z.inj_succ, Z.pow_succ_r by lia.
    rewrite Pos2Z.inj_xO, IH. lia.
Qed.

Lemma shl_align_value (m : positive) (e e' : Z) :
  e' <= e -> Z.pos (shl_align m e e').1 = Z.pos m * 2 ^ (e - e').
Proof.
  intros He. unfold shl_align.
  destruct (e' - e) as [|d|d] eqn:Hd; cbn [fst].
  - replace (e - e') with 0 by lia. cbn. lia.
  - lia.
  - rewrite iter_xO_value. replace (e - e') with (Z.pos d) by lia. reflexivity.
Qed.

(** Two canonical mantissas, brought to the smaller exponent, compare as
    exponent and mantissa do. *)
Lemma aligned_lt (m1 m2 : positive) (e1 e2 : Z) :
  bounded prec emax m1 e1 = true -> bounded prec emax m2 e2 = true ->
  Z.pos m1 * 2 ^ (e1 - Z.min e1 e2) < Z.pos m2 * 2 ^ (e2 - Z.min e1 e2)
  <-> e1 < e2 \/ (e1 = e2 /\ Z.pos m1 < Z.pos m2).
Proof.
  intros H1 H2.
  apply bounded_canonical in H1 as (Hmin1 & Hd1 & Hc1).
  apply bounded_canonical in H2 as (Hmin2 & Hd2 & Hc2).
  pose proof (digits2_pos_bounds m1) as [Hl1 Hu1].
  pose proof (digits2_pos_bounds m2) as [Hl2 Hu2].
  assert (Hp1 : 2 ^ Z.pos (digits2_pos m1) <= 2 ^ 53)
    by (apply Z.pow_le_mono_r; lia).
  assert (Hp2 : 2 ^ Z.pos (digits2_pos m2) <= 2 ^ 53)
    by (apply Z.pow_le_mono_r; lia).
  destruct (Z.lt_trichotomy e1 e2) as [Hlt|[Heq|Hgt]].
  - rewrite Z.min_l, Z.sub_diag, Z.pow_0_r, Z.mul_1_r by lia.
    assert (Hd : Z.pos (digits2_pos m2) = 53) by lia. rewrite Hd in Hl2.
    assert (2 ^ 1 <= 2 ^ (e2 - e1)) by (apply Z.pow_le_mono_r; lia).
    change (2 ^ (53 - 1)) with 4503599627370496 in Hl2.
    change (2 ^ 53) with 9007199254740992 in Hp1. change (2 ^ 1) with 2 in H.
    split; [lia|]. intros _. nia.
  - subst e2. rewrite Z.min_id, Z.sub_diag, Z.pow_0_r. lia.
  - rewrite Z.min_r, Z.sub_diag, Z.pow_0_r, Z.mul_1_r by lia.
    assert (Hd : Z.pos (digits2_pos m1) = 53) by lia. rewrite Hd in Hl1.
    assert (2 ^ 1 <= 2 ^ (e1 - e2)) by (apply Z.pow_le_mono_r; lia).
    change (2 ^ (53 - 1)) with 4503599627370496 in Hl1.
    change (2 ^ 53) with 9007199254740992 in Hp2. change (2 ^ 1) with 2 in H.
    split; [nia|lia].
Qed.

Lemma shr_1_m (mrs : shr_record) :
  0 <= shr_m mrs -> shr_m (shr_1 mrs) = shr_m mrs / 2.
Proof.
  destruct mrs as [[|[p|p|]|p] r s]; cbn [shr_1 shr_m]; intros H; try lia;
    first [apply Z.div_unique with 0; lia|apply Z.div_unique with 1; lia].
Qed.

Lemma shr_iter_positive (k : nat) (mrs : shr_record) :
  2 ^ Z.of_nat k <= shr_m mrs -> 0 < shr_m (Nat.iter k shr_1 mrs).
Proof.
  revert mrs. induction k as [|k IH]; intros mrs H; [cbn in *; lia|].
  rewrite (Nat.iter_succ_r k shr_1). apply IH.
  rewrite Nat2Z.inj_succ, Z.pow_succ_r in H by lia.
  rewrite shr_1_m by lia.
  apply Z.div_le_lower_bound; lia.
Qed.

Lemma shr_record_of_loc_m (m : Z) (l : location) :
  shr_m (shr_record_of_loc m l) = m.
Proof. destruct l as [|[]]; reflexivity. Qed.

Lemma shr_fexp_positive (m : positive) (e : Z) (l : location) :
  -1074 <= e ->
  0 < shr_m (shr_fexp prec emax (Z.pos m) e l).1
  /\ -1074 <= (shr_fexp prec emax (Z.pos m) e l).2.
Proof.
  intros He. unfold shr_fexp, shr. cbn [Zdigits2].
  pose proof (digits2_pos_bounds m) as [Hl Hu].
  destruct (fexp prec emax (Z.pos (digits2_pos m) + e) - e) as [|n|n] eqn:Hn;
    cbn [fst snd]; rewrite ?shr_record_of_loc_m; try lia.
  unfold fexp, emin, prec, emax in Hn.
  split; [|lia].
  rewrite iter_pos_nat. apply shr_iter_positive.
  rewrite shr_record_of_loc_m, positive_nat_Z.
  transitivity (2 ^ (Z.pos (digits2_pos m) - 1)); [|exact Hl].
  apply Z.pow_le_mono_r; lia.
Qed.

Inductive SignedNonZero (sx : bool) : spec_float -> Prop :=
| signed_finite (m : positive) (e : Z) : SignedNonZero sx (S754_finite sx m e)
| signed_infinity : SignedNonZero sx (S754_infinity sx).

Lemma binary_round_aux_sign (sx : bool) (m : positive) (e : Z) (l : location) :
  -1074 <= e -> SignedNonZero sx (binary_round_aux prec emax sx (Z.pos m) e l).
Proof.
  intros He. unfold binary_round_aux.
  pose proof (shr_fexp_positive m e l He) as [Hm1 He1].
  destruct (shr_fexp prec emax (Z.pos m) e l) as [mrs' e'] eqn:H1. cbn [fst snd] in *.
  assert (Hr : 0 < round_nearest_even (shr_m mrs') (loc_of_shr_record mrs')).
  { unfold round_nearest_even.
    destruct (loc_of_shr_record mrs') as [|[]]; try lia.
    destruct (Z.even (shr_m mrs')); lia. }
  destruct (round_nearest_even (shr_m mrs') (loc_of_shr_record mrs')) as [|m2|m2];
    try lia.
  pose proof (shr_fexp_positive m2 e' loc_Exact He1) as [Hm3 _].
  destruct (shr_fexp prec emax (Z.pos m2) e' loc_Exact) as [mrs'' e''].
  cbn [fst] in Hm3.
  destruct (shr_m mrs'') as [|m3|m3]; try lia.
  destruct (e'' <=? emax - prec); constructor.
Qed.

Lemma binary_round_sign (sx : bool) (m : positive) (e : Z) :
  -1074 <= e -> SignedNonZero sx (binary_round prec emax sx m e).
Proof.
  intros He. unfold binary_round.
  destruct (shl_align m e (fexp prec emax (Z.pos (digits2_pos m) + e))) as [mz ez] eqn:Hs.
  apply binary_round_aux_sign.
  unfold shl_align in Hs.
  destruct (fexp prec emax (Z.pos (digits2_pos m) + e) - e) eqn:Hd;
    injection Hs as <- <-; try lia.
  unfold fexp, emin, prec, emax. lia.
Qed.

Lemma SFltb_zero_normalize (d e : Z) :
  -1074 <= e ->
  SFltb (S754_zero false) (binary_normalize prec emax d e false) = (0 <? d).
Proof.
  intros He. unfold binary_normalize.
  destruct d as [|d|d]; [reflexivity| |].
  - destruct (binary_round_sign false d e He); reflexivity.
  - destruct (binary_round_sign true d e He); reflexivity.
Qed.

Lemma SFsub_sign (a b : spec_float) :
  valid_binary prec emax a = true -> valid_binary prec emax b = true ->
  a <> S754_nan -> b <> S754_nan ->
  SFltb (S754_zero false) (SF64sub b a) = SFltb a b.
Proof.
  intros Va Vb Ha Hb.
  destruct a as [sa|sa| |sa ma ea], b as [sb|sb| |sb mb eb]; try congruence;
    try (destruct sa, sb; reflexivity); try (destruct sa; reflexivity);
    try (destruct sb; reflexivity).
  cbn [valid_binary] in Va, Vb.
  unfold SF64sub, SFsub. cbv zeta.
  pose proof (bounded_canonical _ _ Va) as (Hea & _).
  pose proof (bounded_canonical _ _ Vb) as (Heb & _).
  rewrite SFltb_zero_normalize by lia.
  rewrite !shl_align_value by lia.
  pose proof (aligned_lt ma mb ea eb Va Vb) as Hab.
  pose proof (aligned_lt mb ma eb ea Vb Va) as Hba.
  rewrite (Z.min_comm eb ea) in *.
  assert (0 < Z.pos ma * 2 ^ (ea - Z.min ea eb))
    by (apply Z.mul_pos_pos; [lia|apply Z.pow_pos_nonneg; lia]).
  assert (0 < Z.pos mb * 2 ^ (eb - Z.min ea eb))
    by (apply Z.mul_pos_pos; [lia|apply Z.pow_pos_nonneg; lia]).
  unfold SFltb, SFcompare.
  change (PosDef.Pos.compare_cont Eq ma mb) with (Pos.compare ma mb).
  destruct sa, sb; cbn [cond_Zopp];
    destruct (Z.compare_spec ea eb), (Pos.compare_spec ma mb); cbn;
    first [apply Z.ltb_lt|apply Z.ltb_ge]; lia.
Qed.

(** For two numbers that are not [NaN], [b - a] is above zero exactly when
    [a] is below [b]. *)
Lemma sub_sign (a b : number) :
  PrimFloat.is_nan a = false -> PrimFloat.is_nan b = false ->
  PrimFloat.ltb 0 (b - a) = PrimFloat.ltb a b.
Proof.
  intros Ha Hb. rewrite !FloatAxioms.ltb_spec, sub_spec.
  change (Prim2SF 0) with (S754_zero false).
  apply SFsub_sign; try apply Prim2SF_valid; apply not_nan_spec; assumption.
Qed.

End NumberOrder.

(** ** The strategies that look for the most room *)

Section MostRoom.
Import Polyfill.

Context {A : Type} (size : A -> number).

(** The comparator of [visibleArea.sort]: [b]'s size minus [a]'s. *)
Definition bySizeDescending (a b : A) : number := (size b - size a)%float.

Lemma sort_head_cons (a : A) (l : list A) :
  head (sort bySizeDescending (a :: l))
  = match head (sort bySizeDescending l) with
    | Some c => if PrimFloat.ltb 0 (bySizeDescending a c) then Some c else Some a
    | None => Some a
    end.
Proof.
  cbn [sort foldr]. fold (sort bySizeDescending l).
  destruct (sort bySizeDescending l) as [|c rest]; [reflexivity|].
  cbn [sortInsert head]. destruct (PrimFloat.ltb 0 (bySizeDescending a c)); reflexivity.
Qed.

(** The first element of the sorted list is the first of the largest. *)
Lemma sort_head_largest (l : list A) :
  l <> [] ->
  Forall (fun a => PrimFloat.is_nan (size a) = false) l ->
  exists i w,
    l !! i = Some w
    /\ head (sort bySizeDescending l) = Some w
    /\ (forall j a, l !! j = Some a -> PrimFloat.ltb (size w) (size a) = false)
    /\ (forall j a, (j < i)%nat -> l !! j = Some a ->
                    PrimFloat.ltb (size a) (size w) = true).
Proof.
  induction l as [|a l IH]; [congruence|]. intros _ Hnan.
  apply Forall_cons in Hnan as [Ha Hnan].
  rewrite sort_head_cons.
  destruct l as [|b l].
  - exists 0%nat, a. cbn. split; [reflexivity|]. split; [reflexivity|]. split.
    + intros [|j] x Hx; [|discriminate]. injection Hx as <-. apply ltb_irrefl.
    + intros j x Hj. lia.
  - destruct (IH ltac:(discriminate) Hnan) as (i & w & Hi & Hhead & Hmax & Hfirst).
    rewrite Hhead. unfold bySizeDescending at 1.
    assert (Hw : PrimFloat.is_nan (size w) = false).
    { eapply (proj1 (Forall_lookup _ _) Hnan), Hi. }
    rewrite (sub_sign _ _ Ha Hw).
    destruct (PrimFloat.ltb (size a) (size w)) eqn:Haw.
    + exists (S i), w. split; [exact Hi|]. split; [reflexivity|]. split.
      * intros [|j] x Hx.
        -- injection Hx as <-. apply ltb_asym; assumption.
        -- eapply Hmax, Hx.
      * intros [|j] x Hj Hx.
        -- injection Hx as <-. exact Haw.
        -- eapply (Hfirst j); [lia|exact Hx].
    + exists 0%nat, a. split; [reflexivity|]. split; [reflexivity|]. split.
      * intros [|j] x Hx.
        -- injection Hx as <-. apply ltb_irrefl.
        -- apply (ltb_negtrans _ (size w)); try assumption.
           ++ eapply (proj1 (Forall_lookup _ _) Hnan), Hx.
           ++ eapply Hmax, Hx.
      * intros j x Hj. lia.
Qed.

End MostRoom.

Section MostRoomSelector.
Import Polyfill.

Variable fallbacks : list TryBlock.
Variable order : string.

Lemma step_default_overflows_most (o : SideObject.t) (c : bool)
    (a : option string) (cs : list (option string)) :
  String.eqb order "normal" = false ->
  noneOverflows o = false ->
  fallbacks <> [] ->
  step fallbacks order (Overflow 0 o)
    {| checking := c; attribute := a; pending := [AwaitDefault]; checks := cs |}
  = {| checking := c; attribute := Some (uuid (default {| uuid := "" |} (last fallbacks)));
       pending := [AwaitAll];
       checks := cs ++ map (fun b => Some (uuid b)) fallbacks |}.
Proof.
  intros Horder Ho Hne. cbn. rewrite Ho, Horder.
  destruct (last fallbacks) eqn:Hlast; [reflexivity|].
  apply last_None in Hlast. congruence.
Qed.

(** The room a try block leaves the target along the axis an order names,
    written from the measurement alone: the target's client height less
    what overflows at the top and at the bottom for [most-height] and
    [most-block-size], and its client width less what overflows at the left
    and at the right for [most-width] and [most-inline-size]. *)
Definition roomAlong (order' : string) (m : Measurement) : number :=
  if (String.eqb order' "most-height" || String.eqb order' "most-block-size")%bool then
    (targetClientHeight m
     - Math_max 0 (SideObject.top (overflow m))
     - Math_max 0 (SideObject.bottom (overflow m)))%float
  else
    (targetClientWidth m
     - Math_max 0 (SideObject.left (overflow m))
     - Math_max 0 (SideObject.right (overflow m)))%float.

Lemma visibleBy_roomAlong (order' : string) (m : Measurement) :
  visibleBy (sorterOf order') (visible m) = roomAlong order' m.
Proof.
  unfold sorterOf, roomAlong. cbn [existsb]. rewrite orb_false_r.
  destruct (String.eqb order' "most-height" || String.eqb order' "most-block-size")%bool;
    reflexivity.
Qed.

(** C10: under any order but [normal], from a target at rest whose default
    box overflows, every block is applied and measured, and the run ends
    with the attribute set to the identifier of a try block: the first of
    the blocks with the most room along the axis the order names. It is
    never removed, whatever the blocks' own overflow. The room measured is
    taken not to be [NaN]. *)
Theorem most_room_picks_largest (s : TargetState) (defaultOverflow : SideObject.t)
    (results : list Measurement) :
  String.eqb order "normal" = false ->
  checking s = false ->
  pending s = [] ->
  noneOverflows defaultOverflow = false ->
  fallbacks <> [] ->
  length results = length fallbacks ->
  Forall (fun m => PrimFloat.is_nan (roomAlong order m) = false) results ->
  exists i block m,
    fallbacks !! i = Some block
    /\ results !! i = Some m
    /\ run fallbacks order
         [LayoutChange; Overflow 0 defaultOverflow; AllMeasured 0 results] s
       = {| checking := false; attribute := Some (uuid block); pending := [];
            checks := checks s ++ None :: map (fun b => Some (uuid b)) fallbacks |}
    /\ (forall j m', results !! j = Some m' ->
          PrimFloat.ltb (roomAlong order m) (roomAlong order m') = false)
    /\ (forall j m', j < i -> results !! j = Some m' ->
          PrimFloat.ltb (roomAlong order m') (roomAlong order m) = true).
Proof.
  intros Horder Hc Hp Hdefault Hne Hlen Hnan.
  set (visibleArea := zip_with (fun b m => (uuid b, visible m)) fallbacks results).
  set (size := fun a : string * Visible => visibleBy (sorterOf order) a.2).
  assert (Hzip : forall j b m', fallbacks !! j = Some b -> results !! j = Some m' ->
                   visibleArea !! j = Some (uuid b, visible m')).
  { intros j b m' Hb Hm. unfold visibleArea.
    rewrite lookup_zip_with, Hb. cbn. rewrite Hm. reflexivity. }
  destruct (sort_head_largest size visibleArea) as (i & w & Hi & Hhead & Hmax & Hfirst).
  - destruct fallbacks as [|b0 rest]; [congruence|].
    destruct results; [discriminate|]. discriminate.
  - apply Forall_lookup. intros j [u v] Hj. unfold visibleArea in Hj.
    apply lookup_zip_with_Some in Hj as (b & m' & Heq & _ & Hm).
    injection Heq as -> ->. unfold size. cbn [snd]. rewrite visibleBy_roomAlong.
    apply (proj1 (Forall_lookup _ _) Hnan _ _ Hm).
  - pose proof Hi as Hi'. unfold visibleArea in Hi'.
    apply lookup_zip_with_Some in Hi' as (block & m & -> & Hblock & Hm).
    exists i, block, m. split; [exact Hblock|]. split; [exact Hm|]. split; [|split].
    + rewrite !run_cons, step_layout_change, Hp by exact Hc. cbn [app].
      rewrite step_default_overflows_most by assumption.
      cbn [run fold_left step pending lookup list_lookup].
      fold visibleArea. change (sort _ visibleArea) with (sort (bySizeDescending size) visibleArea).
      destruct (sort (bySizeDescending size) visibleArea) as [|w rest];
        [discriminate|].
      injection Hhead as ->. cbn. rewrite <- app_assoc. reflexivity.
    + intros j m' Hm'.
      destruct (lookup_lt_is_Some_2 fallbacks j) as [b Hb];
        [rewrite <- Hlen; eapply lookup_lt_Some, Hm'|].
      rewrite <- !visibleBy_roomAlong.
      apply (Hmax j (uuid b, visible m')), Hzip; assumption.
    + intros j m' Hj Hm'.
      destruct (lookup_lt_is_Some_2 fallbacks j) as [b Hb];
        [rewrite <- Hlen; eapply lookup_lt_Some, Hm'|].
      rewrite <- !visibleBy_roomAlong.
      apply (Hfirst j (uuid b, visible m') Hj), Hzip; assumption.
Qed.

End MostRoomSelector.

(** *** The selector on a sample target *)

Definition sampleBlocks : list Polyfill.TryBlock :=
  [{| Polyfill.uuid := "try-0" |}; {| Polyfill.uuid := "try-1" |}].

Definition overflowing : Polyfill.SideObject.t :=
  {| Polyfill.SideObject.top := 5; Polyfill.SideObject.right := 0;
     Polyfill.SideObject.bottom := 0; Polyfill.SideObject.left := 0 |}.

Definition fitting : Polyfill.SideObject.t :=
  {| Polyfill.SideObject.top := (-3); Polyfill.SideObject.right := 0;
     Polyfill.SideObject.bottom := 0; Polyfill.SideObject.left := (-1) |}.

Definition sampleMeasurements : list Polyfill.Measurement :=
  [{| Polyfill.overflow := overflowing; Polyfill.targetClientHeight := 50;
      Polyfill.targetClientWidth := 80 |};
   {| Polyfill.overflow := overflowing; Polyfill.targetClientHeight := 70;
      Polyfill.targetClientWidth := 80 |}].

Section SelectorSamples.
Import Polyfill.

Lemma normal_order_first_fit_witness :
  run sampleBlocks "normal"
    [LayoutChange; Overflow 0 overflowing; Overflow 0 overflowing; Overflow 0 fitting] idle
  = {| checking := false; attribute := Some "try-1"; pending := [];
       checks := [None; Some "try-0"; Some "try-1"] |}.
Proof.
  refine (proj1 (normal_order_first_fit sampleBlocks idle overflowing [overflowing]
                   _ _ _ _) fitting {| uuid := "try-1" |} _ _);
    try reflexivity.
  repeat constructor.
Defined.

(** Two rules that match the same element. *)
Definition sampleRules : list (string * Polyfill.Position.t) :=
  [("#target", {| Polyfill.Position.fallbacks := Some sampleBlocks;
                  Polyfill.Position.order := None |});
   (".floating", {| Polyfill.Position.fallbacks := Some sampleBlocks;
                    Polyfill.Position.order := Some "most-height" |})].

Definition sampleQuerySelectorAll (selector : string) : list Element := [1].

Definition samplePage : Polyfill.Page :=
  {| Polyfill.attributes := ∅;
     Polyfill.callbacks := Polyfill.position sampleQuerySelectorAll sampleRules |}.

(** C9, as the specification states it, fails: an element matched by two
    rules has two callbacks, each with a flag of its own, and a layout
    change that reaches both starts two evaluations of the same target,
    both in flight at once. *)
Lemma one_target_two_evaluations_fails :
  let page :=
    Polyfill.notifyAll [(0, LayoutChange); (1, LayoutChange)] samplePage in
  (Polyfill.callbackTarget <$> Polyfill.callbacks page) = [1; 1]
  /\ (Polyfill.callbackChecking <$> Polyfill.callbacks page) = [true; true]
  /\ (Polyfill.callbackPending <$> Polyfill.callbacks page)
     = [[AwaitDefault]; [AwaitDefault]].
Proof. cbv zeta. repeat split; reflexivity. Qed.

Lemma busy_callback_drops_layout_change_witness :
  notifyAll ([(0, LayoutChange)] ++ [(0, LayoutChange); (0, Overflow 0 fitting)])
    samplePage
  = notifyAll ([(0, LayoutChange)] ++ [(0, Overflow 0 fitting)]) samplePage.
Proof.
  refine (proj2 (proj2 (proj2 (busy_callback_drops_layout_change sampleQuerySelectorAll
                                 sampleRules ∅ [(0, LayoutChange)] 0
                                 {| callbackTarget := 1; callbackFallbacks := sampleBlocks;
                                    callbackOrder := "normal"; callbackChecking := true;
                                    callbackPending := [AwaitDefault];
                                    callbackChecks := [None] |} _)) _)
            [(0, Overflow 0 fitting)]);
    reflexivity.
Defined.

(** Both blocks overflow; the second leaves 65 of the height, the first
    45: the second is chosen. *)
Lemma most_room_picks_largest_witness :
  run sampleBlocks "most-height"
    [LayoutChange; Overflow 0 overflowing; AllMeasured 0 sampleMeasurements] idle
  = {| checking := false; attribute := Some "try-1"; pending := [];
       checks := [None; Some "try-0"; Some "try-1"] |}.
Proof.
  destruct (most_room_picks_largest sampleBlocks "most-height" idle overflowing
              sampleMeasurements eq_refl eq_refl eq_refl eq_refl
              ltac:(discriminate) eq_refl ltac:(repeat constructor))
    as (i & block & m & Hblock & Hm & Hrun & Hmax & _).
  rewrite Hrun. f_equal. f_equal.
  destruct i as [|[|i]]; [|injection Hblock as <-; reflexivity|discriminate].
  injection Hm as <-.
  specialize (Hmax 1 _ eq_refl). vm_compute in Hmax. discriminate Hmax.
Defined.

End SelectorSamples.

(** ** The walker *)

Section WalkFacts.
Import Parse.
Context {S : Type}.
Variable enterValue : option string -> string -> ValueNode -> S -> Visit * S.
Variable enterNode : option string -> Node -> S -> S.

(** The children of a function node, and the nodes of a block, as the
    walker goes through them. *)
Fixpoint walkChildren (rule : option string) (declaration : string)
    (rename : option string) (l : list ValueNode) (s : S) : list ValueNode * S :=
  match l with
  | [] => ([], s)
  | child :: l' =>
      let '(child', s) := walkValue enterValue rule declaration rename child s in
      let '(l'', s) := walkChildren rule declaration None l' s in
      (child' :: l'', s)
  end.

Fixpoint walkNodes (rule : option string) (l : list Node) (s : S) : list Node * S :=
  match l with
  | [] => ([], s)
  | child :: l' =>
      let '(child', s) := walkNode enterValue enterNode rule child s in
      let '(l'', s) := walkNodes rule l' s in
      (child' :: l'', s)
  end.

Lemma walkValue_eq (rule : option string) (declaration : string)
    (rename : option string) (node : ValueNode) (s : S) :
  walkValue enterValue rule declaration rename node s
  = let found := from_option (fun name => setName name node) node rename in
    let '(visit, s) := enterValue rule declaration found s in
    match visit with
    | Replace node' => (node', s)
    | Descend renameFirst =>
        match node with
        | Function _ children =>
            let '(children', s) :=
              walkChildren rule declaration renameFirst children s in
            (Function (default "" (nodeName found)) children', s)
        | _ => (found, s)
        end
    end.
Proof.
  destruct node as [name|value|value|value|name children|text]; try reflexivity.
  cbn [walkValue]. cbv zeta.
  destruct (enterValue rule declaration _ s) as [[renameFirst|node'] s']; [|reflexivity].
  assert (Hfix : forall rename l s,
    (fix walkChildren (rename : option string) (l : list ValueNode) (s : S)
       {struct l} : list ValueNode * S :=
       match l with
       | [] => ([], s)
       | child :: l' =>
           let '(child', s0) := walkValue enterValue rule declaration rename child s in
           let '(l'', s1) := walkChildren None l' s0 in (child' :: l'', s1)
       end) rename l s = walkChildren rule declaration rename l s).
  { intros r l. revert r. induction l as [|c l IH]; intros r s0; [reflexivity|].
    cbn [walkChildren]. destruct (walkValue _ _ _ _ c s0) as [c' s1].
    rewrite IH. reflexivity. }
  rewrite Hfix. reflexivity.
Qed.

Lemma walkNode_eq (rule : option string) (node : Node) (s : S) :
  walkNode enterValue enterNode rule node s
  = let s := enterNode rule node s in
    match node with
    | Rule prelude block =>
        let '(block', s) := walkNodes (Some prelude) block s in
        (Rule prelude block', s)
    | Atrule name prelude (Some block) =>
        let '(block', s) := walkNodes rule block s in
        (Atrule name prelude (Some block'), s)
    | Atrule name prelude None => (node, s)
    | Declaration property value =>
        let '(value', s) := walkValues enterValue rule property value s in
        (Declaration property value', s)
    end.
Proof.
  assert (Hfix : forall rule l s,
    (fix walkNodes (rule : option string) (l : list Node) (s : S)
       {struct l} : list Node * S :=
       match l with
       | [] => ([], s)
       | child :: l' =>
           let '(child', s0) := walkNode enterValue enterNode rule child s in
           let '(l'', s1) := walkNodes rule l' s0 in (child' :: l'', s1)
       end) rule l s = walkNodes rule l s).
  { intros r l. induction l as [|c l IH]; intros s0; [reflexivity|].
    cbn [walkNodes]. destruct (walkNode _ _ r c s0) as [c' s1].
    rewrite IH. reflexivity. }
  destruct node as [prelude block|name prelude [block|]|property value];
    cbn [walkNode]; cbv zeta; rewrite ?Hfix; reflexivity.
Qed.

Lemma walkValues_eq (rule : option string) (declaration : string)
    (l : list ValueNode) (s : S) :
  walkValues enterValue rule declaration l s = walkChildren rule declaration None l s.
Proof.
  revert s. induction l as [|c l IH]; intros s; [reflexivity|].
  cbn [walkValues walkChildren].
  destruct (walkValue _ _ _ _ c s) as [c' s1]. rewrite IH. reflexivity.
Qed.

Lemma walk_eq (ast : list Node) (s : S) :
  walk enterValue enterNode ast s = walkNodes None ast s.
Proof.
  revert s. induction ast as [|c l IH]; intros s; [reflexivity|].
  cbn [walk walkNodes].
  destruct (walkNode _ _ None c s) as [c' s1]. rewrite IH. reflexivity.
Qed.

(** What every call of [enter] keeps, the walk keeps. *)
Section Invariant.
Variable P : S -> Prop.
Hypothesis enterValue_keeps :
  forall rule declaration node s, P s -> P (enterValue rule declaration node s).2.
Hypothesis enterNode_keeps : forall rule node s, P s -> P (enterNode rule node s).

Lemma walkValue_keeps (node : ValueNode) :
  forall rule declaration rename s,
    P s -> P (walkValue enterValue rule declaration rename node s).2.
Proof using enterValue_keeps.
  induction node as [name|value|value|value|name children IH|text];
    intros rule declaration rename s Hs; rewrite walkValue_eq; cbv zeta;
    match goal with
    | |- context [enterValue ?r ?d ?n ?s] =>
        pose proof (enterValue_keeps r d n s Hs) as Hs';
        destruct (enterValue r d n s) as [[renameFirst|node'] s']
    end; cbn [snd] in *; try exact Hs'.
  revert renameFirst s' Hs'.
  induction IH as [|child Hchild children _ IHchildren]; intros renameFirst s' Hs'.
  - exact Hs'.
  - cbn [walkChildren].
    specialize (Hchild rule declaration renameFirst s' Hs').
    destruct (walkValue enterValue rule declaration renameFirst child s') as [c' s1].
    specialize (IHchildren None s1 Hchild).
    destruct (walkChildren rule declaration None children s1) as [l'' s2].
    exact IHchildren.
Qed.

Lemma walkChildren_keeps (l : list ValueNode) :
  forall rule declaration rename s,
    P s -> P (walkChildren rule declaration rename l s).2.
Proof using enterValue_keeps.
  induction l as [|c l IH]; intros rule declaration rename s Hs; [exact Hs|].
  cbn [walkChildren].
  pose proof (walkValue_keeps c rule declaration rename s Hs) as Hc.
  destruct (walkValue enterValue rule declaration rename c s) as [c' s1].
  specialize (IH rule declaration None s1 Hc).
  destruct (walkChildren rule declaration None l s1) as [l'' s2]. exact IH.
Qed.

Lemma walkNode_keeps (node : Node) :
  forall rule s, P s -> P (walkNode enterValue enterNode rule node s).2.
Proof using enterValue_keeps enterNode_keeps.
  induction node as [prelude block IH|name prelude block IH|property value];
    intros rule s Hs; rewrite walkNode_eq; cbv zeta.
  - pose proof (enterNode_keeps rule (Rule prelude block) s Hs) as Hs'.
    generalize dependent (enterNode rule (Rule prelude block) s). clear Hs s.
    induction IH as [|child Hchild block _ IHblock]; intros s Hs; [exact Hs|].
    cbn [walkNodes]. specialize (Hchild (Some prelude) s Hs).
    destruct (walkNode enterValue enterNode (Some prelude) child s) as [c' s1].
    specialize (IHblock s1 Hchild).
    destruct (walkNodes (Some prelude) block s1) as [l'' s2]. exact IHblock.
  - pose proof (enterNode_keeps rule (Atrule name prelude block) s Hs) as Hs'.
    destruct IH as [block IH|]; [|exact Hs'].
    generalize dependent (enterNode rule (Atrule name prelude (Some block)) s).
    clear Hs s.
    induction IH as [|child Hchild block _ IHblock]; intros s Hs; [exact Hs|].
    cbn [walkNodes]. specialize (Hchild rule s Hs).
    destruct (walkNode enterValue enterNode rule child s) as [c' s1].
    specialize (IHblock s1 Hchild).
    destruct (walkNodes rule block s1) as [l'' s2]. exact IHblock.
  - pose proof (enterNode_keeps rule (Declaration property value) s Hs) as Hs'.
    rewrite walkValues_eq.
    pose proof (walkChildren_keeps value rule property None _ Hs') as Hv.
    destruct (walkChildren rule property None value _) as [v' s1]. exact Hv.
Qed.

Lemma walk_keeps (ast : list Node) (s : S) :
  P s -> P (walk enterValue enterNode ast s).2.
Proof using enterValue_keeps enterNode_keeps.
  revert s. induction ast as [|c l IH]; intros s Hs; [exact Hs|].
  cbn [walk]. pose proof (walkNode_keeps c None s Hs) as Hc.
  destruct (walkNode enterValue enterNode None c s) as [c' s1].
  specialize (IH s1 Hc). destruct (walk enterValue enterNode l s1) as [l'' s2].
  exact IH.
Qed.

End Invariant.

End WalkFacts.

(** ** Plain objects *)

Section PlainObjects.
Context {V : Type}.

Lemma getProperty_Own (obj : gmap string V) (key : string) (value : V) :
  getProperty obj key = Own value <-> obj !! key = Some value.
Proof.
  unfold getProperty. destruct (obj !! key) as [v|].
  - split; intros H; injection H as ->; reflexivity.
  - destruct (isPrototypeMember key); split; discriminate.
Qed.

Lemma getProperty_not_Own (obj : gmap string V) (key : string) :
  getProperty obj key = Inherited \/ getProperty obj key = Missing -> obj !! key = None.
Proof.
  unfold getProperty. destruct (obj !! key) as [v|]; [|reflexivity].
  intros [H|H]; discriminate H.
Qed.

Lemma getProperty_Inherited (obj : gmap string V) (key : string) :
  getProperty obj key = Inherited -> isPrototypeMember key = true.
Proof.
  unfold getProperty. destruct (obj !! key) as [v|]; [discriminate|].
  destruct (isPrototypeMember key); [reflexivity|discriminate].
Qed.

Lemma getProperty_plain (obj : gmap string V) (key : string) :
  isPrototypeMember key = false ->
  getProperty obj key = match obj !! key with Some value => Own value | None => Missing end.
Proof. intros Hkey. unfold getProperty. rewrite Hkey. reflexivity. Qed.

End PlainObjects.

(** ** The registries *)

Section Registries.
Import Parse.

Variable h : Host.
Variable uuid : nat -> string.
Variable generate : ValueNode -> string.
Variable generateValue : list ValueNode -> string.
Variable validatedForPositioning : option Element -> Candidates -> option Element.

(** [st'] has every entry of [st]: each anchor name with at least the
    selectors it had, in the same order, and each custom property that had
    an assignment. *)
Definition storeExtends (st st' : Store) : Prop :=
  (forall name selectors,
     anchorNames st !! name = Some selectors ->
     exists more, anchorNames st' !! name = Some (selectors ++ more)%list)
  /\ (forall property,
        is_Some (customPropAssignments st !! property) ->
        is_Some (customPropAssignments st' !! property))
  /\ uuidCalls st <= uuidCalls st'.

Lemma storeExtends_refl (st : Store) : storeExtends st st.
Proof.
  split; [|split; [auto|lia]].
  intros name selectors H. exists []. rewrite app_nil_r. exact H.
Qed.

Lemma storeExtends_trans (st1 st2 st3 : Store) :
  storeExtends st1 st2 -> storeExtends st2 st3 -> storeExtends st1 st3.
Proof.
  intros (Hn1 & Hc1 & Hu1) (Hn2 & Hc2 & Hu2). split; [|split; [auto|lia]].
  intros name selectors H.
  destruct (Hn1 _ _ H) as [more1 H1]. destruct (Hn2 _ _ H1) as [more2 H2].
  exists (more1 ++ more2)%list. rewrite app_assoc. exact H2.
Qed.

(** The calls that only draw identifiers leave both registries as they are. *)
Definition sameRegistries (st st' : Store) : Prop :=
  anchorNames st' = anchorNames st
  /\ customPropAssignments st' = customPropAssignments st
  /\ uuidCalls st <= uuidCalls st'.

Lemma sameRegistries_refl (st : Store) : sameRegistries st st.
Proof. split; [|split]; auto. Qed.

Lemma sameRegistries_trans (st1 st2 st3 : Store) :
  sameRegistries st1 st2 -> sameRegistries st2 st3 -> sameRegistries st1 st3.
Proof.
  intros (Hn1 & Hc1 & Hu1) (Hn2 & Hc2 & Hu2).
  split; [|split]; [congruence|congruence|lia].
Qed.

Lemma sameRegistries_extends (st st' : Store) :
  sameRegistries st st' -> storeExtends st st'.
Proof.
  intros (Hn & Hc & Hu). split; [|split; [|exact Hu]].
  - intros name selectors H. exists []. rewrite app_nil_r, Hn. exact H.
  - intros property H. rewrite Hc. exact H.
Qed.

Lemma parseAnchorFn_registries (children : list ValueNode) (st : Store) :
  sameRegistries st (parseAnchorFn h uuid generate children st).2.
Proof. split; [|split]; cbn; auto. Qed.

Lemma tryDeclarations_registries (declarations : list Node) (tryBlock : TryBlock)
    (st : Store) :
  sameRegistries st (tryDeclarations h uuid generate generateValue declarations tryBlock st).2.
Proof.
  revert tryBlock st.
  induction declarations as [|node declarations IH]; intros tryBlock st;
    [apply sameRegistries_refl|].
  cbn [tryDeclarations].
  destruct node as [prelude block|name prelude block|property value]; try apply IH.
  destruct (head value) as [[name|v|v|v|name children|text]|]; try apply IH.
  destruct (isAnchorFunction (Function name children)); [|apply IH].
  pose proof (parseAnchorFn_registries children st) as Hp.
  destruct (parseAnchorFn h uuid generate children st) as [[data raw] st1].
  eapply sameRegistries_trans; [exact Hp|apply IH].
Qed.

Lemma tryAtRules_registries (children : list Node) (st : Store) :
  sameRegistries st (tryAtRules h uuid generate generateValue children st).2.
Proof.
  revert st. induction children as [|node children IH]; intros st;
    [apply sameRegistries_refl|].
  cbn [tryAtRules].
  destruct node as [prelude block|name prelude block|property value]; try apply IH.
  destruct (isTryAtRule (Atrule name prelude block)); [|apply IH].
  destruct block as [declarations|]; [|apply IH].
  pose proof (tryDeclarations_registries declarations ∅ st) as Hd.
  destruct (tryDeclarations h uuid generate generateValue declarations ∅ st)
    as [tryBlock st1].
  pose proof (IH st1) as Hr.
  destruct (tryAtRules h uuid generate generateValue children st1) as [tryBlocks st2].
  eapply sameRegistries_trans; [exact Hd|exact Hr].
Qed.

Lemma getPositionFallbackRules_registries (node : Node) (st : Store) :
  sameRegistries st (getPositionFallbackRules h uuid generate generateValue node st).2.
Proof.
  unfold getPositionFallbackRules.
  destruct node as [prelude block|name prelude [children|]|property value];
    try apply sameRegistries_refl.
  destruct (isFallbackAtRule _ && truthy prelude)%bool; [|apply sameRegistries_refl].
  pose proof (tryAtRules_registries children st) as Hr.
  destruct (tryAtRules h uuid generate generateValue children st) as [tryBlocks st1].
  exact Hr.
Qed.

Lemma registerAnchorName_extends (rule : option string) (node : Node) (p : Pass) :
  storeExtends (store p) (store (registerAnchorName rule node p)).
Proof.
  unfold registerAnchorName.
  destruct (getAnchorNameData node rule) as [[[anchorName|] anchorSelector]|];
    try apply storeExtends_refl.
  destruct (negb (String.eqb anchorName "")); [|apply storeExtends_refl].
  destruct (getProperty (anchorNames (store p)) anchorName) as [selectors| |] eqn:Hget;
    [|apply storeExtends_refl|].
  - apply getProperty_Own in Hget.
    split; [|split; [cbn; auto|cbn; lia]].
    intros name selectors' Hname. cbn.
    destruct (decide (anchorName = name)) as [->|Hne].
    + rewrite lookup_insert_eq. rewrite Hname in Hget. injection Hget as ->. eauto.
    + rewrite lookup_insert_ne by exact Hne. exists []. rewrite app_nil_r. exact Hname.
  - pose proof (getProperty_not_Own _ _ (or_intror Hget)) as Hnone.
    split; [|split; [cbn; auto|cbn; lia]].
    intros name selectors' Hname. cbn.
    destruct (decide (anchorName = name)) as [->|Hne]; [congruence|].
    rewrite lookup_insert_ne by exact Hne. exists []. rewrite app_nil_r. exact Hname.
Qed.

Lemma registerFallbackName_store (rule : option string) (node : Node) (p : Pass) :
  store (registerFallbackName rule node p) = store p.
Proof.
  unfold registerFallbackName.
  destruct (getPositionFallbackDeclaration node rule) as [[[fbName|] fbSelector]|];
    try reflexivity.
  destruct (_ && _)%bool; reflexivity.
Qed.

Lemma registerFallbackRules_registries (node : Node) (p : Pass) :
  sameRegistries (store p) (store (registerFallbackRules h uuid generate generateValue node p)).
Proof.
  unfold registerFallbackRules.
  pose proof (getPositionFallbackRules_registries node (store p)) as H3.
  destruct (getPositionFallbackRules h uuid generate generateValue node (store p))
    as [[[fbRuleName fbTryBlocks]|] st]; cbn [snd] in H3; [|exact H3].
  destruct (negb (Nat.eqb (length fbTryBlocks) 0)); [|exact H3].
  destruct (String.eqb fbRuleName "__proto__"); exact H3.
Qed.

Lemma setAnchorFunction_store (selector property : string) (data : AnchorFunction)
    (p : Pass) :
  store (setAnchorFunction selector property data p) = store p.
Proof. unfold setAnchorFunction. destruct (String.eqb selector "__proto__"); reflexivity. Qed.

Lemma enterNode1_extends (rule : option string) (node : Node) (p : Pass) :
  storeExtends (store p) (store (enterNode1 h uuid generate generateValue rule node p)).
Proof.
  unfold enterNode1.
  destruct (negb (isRunning p)); [apply storeExtends_refl|].
  cbv zeta.
  pose proof (registerAnchorName_extends rule node p) as H1.
  destruct (negb (isRunning (registerAnchorName rule node p))); [exact H1|].
  eapply storeExtends_trans; [exact H1|].
  apply sameRegistries_extends.
  pose proof (registerFallbackRules_registries node
                (registerFallbackName rule node (registerAnchorName rule node p))) as H3.
  rewrite registerFallbackName_store in H3. exact H3.
Qed.

Lemma enterValue1_extends (rule : option string) (property : string)
    (node : ValueNode) (p : Pass) :
  storeExtends (store p) (store (enterValue1 h uuid generate rule property node p).2).
Proof.
  unfold enterValue1.
  destruct (negb (isRunning p)); [apply storeExtends_refl|].
  destruct node as [name|v|v|v|name children|text]; try apply storeExtends_refl.
  destruct (isAnchorFunction _ && truthy rule)%bool; [|apply storeExtends_refl].
  destruct (startsWith property "--").
  - cbn. split; [|split; [|cbn; lia]]; cbn.
    + intros n selectors Hn. exists []. rewrite app_nil_r. exact Hn.
    + intros prop Hp. destruct (decide (property = prop)) as [->|Hne].
      * rewrite lookup_insert_eq. eauto.
      * rewrite lookup_insert_ne by exact Hne. exact Hp.
  - destruct (isInset property); [|apply storeExtends_refl].
    unfold parseAnchorFn. cbv zeta. cbn [snd]. rewrite setAnchorFunction_store.
    cbn. apply sameRegistries_extends. split; [|split]; cbn; auto.
Qed.

Lemma enterValue2_store (rule : option string) (property : string)
    (node : ValueNode) (p : Pass) :
  store (enterValue2 rule property node p).2 = store p.
Proof.
  unfold enterValue2.
  destruct (negb (isRunning p)); [reflexivity|].
  destruct (_ && _)%bool; [|reflexivity].
  destruct (cloneFor property _) as [data|]; [|reflexivity].
  cbn [snd]. apply setAnchorFunction_store.
Qed.

(** A run that has thrown makes no further call. *)
Lemma registerAnchorName_running (rule : option string) (node : Node) (p : Pass) :
  isRunning (registerAnchorName rule node p) = true -> isRunning p = true.
Proof.
  unfold registerAnchorName.
  destruct (getAnchorNameData node rule) as [[[anchorName|] anchorSelector]|]; auto.
  destruct (negb (String.eqb anchorName "")); auto.
  cbv zeta. destruct (getProperty _ _); auto. discriminate.
Qed.

Lemma registerFallbackName_running (rule : option string) (node : Node) (p : Pass) :
  isRunning (registerFallbackName rule node p) = isRunning p.
Proof.
  unfold registerFallbackName.
  destruct (getPositionFallbackDeclaration node rule) as [[[fbName|] fbSelector]|];
    try reflexivity.
  destruct (_ && _)%bool; reflexivity.
Qed.

Lemma enterNode1_running (rule : option string) (node : Node) (p : Pass) :
  isRunning (enterNode1 h uuid generate generateValue rule node p) = true ->
  isRunning p = true.
Proof.
  unfold enterNode1. cbv zeta.
  destruct (isRunning p) eqn:Hp; [reflexivity|]. cbn [negb]. rewrite Hp. auto.
Qed.

Lemma enterValue1_running (rule : option string) (property : string)
    (node : ValueNode) (p : Pass) :
  isRunning (enterValue1 h uuid generate rule property node p).2 = true ->
  isRunning p = true.
Proof.
  unfold enterValue1.
  destruct (isRunning p) eqn:Hp; [reflexivity|]. cbn [negb snd]. rewrite Hp. auto.
Qed.

Lemma enterValue2_running (rule : option string) (property : string)
    (node : ValueNode) (p : Pass) :
  isRunning (enterValue2 rule property node p).2 = true -> isRunning p = true.
Proof.
  unfold enterValue2.
  destruct (isRunning p) eqn:Hp; [reflexivity|]. cbn [negb snd]. rewrite Hp. auto.
Qed.

Lemma walkSheets_keeps (P : Pass -> Prop)
    (enterValue : option string -> string -> ValueNode -> Pass -> Visit * Pass)
    (enterNode : option string -> Node -> Pass -> Pass) :
  (forall p c, P p -> P {| store := store p; anchorFunctions := anchorFunctions p;
                           fallbackNames := fallbackNames p;
                           fallbackRules := fallbackRules p; astChanged := c;
                           status := status p |}) ->
  (forall rule declaration node p, P p -> P (enterValue rule declaration node p).2) ->
  (forall rule node p, P p -> P (enterNode rule node p)) ->
  forall styleData p, P p -> P (walkSheets enterValue enterNode styleData p).2.
Proof.
  intros Hflag Hvalue Hnode styleData.
  induction styleData as [|styleObj rest IH]; intros p Hp; [exact Hp|].
  cbn [walkSheets]. unfold walkSheet.
  pose proof (walk_keeps enterValue enterNode P Hvalue Hnode (css styleObj) _
                (Hflag p false Hp)) as Hw.
  destruct (walk enterValue enterNode (css styleObj) _) as [ast p1].
  cbn [snd] in Hw.
  destruct (astChanged p1 && isRunning p1)%bool; specialize (IH p1 Hw);
    destruct (walkSheets enterValue enterNode rest p1) as [rest' p2]; exact IH.
Qed.

(** The pass when [parseCSS] starts, and the pass when its walks are over. *)
Definition initialPass (st : Store) : Pass :=
  {| store := st; anchorFunctions := ∅; fallbackNames := [];
     fallbackRules := ∅; astChanged := false; status := Running |}.

Definition walks (styleData : list StyleData) (st : Store) : list StyleData * Pass :=
  let first :=
    walkSheets (enterValue1 h uuid generate) (enterNode1 h uuid generate generateValue)
      styleData (initialPass st) in
  if (bool_decide (customPropAssignments (store first.2) = ∅)
      || negb (isRunning first.2))%bool
  then first
  else walkSheets enterValue2 enterNode2 first.1 first.2.

(** The part of [parseCSS] after the walks: the rule model, from the try
    blocks [bound] the first loop left, and what [parseCSS] ends with. *)
Definition ruleModel (p : Pass) (bound : gmap string (list TryBlock))
    : gmap string AnchorPosition :=
  merge withDeclarations (fallbackPositions (fallbackNames p) bound)
    (map_imap (boundDeclarations h validatedForPositioning (store p))
       (anchorFunctions p)).

Definition assemble (p : Pass) : Outcome :=
  match status p with
  | Running =>
      match bindFallbacks h validatedForPositioning (store p) (fallbackNames p)
              (fallbackRules p) with
      | Some bound => Returned (ruleModel p bound)
      | None => Throws
      end
  | Threw => Throws
  | PrototypeReplaced => Undescribed
  end.

Lemma assemble_Returned (p : Pass) (rules : gmap string AnchorPosition) :
  assemble p = Returned rules ->
  status p = Running
  /\ exists bound,
       bindFallbacks h validatedForPositioning (store p) (fallbackNames p)
         (fallbackRules p) = Some bound
       /\ rules = ruleModel p bound.
Proof.
  unfold assemble. destruct (status p); try discriminate.
  destruct (bindFallbacks _ _ _ _ _) as [bound|]; [|discriminate].
  intros H. injection H as <-. eauto.
Qed.

Lemma parseCSS_eq (styleData : list StyleData) (st : Store) :
  parseCSS h uuid generate generateValue validatedForPositioning styleData st
  = (assemble (walks styleData st).2, (walks styleData st).1,
     store (walks styleData st).2).
Proof.
  unfold parseCSS, walks, assemble, ruleModel, initialPass. cbv zeta.
  destruct (walkSheets _ _ styleData _) as [styleData1 p1]. cbn [fst snd].
  destruct (bool_decide (customPropAssignments (store p1) = ∅) || negb (isRunning p1))%bool.
  - cbn [fst snd]. destruct (status p1); [|reflexivity|reflexivity].
    destruct (bindFallbacks _ _ _ _ _); reflexivity.
  - destruct (walkSheets enterValue2 enterNode2 styleData1 p1) as [styleData2 p2].
    cbn [fst snd]. destruct (status p2); [|reflexivity|reflexivity].
    destruct (bindFallbacks _ _ _ _ _); reflexivity.
Qed.

(** What both walks keep, the pass has when the walks are over. *)
Lemma walks_keep (P : Pass -> Prop) (styleData : list StyleData) (st : Store) :
  (forall p c, P p -> P {| store := store p; anchorFunctions := anchorFunctions p;
                           fallbackNames := fallbackNames p;
                           fallbackRules := fallbackRules p; astChanged := c;
                           status := status p |}) ->
  (forall rule declaration node p,
     P p -> P (enterValue1 h uuid generate rule declaration node p).2) ->
  (forall rule node p, P p -> P (enterNode1 h uuid generate generateValue rule node p)) ->
  (forall rule declaration node p, P p -> P (enterValue2 rule declaration node p).2) ->
  P (initialPass st) -> P (walks styleData st).2.
Proof.
  intros Hflag HV1 HN1 HV2 H0. unfold walks. cbv zeta.
  pose proof (walkSheets_keeps P _ _ Hflag HV1 HN1 styleData _ H0) as H1.
  destruct (walkSheets _ _ styleData (initialPass st)) as [styleData1 p1].
  cbn [fst snd] in *.
  destruct (_ || _)%bool; [exact H1|].
  apply (walkSheets_keeps P); auto.
Qed.

Lemma parseCSS_extends (styleData : list StyleData) (st : Store) :
  storeExtends st (parseCSS h uuid generate generateValue validatedForPositioning
                     styleData st).2.
Proof.
  rewrite parseCSS_eq. cbn [snd].
  apply (walks_keep (fun p => storeExtends st (store p))).
  - auto.
  - intros rule declaration node p Hp.
    eapply storeExtends_trans; [exact Hp|apply enterValue1_extends].
  - intros rule node p Hp.
    eapply storeExtends_trans; [exact Hp|apply enterNode1_extends].
  - intros rule declaration node p Hp. rewrite enterValue2_store. exact Hp.
  - apply storeExtends_refl.
Qed.

(** C1, amended: [parseCSS] never clears its registries. Of two calls in a
    row, the second starts from the store the first left, and after each
    call every anchor name still has the selectors it had, in order, and
    every custom property that had an assignment still has one. *)
Theorem registries_persist (first second : list StyleData) (st : Store) :
  let st1 :=
    (parseCSS h uuid generate generateValue validatedForPositioning first st).2 in
  let st2 :=
    (parseCSS h uuid generate generateValue validatedForPositioning second st1).2 in
  storeExtends st st1 /\ storeExtends st1 st2.
Proof. split; apply parseCSS_extends. Qed.

End Registries.

(** *** Two calls on a sample page *)

(** Identifiers of the shape [uuid()] gives, different for the first ten
    calls. *)
Definition sampleUuid (n : nat) : string :=
  "1b9d6bcd-bbfd-4b2d-9b5d-ab8dfbbd4be"
  ++ String (ascii_of_nat (48 + n `mod` 10)) "".

Definition sampleGenerate (node : Parse.ValueNode) : string :=
  match node with
  | Parse.Identifier name => name
  | Parse.Percentage value => value ++ "%"
  | Parse.Operator value => value
  | Parse.Raw value => value
  | Parse.Function name _ => name ++ "()"
  | Parse.Leaf text => text
  end.

Definition sampleGenerateValue (value : list Parse.ValueNode) : string :=
  String.concat " " (map sampleGenerate value).

Definition sampleParseCSS :=
  Parse.parseCSS sampleHost sampleUuid sampleGenerate sampleGenerateValue sampleValidated.

(** [#anchor { anchor-name: --a } #x { --center: anchor(--a 50%) }] *)
Definition firstSheet : Parse.StyleData :=
  {| Parse.css :=
       [Parse.Rule "#anchor"
          [Parse.Declaration "anchor-name" [Parse.Identifier "--a"]];
        Parse.Rule "#x"
          [Parse.Declaration "--center"
             [Parse.Function "anchor"
                [Parse.Identifier "--a"; Parse.Percentage "50"]]]];
     Parse.changed := false |}.

(** [#target { top: anchor(--a bottom) }] *)
Definition secondSheet : Parse.StyleData :=
  {| Parse.css :=
       [Parse.Rule "#target"
          [Parse.Declaration "top"
             [Parse.Function "anchor"
                [Parse.Identifier "--a"; Parse.Identifier "bottom"]]]];
     Parse.changed := false |}.

(** The anchor element of the [top] declaration of [#target], in the rule
    model a call returned. *)
Definition topAnchorOfTarget (outcome : Parse.Outcome) : option Element :=
  match outcome with
  | Parse.Returned rules =>
      match rules !! "#target" with
      | Some {| Parse.declarations := Some declarations |} =>
          match declarations !! "top" with
          | Some anchorObj => Parse.anchorEl anchorObj
          | None => None
          end
      | _ => None
      end
  | _ => None
  end.

(** C1, as the specification states it, fails: a second call, on a sheet
    that declares no anchor name, still sees the name and the custom
    property the first call recorded, and binds [#target] to the anchor of
    the first sheet; on a fresh store the same sheet binds nothing. *)
Lemma registries_cleared_between_calls_fails :
  let st1 := (sampleParseCSS [firstSheet] Parse.emptyStore).2 in
  let second := sampleParseCSS [secondSheet] st1 in
  Parse.anchorNames st1 !! "--a" = Some ["#anchor"]
  /\ Parse.anchorNames second.2 !! "--a" = Some ["#anchor"]
  /\ (Parse.key <$> Parse.customPropAssignments second.2 !! "--center")
     = Some (Parse.freshKey sampleUuid 0)
  /\ topAnchorOfTarget second.1.1 = Some 2
  /\ topAnchorOfTarget (sampleParseCSS [secondSheet] Parse.emptyStore).1.1 = None.
Proof. vm_compute. repeat split; reflexivity. Qed.

(** ** Walks that change nothing *)

Section QuietWalk.
Import Parse.

(** [okValue] holds of a value node and of every node below it;
    [nodeAll okValue] holds of a node when [okValue] holds of every value
    node below it. *)
Fixpoint valueAll (okValue : ValueNode -> bool) (node : ValueNode) : bool :=
  okValue node
  && match node with
     | Function _ children => forallb (valueAll okValue) children
     | _ => true
     end.

Fixpoint nodeAll (okValue : ValueNode -> bool) (node : Node) : bool :=
  match node with
  | Rule _ block => forallb (nodeAll okValue) block
  | Atrule _ _ (Some block) => forallb (nodeAll okValue) block
  | Atrule _ _ None => true
  | Declaration _ value => forallb (valueAll okValue) value
  end.

Context {S : Type}.
Variable enterValue : option string -> string -> ValueNode -> S -> Visit * S.
Variable enterNode : option string -> Node -> S -> S.
Variable okValue : ValueNode -> bool.
(** A relation between the states of two walks of the same tree. *)
Variable R : S -> S -> Prop.

Hypothesis enterValue_quiet :
  forall rule declaration node s1 s2,
    okValue node = true -> R s1 s2 ->
    (enterValue rule declaration node s1).1 = Descend None
    /\ (enterValue rule declaration node s2).1 = Descend None
    /\ R (enterValue rule declaration node s1).2 (enterValue rule declaration node s2).2.
Hypothesis enterNode_quiet :
  forall rule node s1 s2,
    nodeAll okValue node = true -> R s1 s2 ->
    R (enterNode rule node s1) (enterNode rule node s2).

Lemma walkValue_quiet (node : ValueNode) :
  forall rule declaration s1 s2,
    valueAll okValue node = true -> R s1 s2 ->
    (walkValue enterValue rule declaration None node s1).1 = node
    /\ (walkValue enterValue rule declaration None node s2).1 = node
    /\ R (walkValue enterValue rule declaration None node s1).2
         (walkValue enterValue rule declaration None node s2).2.
Proof using enterValue_quiet.
  induction node as [name|value|value|value|name children IH|text];
    intros rule declaration s1 s2 Hok HR; rewrite !walkValue_eq; cbv zeta;
    cbn [from_option]; cbn [valueAll] in Hok; apply andb_prop in Hok as [Hhere Hbelow];
    match goal with
    | |- context [enterValue ?r ?d ?n s1] =>
        destruct (enterValue_quiet r d n s1 s2 Hhere HR) as (E1 & E2 & HR');
        destruct (enterValue r d n s1) as [v1 t1];
        destruct (enterValue r d n s2) as [v2 t2]
    end; cbn [fst snd] in *; subst v1 v2; auto.
  cbn [nodeName default].
  assert (Hchildren :
    (walkChildren enterValue rule declaration None children t1).1 = children
    /\ (walkChildren enterValue rule declaration None children t2).1 = children
    /\ R (walkChildren enterValue rule declaration None children t1).2
         (walkChildren enterValue rule declaration None children t2).2).
  { clear Hhere. revert t1 t2 HR' Hbelow.
    induction IH as [|child Hchild children _ IHchildren]; intros t1 t2 HR' Hbelow;
      [cbn; auto|].
    cbn [forallb] in Hbelow. apply andb_prop in Hbelow as [Hc Hrest].
    cbn [walkChildren].
    destruct (Hchild rule declaration t1 t2 Hc HR') as (C1 & C2 & HRc).
    destruct (walkValue enterValue rule declaration None child t1) as [c1 u1].
    destruct (walkValue enterValue rule declaration None child t2) as [c2 u2].
    cbn [fst snd] in *. subst c1 c2.
    destruct (IHchildren u1 u2 HRc Hrest) as (L1 & L2 & HRl).
    destruct (walkChildren enterValue rule declaration None children u1) as [l1 w1].
    destruct (walkChildren enterValue rule declaration None children u2) as [l2 w2].
    cbn [fst snd] in *. subst l1 l2. auto. }
  destruct Hchildren as (L1 & L2 & HRl).
  destruct (walkChildren enterValue rule declaration None children t1) as [l1 w1].
  destruct (walkChildren enterValue rule declaration None children t2) as [l2 w2].
  cbn [fst snd] in *. subst l1 l2. auto.
Qed.

Lemma walkChildren_quiet (l : list ValueNode) :
  forall rule declaration s1 s2,
    forallb (valueAll okValue) l = true -> R s1 s2 ->
    (walkChildren enterValue rule declaration None l s1).1 = l
    /\ (walkChildren enterValue rule declaration None l s2).1 = l
    /\ R (walkChildren enterValue rule declaration None l s1).2
         (walkChildren enterValue rule declaration None l s2).2.
Proof using enterValue_quiet.
  induction l as [|child l IH]; intros rule declaration s1 s2 Hok HR; [cbn; auto|].
  cbn [forallb] in Hok. apply andb_prop in Hok as [Hc Hrest].
  cbn [walkChildren].
  destruct (walkValue_quiet child rule declaration s1 s2 Hc HR) as (C1 & C2 & HRc).
  destruct (walkValue enterValue rule declaration None child s1) as [c1 u1].
  destruct (walkValue enterValue rule declaration None child s2) as [c2 u2].
  cbn [fst snd] in *. subst c1 c2.
  destruct (IH rule declaration u1 u2 Hrest HRc) as (L1 & L2 & HRl).
  destruct (walkChildren enterValue rule declaration None l u1) as [l1 w1].
  destruct (walkChildren enterValue rule declaration None l u2) as [l2 w2].
  cbn [fst snd] in *. subst l1 l2. auto.
Qed.

Lemma walkNode_quiet (node : Node) :
  forall rule s1 s2,
    nodeAll okValue node = true -> R s1 s2 ->
    (walkNode enterValue enterNode rule node s1).1 = node
    /\ (walkNode enterValue enterNode rule node s2).1 = node
    /\ R (walkNode enterValue enterNode rule node s1).2
         (walkNode enterValue enterNode rule node s2).2.
Proof using enterValue_quiet enterNode_quiet.
  assert (Hblock : forall block,
    list_all Node (fun node => forall rule s1 s2,
      nodeAll okValue node = true -> R s1 s2 ->
      (walkNode enterValue enterNode rule node s1).1 = node
      /\ (walkNode enterValue enterNode rule node s2).1 = node
      /\ R (walkNode enterValue enterNode rule node s1).2
           (walkNode enterValue enterNode rule node s2).2) block ->
    forall rule s1 s2, forallb (nodeAll okValue) block = true -> R s1 s2 ->
      (walkNodes enterValue enterNode rule block s1).1 = block
      /\ (walkNodes enterValue enterNode rule block s2).1 = block
      /\ R (walkNodes enterValue enterNode rule block s1).2
           (walkNodes enterValue enterNode rule block s2).2).
  { intros block IH.
    induction IH as [|child Hchild block _ IHblock]; intros rule s1 s2 Hok HR;
      [cbn; auto|].
    cbn [forallb] in Hok. apply andb_prop in Hok as [Hc Hrest].
    cbn [walkNodes].
    destruct (Hchild rule s1 s2 Hc HR) as (C1 & C2 & HRc).
    destruct (walkNode enterValue enterNode rule child s1) as [c1 u1].
    destruct (walkNode enterValue enterNode rule child s2) as [c2 u2].
    cbn [fst snd] in *. subst c1 c2.
    destruct (IHblock rule u1 u2 Hrest HRc) as (L1 & L2 & HRl).
    destruct (walkNodes enterValue enterNode rule block u1) as [l1 w1].
    destruct (walkNodes enterValue enterNode rule block u2) as [l2 w2].
    cbn [fst snd] in *. subst l1 l2. auto. }
  induction node as [prelude block IH|name prelude block IH|property value];
    intros rule s1 s2 Hok HR; rewrite !walkNode_eq; cbv zeta;
    pose proof (enterNode_quiet rule _ s1 s2 Hok HR) as HR'.
  - cbn [nodeAll] in Hok.
    destruct (Hblock block IH (Some prelude) _ _ Hok HR') as (L1 & L2 & HRl).
    destruct (walkNodes enterValue enterNode (Some prelude) block
                (enterNode rule (Rule prelude block) s1)) as [l1 w1].
    destruct (walkNodes enterValue enterNode (Some prelude) block
                (enterNode rule (Rule prelude block) s2)) as [l2 w2].
    cbn [fst snd] in *. subst l1 l2. auto.
  - destruct IH as [block IH|]; [|auto].
    cbn [nodeAll] in Hok.
    destruct (Hblock block IH rule _ _ Hok HR') as (L1 & L2 & HRl).
    destruct (walkNodes enterValue enterNode rule block
                (enterNode rule (Atrule name prelude (Some block)) s1)) as [l1 w1].
    destruct (walkNodes enterValue enterNode rule block
                (enterNode rule (Atrule name prelude (Some block)) s2)) as [l2 w2].
    cbn [fst snd] in *. subst l1 l2. auto.
  - cbn [nodeAll] in Hok. rewrite !walkValues_eq.
    destruct (walkChildren_quiet value rule property _ _ Hok HR') as (L1 & L2 & HRl).
    destruct (walkChildren enterValue rule property None value
                (enterNode rule (Declaration property value) s1)) as [l1 w1].
    destruct (walkChildren enterValue rule property None value
                (enterNode rule (Declaration property value) s2)) as [l2 w2].
    cbn [fst snd] in *. subst l1 l2. auto.
Qed.

Lemma walk_quiet (ast : list Node) :
  forall s1 s2,
    forallb (nodeAll okValue) ast = true -> R s1 s2 ->
    (walk enterValue enterNode ast s1).1 = ast
    /\ (walk enterValue enterNode ast s2).1 = ast
    /\ R (walk enterValue enterNode ast s1).2 (walk enterValue enterNode ast s2).2.
Proof using enterValue_quiet enterNode_quiet.
  induction ast as [|child ast IH]; intros s1 s2 Hok HR; [cbn; auto|].
  cbn [forallb] in Hok. apply andb_prop in Hok as [Hc Hrest].
  cbn [walk].
  destruct (walkNode_quiet child None s1 s2 Hc HR) as (C1 & C2 & HRc).
  destruct (walkNode enterValue enterNode None child s1) as [c1 u1].
  destruct (walkNode enterValue enterNode None child s2) as [c2 u2].
  cbn [fst snd] in *. subst c1 c2.
  destruct (IH u1 u2 Hrest HRc) as (L1 & L2 & HRl).
  destruct (walk enterValue enterNode ast u1) as [l1 w1].
  destruct (walk enterValue enterNode ast u2) as [l2 w2].
  cbn [fst snd] in *. subst l1 l2. auto.
Qed.

End QuietWalk.

(** ** Running the pass on its own output *)

Section Idempotence.
Import Parse.

Variable h : Host.
Variable uuid : nat -> string.
Variable generate : ValueNode -> string.
Variable generateValue : list ValueNode -> string.
Variable validatedForPositioning : option Element -> Candidates -> option Element.

(** A value node that is not a call of [anchor()]. *)
Definition notAnchorFunction (node : ValueNode) : bool := negb (isAnchorFunction node).

(** A value node that is not a [var()] for whose first argument
    [customPropAssignments[child.name]] finds something, an assignment or a
    member of [Object.prototype]; the placeholders the pass writes are such
    nodes. *)
Definition notAssignedVar (assignments : gmap string AnchorFunction) (node : ValueNode)
    : bool :=
  if isVarFunction node then
    match getProperty assignments (default "undefined" (firstChild node ≫= nodeName)) with
    | Missing => true
    | _ => false
    end
  else true.

(** A sheet without a call of [anchor()], and a sheet whose [var()]
    references are placeholders only. *)
Definition anchorFree (styleObj : StyleData) : bool :=
  forallb (nodeAll notAnchorFunction) (css styleObj).

Definition placeholdersOnly (assignments : gmap string AnchorFunction)
    (styleObj : StyleData) : bool :=
  forallb (nodeAll (notAssignedVar assignments)) (css styleObj).

Definition rawOnlyBlock (tryBlock : TryBlock) : Prop :=
  map_Forall (fun _ value => exists text, value = TryRaw text) tryBlock.

Definition rawOnly (rules : gmap string (list TryBlock)) : Prop :=
  map_Forall (fun _ blocks => Forall rawOnlyBlock blocks) rules.

Lemma setTryValue_rawOnly (property text : string) (tryBlock : TryBlock) :
  rawOnlyBlock tryBlock -> rawOnlyBlock (setTryValue property (TryRaw text) tryBlock).
Proof.
  intros Hb. unfold setTryValue.
  destruct (String.eqb property "__proto__"); [exact Hb|].
  apply map_Forall_insert_2; eauto.
Qed.

Lemma tryDeclarations_free (declarations : list Node) :
  forallb (nodeAll notAnchorFunction) declarations = true ->
  forall tryBlock, exists tryBlock',
    (rawOnlyBlock tryBlock -> rawOnlyBlock tryBlock')
    /\ forall st,
         tryDeclarations h uuid generate generateValue declarations tryBlock st
         = (tryBlock', st).
Proof.
  induction declarations as [|node declarations IH]; intros Hfree tryBlock;
    [exists tryBlock; auto|].
  cbn [forallb] in Hfree. apply andb_prop in Hfree as [Hnode Hrest].
  cbn [tryDeclarations].
  assert (Hraw : forall property text,
    exists tryBlock',
      (rawOnlyBlock tryBlock -> rawOnlyBlock tryBlock')
      /\ forall st,
           tryDeclarations h uuid generate generateValue declarations
             (setTryValue property (TryRaw text) tryBlock) st = (tryBlock', st)).
  { intros property text.
    destruct (IH Hrest (setTryValue property (TryRaw text) tryBlock)) as (tb & Htb & Heq).
    exists tb. split; [|exact Heq].
    intros Hb. apply Htb, setTryValue_rawOnly, Hb. }
  destruct node as [prelude block|name prelude block|property value];
    try apply (IH Hrest).
  destruct (head value) as [[name|v|v|v|name children|text]|] eqn:Hhead;
    try apply Hraw.
  assert (Hfirst : isAnchorFunction (Function name children) = false).
  { destruct value as [|first value]; [discriminate|].
    cbn in Hhead. injection Hhead as ->.
    cbn [nodeAll forallb valueAll] in Hnode.
    apply andb_prop in Hnode as [Hnode _]. apply andb_prop in Hnode as [Hnode _].
    unfold notAnchorFunction in Hnode. apply negb_true_iff in Hnode. exact Hnode. }
  rewrite Hfirst. apply Hraw.
Qed.

Lemma tryAtRules_free (children : list Node) :
  forallb (nodeAll notAnchorFunction) children = true ->
  exists tryBlocks,
    Forall rawOnlyBlock tryBlocks
    /\ forall st,
         tryAtRules h uuid generate generateValue children st = (tryBlocks, st).
Proof.
  induction children as [|node children IH]; intros Hfree;
    [exists []; split; [constructor|reflexivity]|].
  cbn [forallb] in Hfree. apply andb_prop in Hfree as [Hnode Hrest].
  cbn [tryAtRules].
  destruct node as [prelude block|name prelude block|property value];
    try apply (IH Hrest).
  destruct (isTryAtRule (Atrule name prelude block)); [|apply (IH Hrest)].
  destruct block as [declarations|]; [|apply (IH Hrest)].
  cbn [nodeAll] in Hnode.
  destruct (tryDeclarations_free declarations Hnode ∅) as (tb & Htb & Hd).
  destruct (IH Hrest) as (tbs & Htbs & Hr).
  exists (tb :: tbs). split.
  - constructor; [|exact Htbs]. apply Htb, map_Forall_empty.
  - intros st. rewrite Hd, Hr. reflexivity.
Qed.

Lemma getPositionFallbackRules_free (node : Node) :
  nodeAll notAnchorFunction node = true ->
  exists result,
    (forall name blocks, result = Some (name, blocks) -> Forall rawOnlyBlock blocks)
    /\ forall st,
         getPositionFallbackRules h uuid generate generateValue node st = (result, st).
Proof.
  intros Hfree. unfold getPositionFallbackRules.
  destruct node as [prelude block|name prelude [children|]|property value];
    try (exists None; split; [discriminate|reflexivity]).
  destruct (isFallbackAtRule _ && truthy prelude)%bool;
    [|exists None; split; [discriminate|reflexivity]].
  cbn [nodeAll] in Hfree.
  destruct (tryAtRules_free children Hfree) as (tbs & Htbs & Hr).
  exists (Some (default "" prelude, tbs)). split.
  - intros n b Heq. injection Heq as _ <-. exact Htbs.
  - intros st. rewrite Hr. reflexivity.
Qed.

(** Two maps in which the same names are found on [Object.prototype]. *)
Definition sameInherited {V : Type} (m m' : gmap string V) : Prop :=
  forall name, getProperty m name = Inherited <-> getProperty m' name = Inherited.

Lemma sameInherited_insert {V : Type} (m m' : gmap string V) (name : string) (value : V) :
  sameInherited m m' -> getProperty m' name <> Inherited ->
  sameInherited m (<[name := value]> m').
Proof.
  intros Hsame Hname key. unfold getProperty at 2.
  destruct (decide (name = key)) as [<-|Hne].
  - rewrite lookup_insert_eq. rewrite (Hsame name). split; [contradiction|discriminate].
  - rewrite lookup_insert_ne by exact Hne. apply Hsame.
Qed.

Ltac split_all := repeat match goal with |- _ /\ _ => split end.

(** Two first walks of anchor-free sheets, from stores with the custom
    property assignments [assignments1] and [assignments2], in whose anchor
    names the names [names] finds on [Object.prototype] are found there:
    what they keep. *)
Definition Quiet1 (assignments1 assignments2 : gmap string AnchorFunction)
    (names : gmap string (list string)) (p1 p2 : Pass) : Prop :=
  anchorFunctions p1 = ∅ /\ anchorFunctions p2 = ∅
  /\ astChanged p1 = false /\ astChanged p2 = false
  /\ fallbackNames p1 = fallbackNames p2
  /\ fallbackRules p1 = fallbackRules p2
  /\ rawOnly (fallbackRules p1)
  /\ customPropAssignments (store p1) = assignments1
  /\ customPropAssignments (store p2) = assignments2
  /\ status p1 = status p2
  /\ sameInherited names (anchorNames (store p1))
  /\ sameInherited names (anchorNames (store p2)).

Lemma enterValue1_quiet (a1 a2 : gmap string AnchorFunction)
    (names : gmap string (list string))
    (rule : option string) (declaration : string) (node : ValueNode) (p1 p2 : Pass) :
  notAnchorFunction node = true -> Quiet1 a1 a2 names p1 p2 ->
  (enterValue1 h uuid generate rule declaration node p1).1 = Descend None
  /\ (enterValue1 h uuid generate rule declaration node p2).1 = Descend None
  /\ Quiet1 a1 a2 names (enterValue1 h uuid generate rule declaration node p1).2
       (enterValue1 h uuid generate rule declaration node p2).2.
Proof.
  intros Hnode HQ. unfold notAnchorFunction in Hnode. apply negb_true_iff in Hnode.
  unfold enterValue1.
  destruct (negb (isRunning p1)), (negb (isRunning p2));
    destruct node as [name|v|v|v|name children|text]; auto;
    rewrite Hnode; auto.
Qed.

Lemma registerAnchorName_quiet (a1 a2 : gmap string AnchorFunction)
    (names : gmap string (list string))
    (rule : option string) (node : Node) (p1 p2 : Pass) :
  Quiet1 a1 a2 names p1 p2 ->
  Quiet1 a1 a2 names (registerAnchorName rule node p1) (registerAnchorName rule node p2).
Proof.
  intros HQ. unfold registerAnchorName.
  destruct (getAnchorNameData node rule) as [[[anchorName|] anchorSelector]|]; auto.
  destruct (negb (String.eqb anchorName "")); auto.
  destruct HQ as (Haf1 & Haf2 & Hc1 & Hc2 & Hn & Hr & Hraw & Ha1 & Ha2 & Hs & Hm1 & Hm2).
  cbv zeta.
  pose proof (Hm1 anchorName) as H1. pose proof (Hm2 anchorName) as H2.
  destruct (getProperty (anchorNames (store p1)) anchorName) as [s1| |] eqn:E1;
    destruct (getProperty (anchorNames (store p2)) anchorName) as [s2| |] eqn:E2;
    try (exfalso; destruct H1 as [H1 H1'], H2 as [H2 H2'];
         first [specialize (H2' eq_refl); specialize (H1 H2')
               |specialize (H1' eq_refl); specialize (H2 H1')]; discriminate);
    unfold Quiet1; cbn; split_all; auto;
    apply sameInherited_insert; first [assumption|congruence].
Qed.

Lemma registerFallbackName_quiet (a1 a2 : gmap string AnchorFunction)
    (names : gmap string (list string))
    (rule : option string) (node : Node) (p1 p2 : Pass) :
  Quiet1 a1 a2 names p1 p2 ->
  Quiet1 a1 a2 names (registerFallbackName rule node p1)
    (registerFallbackName rule node p2).
Proof.
  intros HQ. unfold registerFallbackName.
  destruct (getPositionFallbackDeclaration node rule) as [[[fbName|] fbSelector]|]; auto.
  destruct (_ && _)%bool; auto.
  destruct HQ as (Haf1 & Haf2 & Hc1 & Hc2 & Hn & Hr & Hraw & Ha1 & Ha2 & Hs & Hm1 & Hm2).
  unfold Quiet1; cbn; split_all; auto; congruence.
Qed.

Lemma registerFallbackRules_quiet (a1 a2 : gmap string AnchorFunction)
    (names : gmap string (list string)) (node : Node) (p1 p2 : Pass) :
  nodeAll notAnchorFunction node = true ->
  Quiet1 a1 a2 names p1 p2 ->
  Quiet1 a1 a2 names (registerFallbackRules h uuid generate generateValue node p1)
    (registerFallbackRules h uuid generate generateValue node p2).
Proof.
  intros Hfree HQ.
  destruct (getPositionFallbackRules_free node Hfree) as (result & Hresult & Heq).
  unfold registerFallbackRules. rewrite !Heq.
  destruct HQ as (Haf1 & Haf2 & Hc1 & Hc2 & Hn & Hr & Hraw & Ha1 & Ha2 & Hs & Hm1 & Hm2).
  destruct result as [[fbRuleName fbTryBlocks]|];
    try destruct (negb (Nat.eqb (length fbTryBlocks) 0));
    try destruct (String.eqb fbRuleName "__proto__");
    unfold Quiet1; cbn; split_all; auto; try congruence.
  apply map_Forall_insert_2; eauto.
Qed.

Lemma Quiet1_status (a1 a2 : gmap string AnchorFunction)
    (names : gmap string (list string)) (p1 p2 : Pass) :
  Quiet1 a1 a2 names p1 p2 -> isRunning p1 = isRunning p2.
Proof.
  intros (_ & _ & _ & _ & _ & _ & _ & _ & _ & Hs & _). unfold isRunning.
  rewrite Hs. reflexivity.
Qed.

Lemma enterNode1_quiet (a1 a2 : gmap string AnchorFunction)
    (names : gmap string (list string))
    (rule : option string) (node : Node) (p1 p2 : Pass) :
  nodeAll notAnchorFunction node = true -> Quiet1 a1 a2 names p1 p2 ->
  Quiet1 a1 a2 names (enterNode1 h uuid generate generateValue rule node p1)
    (enterNode1 h uuid generate generateValue rule node p2).
Proof.
  intros Hfree HQ. unfold enterNode1. cbv zeta.
  rewrite <- (Quiet1_status _ _ _ _ _ HQ).
  destruct (negb (isRunning p1)); [exact HQ|].
  pose proof (registerAnchorName_quiet a1 a2 names rule node p1 p2 HQ) as HQ1.
  rewrite <- (Quiet1_status _ _ _ _ _ HQ1).
  destruct (negb (isRunning (registerAnchorName rule node p1))); [exact HQ1|].
  apply registerFallbackRules_quiet; [exact Hfree|].
  apply registerFallbackName_quiet, HQ1.
Qed.

Lemma enterValue2_quiet (rule : option string) (declaration : string)
    (node : ValueNode) (p : Pass) :
  notAssignedVar (customPropAssignments (store p)) node = true ->
  enterValue2 rule declaration node p = (Descend None, p).
Proof.
  intros Hnode. unfold enterValue2, notAssignedVar in *.
  destruct (negb (isRunning p)); [reflexivity|].
  destruct (truthy rule); [|reflexivity]. cbn [andb].
  destruct (isVarFunction node); [|reflexivity]. cbn [andb].
  destruct (bool_decide (is_Some (firstChild node)) && isInset declaration)%bool;
    [|reflexivity].
  destruct (getProperty _ _); try discriminate. reflexivity.
Qed.

Lemma reset_id (p : Pass) :
  astChanged p = false ->
  {| store := store p; anchorFunctions := anchorFunctions p;
     fallbackNames := fallbackNames p; fallbackRules := fallbackRules p;
     astChanged := false; status := status p |} = p.
Proof. destruct p. cbn. intros ->. reflexivity. Qed.

Lemma walkSheets_quiet
    (enterValue : option string -> string -> ValueNode -> Pass -> Visit * Pass)
    (enterNode : option string -> Node -> Pass -> Pass)
    (okValue : ValueNode -> bool) (R : Pass -> Pass -> Prop) :
  (forall rule declaration node s1 s2,
     okValue node = true -> R s1 s2 ->
     (enterValue rule declaration node s1).1 = Descend None
     /\ (enterValue rule declaration node s2).1 = Descend None
     /\ R (enterValue rule declaration node s1).2 (enterValue rule declaration node s2).2) ->
  (forall rule node s1 s2,
     nodeAll okValue node = true -> R s1 s2 ->
     R (enterNode rule node s1) (enterNode rule node s2)) ->
  (forall p1 p2, R p1 p2 -> astChanged p1 = false /\ astChanged p2 = false) ->
  forall styleData p1 p2,
    Forall (fun styleObj => forallb (nodeAll okValue) (css styleObj) = true) styleData ->
    R p1 p2 ->
    (walkSheets enterValue enterNode styleData p1).1 = styleData
    /\ (walkSheets enterValue enterNode styleData p2).1 = styleData
    /\ R (walkSheets enterValue enterNode styleData p1).2
         (walkSheets enterValue enterNode styleData p2).2.
Proof.
  intros HV HN Hflag styleData.
  induction styleData as [|styleObj rest IH]; intros p1 p2 Hok HR; [cbn; auto|].
  apply Forall_cons in Hok as [Hsheet Hrest].
  cbn [walkSheets]. unfold walkSheet.
  destruct (Hflag _ _ HR) as [Hc1 Hc2]. rewrite !reset_id by assumption.
  destruct (walk_quiet enterValue enterNode okValue R HV HN (css styleObj) p1 p2
              Hsheet HR) as (A1 & A2 & HR').
  destruct (walk enterValue enterNode (css styleObj) p1) as [ast1 q1].
  destruct (walk enterValue enterNode (css styleObj) p2) as [ast2 q2].
  cbn [fst snd] in *.
  destruct (Hflag _ _ HR') as [Hq1 Hq2]. rewrite Hq1, Hq2. cbn [andb].
  destruct (IH q1 q2 Hrest HR') as (L1 & L2 & HRl).
  destruct (walkSheets enterValue enterNode rest q1) as [rest1 w1].
  destruct (walkSheets enterValue enterNode rest q2) as [rest2 w2].
  cbn [fst snd] in *. subst. auto.
Qed.

Lemma bindTryBlock_rawOnly (st : Store) (targetEl : option Element) (tryBlock : TryBlock) :
  rawOnlyBlock tryBlock ->
  bindTryValue h validatedForPositioning st targetEl <$> tryBlock = tryBlock.
Proof.
  intros Hraw. apply map_eq. intros property. rewrite lookup_fmap.
  destruct (tryBlock !! property) as [value|] eqn:Hv; [|reflexivity].
  destruct (Hraw _ _ Hv) as [text ->]. reflexivity.
Qed.

(** Binding try blocks of literal values changes nothing, so it ends the
    same from every store, whether it returns or throws. *)
Lemma bindFallbacks_rawOnly (st st' : Store) (names : list (string * string))
    (rules : gmap string (list TryBlock)) :
  rawOnly rules ->
  bindFallbacks h validatedForPositioning st names rules
  = bindFallbacks h validatedForPositioning st' names rules
  /\ forall bound,
       bindFallbacks h validatedForPositioning st names rules = Some bound ->
       bound = rules.
Proof.
  intros Hraw.
  induction names as [|[targetSel fallbackName] names IH];
    [split; [reflexivity|intros bound H; injection H as <-; reflexivity]|].
  cbn [bindFallbacks].
  destruct (getProperty rules fallbackName) as [blocks| |] eqn:Hb;
    [|split; [reflexivity|discriminate]|exact IH].
  apply getProperty_Own in Hb.
  assert (Hsame : forall s,
    fmap (M := gmap string)
      (bindTryValue h validatedForPositioning s (querySelector h targetSel)) <$> blocks
    = blocks).
  { intros s. pose proof (Hraw _ _ Hb) as Hblocks. clear Hb IH.
    induction Hblocks as [|tryBlock blocks Htb _ IHb]; [reflexivity|].
    cbn [fmap list_fmap]. rewrite bindTryBlock_rawOnly by exact Htb.
    f_equal. apply IHb. }
  rewrite !Hsame, insert_id by exact Hb. exact IH.
Qed.

Lemma assemble_quiet (a1 a2 : gmap string AnchorFunction)
    (names : gmap string (list string)) (p1 p2 : Pass) :
  Quiet1 a1 a2 names p1 p2 ->
  assemble h validatedForPositioning p1 = assemble h validatedForPositioning p2.
Proof.
  intros (Haf1 & Haf2 & Hc1 & Hc2 & Hn & Hr & Hraw & Ha1 & Ha2 & Hs & Hm1 & Hm2).
  unfold assemble. rewrite <- Hs, <- Hn, <- Hr.
  destruct (status p1); [|reflexivity|reflexivity].
  destruct (bindFallbacks_rawOnly (store p1) (store p2) (fallbackNames p1)
              (fallbackRules p1) Hraw) as [Heq _].
  rewrite <- Heq. destruct (bindFallbacks _ _ _ _ _); [|reflexivity].
  unfold ruleModel. rewrite <- Hn, Haf1, Haf2, !map_imap_empty. reflexivity.
Qed.

(** Two runs of [parseCSS] on the same quiet sheets, from two stores with
    the same custom-property assignments and the same anchor names found
    on [Object.prototype]. *)
Lemma parseCSS_quiet (styleData : list StyleData) (st st' : Store) :
  customPropAssignments st' = customPropAssignments st ->
  sameInherited (anchorNames st) (anchorNames st') ->
  Forall (fun styleObj => anchorFree styleObj = true) styleData ->
  Forall (fun styleObj => placeholdersOnly (customPropAssignments st) styleObj = true)
    styleData ->
  exists outcome st1 st1',
    parseCSS h uuid generate generateValue validatedForPositioning styleData st
    = (outcome, styleData, st1)
    /\ parseCSS h uuid generate generateValue validatedForPositioning styleData st'
       = (outcome, styleData, st1')
    /\ customPropAssignments st1 = customPropAssignments st
    /\ sameInherited (anchorNames st) (anchorNames st1).
Proof.
  intros Hsame Hmembers Hfree Hvars.
  set (a := customPropAssignments st) in *.
  set (names := anchorNames st) in *.
  assert (H0 : Quiet1 a a names (initialPass st) (initialPass st')).
  { unfold Quiet1. cbn. split_all; auto;
      first [intros name; reflexivity | apply map_Forall_empty]. }
  destruct (walkSheets_quiet (enterValue1 h uuid generate)
              (enterNode1 h uuid generate generateValue) notAnchorFunction
              (Quiet1 a a names) (enterValue1_quiet a a names) (enterNode1_quiet a a names)
              ltac:(intros p1 p2 (_ & _ & ? & ? & _); auto)
              styleData _ _ Hfree H0) as (E1 & E2 & HQ).
  assert (Hsecond : forall p,
    astChanged p = false -> customPropAssignments (store p) = a ->
    walkSheets enterValue2 enterNode2 styleData p = (styleData, p)).
  { intros p Hc Ha.
    destruct (walkSheets_quiet enterValue2 enterNode2 (notAssignedVar a)
                (fun p1 p2 => p1 = p /\ p2 = p)) with (styleData := styleData)
                (p1 := p) (p2 := p) as (S1 & _ & [S2 _]); auto.
    - intros rule declaration node s1 s2 Hnode [-> ->].
      rewrite enterValue2_quiet by (rewrite Ha; exact Hnode). auto.
    - intros p1 p2 [-> ->]. auto.
    - destruct (walkSheets enterValue2 enterNode2 styleData p) as [sd q].
      cbn [fst snd] in *. subst. reflexivity. }
  pose proof (assemble_quiet _ _ _ _ _ HQ) as Hassemble.
  pose proof (Quiet1_status _ _ _ _ _ HQ) as Hrunning.
  destruct HQ as (Haf1 & Haf2 & Hc1 & Hc2 & Hn & Hr & Hraw & Ha1 & Ha2 & Hs & Hm1 & Hm2).
  rewrite !parseCSS_eq. unfold walks. cbv zeta.
  destruct (walkSheets _ _ styleData (initialPass st)) as [sd1 p1].
  destruct (walkSheets _ _ styleData (initialPass st')) as [sd1' p1'].
  cbn [fst snd] in *. subst sd1 sd1'.
  exists (assemble h validatedForPositioning p1), (store p1), (store p1').
  rewrite Ha1, Ha2, <- Hrunning.
  destruct (bool_decide (a = ∅) || negb (isRunning p1))%bool; cbn [fst snd];
    rewrite ?(Hsecond p1 Hc1 Ha1), ?(Hsecond p1' Hc2 Ha2); cbn [fst snd];
    rewrite <- Hassemble; auto.
Qed.


End Idempotence.

(** [#target { top: var(--anchor-<uuid>) }
     #target { position-fallback: --fb }
     @position-fallback --fb { @try { left: 10px } }]: what the pass wrote
    for a sheet, with a fallback of literal values. *)
Definition rewrittenSheet : Parse.StyleData :=
  {| Parse.css :=
       [Parse.Rule "#target"
          [Parse.Declaration "top"
             [Parse.Function "var"
                [Parse.Identifier (Parse.freshKey sampleUuid 1)]];
           Parse.Declaration "position-fallback" [Parse.Identifier "--fb"]];
        Parse.Atrule "position-fallback" (Some "--fb")
          (Some [Parse.Atrule "try" None
                   (Some [Parse.Declaration "left" [Parse.Leaf "10px"]])])];
     Parse.changed := false |}.


(** [#a { anchor-name: toString }] *)
Definition prototypeNameSheet : Parse.StyleData :=
  {| Parse.css :=
       [Parse.Rule "#a"
          [Parse.Declaration "anchor-name" [Parse.Identifier "toString"]]];
     Parse.changed := false |}.

(** ** The keys of the rule model *)

Section Keys.
Import Parse.

Variable h : Host.
Variable uuid : nat -> string.
Variable generate : ValueNode -> string.
Variable generateValue : list ValueNode -> string.
Variable validatedForPositioning : option Element -> Candidates -> option Element.

(** The calls of [uuid()] below [N] gave different values, each of 36
    characters. *)
Variable N : nat.
Hypothesis uuid_distinct : forall i j, i < N -> j < N -> uuid i = uuid j -> i = j.
Hypothesis uuid_length : forall i, i < N -> String.length (uuid i) = 36.

Lemma length_append (a b : string) :
  String.length (a ++ b) = String.length a + String.length b.
Proof. induction a as [|c a IH]; [reflexivity|]. simpl. f_equal. exact IH. Qed.

Lemma append_inj (a b x y : string) :
  String.length a = String.length b -> a ++ x = b ++ y -> a = b /\ x = y.
Proof.
  revert b. induction a as [|c a IH]; intros [|d b] Hlen Heq; cbn in *;
    try discriminate; [auto|].
  injection Heq as -> Heq. destruct (IH b ltac:(lia) Heq) as [-> ->]. auto.
Qed.

Lemma freshKey_inj (i j : nat) :
  i < N -> j < N -> freshKey uuid i = freshKey uuid j -> i = j.
Proof using uuid_distinct.
  intros Hi Hj Heq. unfold freshKey in Heq.
  apply (append_inj "--anchor-" "--anchor-") in Heq as [_ Heq]; [|reflexivity].
  apply uuid_distinct; assumption.
Qed.

Lemma freshKey_length (i : nat) :
  i < N -> String.length (freshKey uuid i) = 45.
Proof using uuid_length.
  intros Hi. unfold freshKey. rewrite length_append, uuid_length by exact Hi.
  reflexivity.
Qed.

(** A key made by [parseAnchorFn] is never a key made by the second walk. *)
Lemma freshKey_not_clone (i j : nat) (property : string) :
  i < N -> j < N -> freshKey uuid i <> freshKey uuid j ++ "-" ++ property.
Proof using uuid_length.
  intros Hi Hj Heq. apply (f_equal String.length) in Heq.
  rewrite !length_append, !freshKey_length in Heq by assumption.
  cbn in Heq. lia.
Qed.

Lemma clone_inj (i j : nat) (property1 property2 : string) :
  i < N -> j < N ->
  freshKey uuid i ++ "-" ++ property1 = freshKey uuid j ++ "-" ++ property2 ->
  property1 = property2.
Proof using uuid_length.
  intros Hi Hj Heq.
  apply append_inj in Heq as [_ Heq];
    [|rewrite !freshKey_length by assumption; reflexivity].
  simpl in Heq. injection Heq as Heq. exact Heq.
Qed.

(** A key made by [parseAnchorFn] is never the key of the clone of a member
    of [Object.prototype]. *)
Lemma freshKey_not_undefined (i : nat) (suffix : string) :
  freshKey uuid i <> "undefined" ++ suffix.
Proof. unfold freshKey. cbn. discriminate. Qed.

(** *** The references of try blocks *)

Definition blockFresh (lo hi : nat) (tryBlock : TryBlock) : Prop :=
  forall property e,
    tryBlock !! property = Some (TryAnchor e) ->
    exists i, lo <= i < hi /\ key e = freshKey uuid i.

Definition blocksFresh (lo hi : nat) (blocks : list TryBlock) : Prop :=
  forall index tryBlock, blocks !! index = Some tryBlock -> blockFresh lo hi tryBlock.

Definition blocksDistinct (blocks : list TryBlock) : Prop :=
  forall index1 index2 block1 block2 property1 property2 e1 e2,
    blocks !! index1 = Some block1 -> blocks !! index2 = Some block2 ->
    block1 !! property1 = Some (TryAnchor e1) ->
    block2 !! property2 = Some (TryAnchor e2) ->
    key e1 = key e2 -> index1 = index2 /\ property1 = property2.

Lemma blockFresh_mono (lo lo' hi hi' : nat) (tryBlock : TryBlock) :
  lo' <= lo -> hi <= hi' -> blockFresh lo hi tryBlock -> blockFresh lo' hi' tryBlock.
Proof.
  intros Hlo Hhi Hb property e He. destruct (Hb _ _ He) as (i & Hi & Hk).
  exists i. split; [lia|exact Hk].
Qed.

Lemma setTryValue_fresh (lo hi hi' : nat) (property : string) (value : TryValue)
    (tryBlock : TryBlock) :
  hi <= hi' ->
  (forall e, value = TryAnchor e -> key e = freshKey uuid hi /\ hi < hi' /\ hi' <= N) ->
  lo <= hi ->
  blockFresh lo hi tryBlock -> blocksDistinct [tryBlock] ->
  blockFresh lo hi' (setTryValue property value tryBlock)
  /\ blocksDistinct [setTryValue property value tryBlock].
Proof using uuid_distinct.
  intros Hhi Hvalue Hlo Hf Hd. unfold setTryValue.
  destruct (String.eqb property "__proto__").
  { split; [|exact Hd]. eapply blockFresh_mono; [| |exact Hf]; lia. }
  split.
  - intros prop e He. destruct (decide (property = prop)) as [->|Hne].
    + rewrite lookup_insert_eq in He. injection He as ->.
      destruct (Hvalue e eq_refl) as (Hk & Hlt & _).
      exists hi. split; [lia|exact Hk].
    + rewrite lookup_insert_ne in He by exact Hne.
      destruct (Hf _ _ He) as (i & Hi & Hk). exists i. split; [lia|exact Hk].
  - assert (Hnew : forall prop e e',
      value = TryAnchor e' ->
      tryBlock !! prop = Some (TryAnchor e) -> key e <> key e').
    { intros prop e e' Hv He Hk. destruct (Hf _ _ He) as (i & Hi & Hki).
      destruct (Hvalue e' Hv) as (Hk' & Hlt & HN).
      rewrite Hki, Hk' in Hk. apply freshKey_inj in Hk; lia. }
    intros [|i1] [|i2] b1 b2 p1 p2 e1 e2 Hb1 Hb2 H1 H2 Hk; try discriminate.
    injection Hb1 as <-. injection Hb2 as <-. split; [reflexivity|].
    destruct (decide (property = p1)) as [E1|Hne1],
      (decide (property = p2)) as [E2|Hne2]; [congruence| | |]; subst.
    + rewrite lookup_insert_eq in H1. rewrite lookup_insert_ne in H2 by exact Hne2.
      injection H1 as H1. symmetry in Hk. exfalso. eapply Hnew; eauto.
    + rewrite lookup_insert_eq in H2. rewrite lookup_insert_ne in H1 by exact Hne1.
      injection H2 as H2. exfalso. eapply Hnew; eauto.
    + rewrite lookup_insert_ne in H1, H2 by assumption.
      eapply (Hd 0 0); eauto.
Qed.

Lemma tryDeclarations_fresh (declarations : list Node) :
  forall tryBlock st lo,
    uuidCalls (tryDeclarations h uuid generate generateValue declarations tryBlock st).2
      <= N ->
    lo <= uuidCalls st ->
    blockFresh lo (uuidCalls st) tryBlock ->
    blocksDistinct [tryBlock] ->
    blockFresh lo
      (uuidCalls (tryDeclarations h uuid generate generateValue declarations tryBlock st).2)
      (tryDeclarations h uuid generate generateValue declarations tryBlock st).1
    /\ blocksDistinct
         [(tryDeclarations h uuid generate generateValue declarations tryBlock st).1].
Proof using uuid_distinct.
  induction declarations as [|node declarations IH]; intros tryBlock st lo HN Hlo Hf Hd;
    [auto|].
  cbn [tryDeclarations] in *.
  assert (Hraw : forall property text,
    uuidCalls (tryDeclarations h uuid generate generateValue declarations
                 (setTryValue property (TryRaw text) tryBlock) st).2 <= N ->
    blockFresh lo
      (uuidCalls (tryDeclarations h uuid generate generateValue declarations
                    (setTryValue property (TryRaw text) tryBlock) st).2)
      (tryDeclarations h uuid generate generateValue declarations
         (setTryValue property (TryRaw text) tryBlock) st).1
    /\ blocksDistinct
         [(tryDeclarations h uuid generate generateValue declarations
             (setTryValue property (TryRaw text) tryBlock) st).1]).
  { intros property text HN'.
    assert (Hset : blockFresh lo (uuidCalls st)
                     (setTryValue property (TryRaw text) tryBlock)
                   /\ blocksDistinct [setTryValue property (TryRaw text) tryBlock]).
    { apply (setTryValue_fresh lo (uuidCalls st)); auto. intros e He. discriminate He. }
    destruct Hset as [Hf' Hd']. apply IH; assumption. }
  destruct node as [prelude block|name prelude block|property value];
    try (apply IH; assumption).
  destruct (head value) as [[name|v|v|v|name children|text]|]; try (apply Hraw, HN).
  destruct (isAnchorFunction (Function name children)); [|apply Hraw, HN].
  unfold parseAnchorFn in *. cbv zeta in *.
  match goal with
  | |- context [tryDeclarations _ _ _ _ declarations (setTryValue _ ?v _) ?st1] =>
      pose proof (tryDeclarations_registries h uuid generate generateValue
                    declarations (setTryValue property v tryBlock) st1) as (_ & _ & Hmono);
      cbn [uuidCalls] in Hmono;
      assert (Hset : blockFresh lo (S (uuidCalls st)) (setTryValue property v tryBlock)
                     /\ blocksDistinct [setTryValue property v tryBlock])
        by (apply (setTryValue_fresh lo (uuidCalls st)); auto;
            intros e He; injection He as <-; cbn [key]; split; [reflexivity|lia]);
      destruct Hset as [Hf' Hd'];
      apply IH; [exact HN|cbn [uuidCalls]; lia|exact Hf'|exact Hd']
  end.
Qed.

Lemma tryAtRules_fresh (children : list Node) :
  forall st,
    uuidCalls (tryAtRules h uuid generate generateValue children st).2 <= N ->
    blocksFresh (uuidCalls st)
      (uuidCalls (tryAtRules h uuid generate generateValue children st).2)
      (tryAtRules h uuid generate generateValue children st).1
    /\ blocksDistinct (tryAtRules h uuid generate generateValue children st).1.
Proof using uuid_distinct.
  induction children as [|node children IH]; intros st HN.
  { split; [intros index b Hb|intros i1 i2 b1 b2 p1 p2 e1 e2 Hb]; discriminate. }
  cbn [tryAtRules] in *.
  destruct node as [prelude block|name prelude block|property value];
    try (apply IH; assumption).
  destruct (isTryAtRule (Atrule name prelude block)); [|apply IH; assumption].
  destruct block as [declarations|]; [|apply IH; assumption].
  pose proof (tryDeclarations_registries h uuid generate generateValue declarations ∅ st)
    as (_ & _ & Hm1).
  pose proof (tryDeclarations_fresh declarations ∅ st (uuidCalls st)) as Hd.
  destruct (tryDeclarations h uuid generate generateValue declarations ∅ st)
    as [tryBlock st1].
  pose proof (tryAtRules_registries h uuid generate generateValue children st1)
    as (_ & _ & Hm2).
  specialize (IH st1).
  destruct (tryAtRules h uuid generate generateValue children st1) as [tryBlocks st2].
  cbn [fst snd] in *.
  destruct Hd as [Hf Hd]; [lia|lia| | |].
  { intros property e He. rewrite lookup_empty in He. discriminate. }
  { intros [|i1] [|i2] b1 b2 p1 p2 e1 e2 Hb1 Hb2 H1; try discriminate.
    injection Hb1 as <-. rewrite lookup_empty in H1. discriminate. }
  destruct (IH HN) as [Hfs Hds].
  split.
  - intros [|index] b Hb.
    + injection Hb as <-. eapply blockFresh_mono; [| |exact Hf]; lia.
    + eapply blockFresh_mono; [| |eapply Hfs, Hb]; lia.
  - intros [|i1] [|i2] b1 b2 p1 p2 e1 e2 Hb1 Hb2 H1 H2 Hk.
    + injection Hb1 as <-. injection Hb2 as <-.
      destruct (Hd 0 0 _ _ _ _ _ _ eq_refl eq_refl H1 H2 Hk) as [_ ->]. auto.
    + injection Hb1 as <-. cbn in Hb2.
      destruct (Hf _ _ H1) as (j1 & Hj1 & Hk1).
      destruct (Hfs _ _ Hb2 _ _ H2) as (j2 & Hj2 & Hk2).
      rewrite Hk1, Hk2 in Hk. apply freshKey_inj in Hk; lia.
    + injection Hb2 as <-. cbn in Hb1.
      destruct (Hf _ _ H2) as (j2 & Hj2 & Hk2).
      destruct (Hfs _ _ Hb1 _ _ H1) as (j1 & Hj1 & Hk1).
      rewrite Hk1, Hk2 in Hk. apply freshKey_inj in Hk; lia.
    + cbn in Hb1, Hb2.
      destruct (Hds _ _ _ _ _ _ _ _ Hb1 Hb2 H1 H2 Hk) as [-> ->]. auto.
Qed.

(** *** The places of the rule model *)

(** Where the pass keeps a reference: a declaration of a selector, or a
    property of a try block of a fallback name. *)
Inductive Place :=
| PlaceDeclaration (selector property : string)
| PlaceTry (name : string) (index : nat) (property : string).

Definition entryAt (p : Pass) (place : Place) : option AnchorFunction :=
  match place with
  | PlaceDeclaration selector property =>
      match anchorFunctions p !! selector with
      | Some anchorFns => anchorFns !! property
      | None => None
      end
  | PlaceTry name index property =>
      match fallbackRules p !! name with
      | Some blocks =>
          match blocks !! index with
          | Some tryBlock =>
              match tryBlock !! property with
              | Some (TryAnchor e) => Some e
              | _ => None
              end
          | None => None
          end
      | None => None
      end
  end.

Definition isFresh (n : nat) (e : AnchorFunction) : Prop :=
  exists i, i < n /\ key e = freshKey uuid i.

Definition storeFresh (st : Store) : Prop :=
  forall property e,
    customPropAssignments st !! property = Some e -> isFresh (uuidCalls st) e.

(** The first walk: every reference has a key of its own, made by
    [parseAnchorFn]. *)
Definition Fresh1 (p : Pass) : Prop :=
  uuidCalls (store p) <= N ->
  storeFresh (store p)
  /\ (forall place e, entryAt p place = Some e -> isFresh (uuidCalls (store p)) e)
  /\ (forall place1 place2 e1 e2,
        entryAt p place1 = Some e1 -> entryAt p place2 = Some e2 ->
        key e1 = key e2 -> place1 = place2).

Lemma isFresh_mono (n n' : nat) (e : AnchorFunction) :
  n <= n' -> isFresh n e -> isFresh n' e.
Proof. intros Hn (i & Hi & Hk). exists i. split; [lia|exact Hk]. Qed.

Lemma entryAt_withStore (st : Store) (p : Pass) (place : Place) :
  entryAt (withStore st p) place = entryAt p place.
Proof. destruct place; reflexivity. Qed.

Lemma entryAt_withStatus (s : Status) (p : Pass) (place : Place) :
  entryAt (withStatus s p) place = entryAt p place.
Proof. destruct place; reflexivity. Qed.

Lemma Fresh1_status (s : Status) (p : Pass) :
  Fresh1 p -> Fresh1 (withStatus s p).
Proof.
  intros HF HN. destruct (HF HN) as (Hs & Hfresh & Hdistinct).
  split; [exact Hs|]. split.
  - intros place e. rewrite entryAt_withStatus. apply Hfresh.
  - intros place1 place2 e1 e2. rewrite !entryAt_withStatus. apply Hdistinct.
Qed.

(** A step that changes the store only, and draws no identifier that it
    does not record as an assignment. *)
Lemma Fresh1_store (st : Store) (p : Pass) :
  uuidCalls (store p) <= uuidCalls st ->
  (uuidCalls st <= N -> storeFresh (store p) -> storeFresh st) ->
  Fresh1 p -> Fresh1 (withStore st p).
Proof.
  intros Hmono Hst HF HN. cbn [withStore store] in *.
  destruct (HF ltac:(lia)) as (Hs & Hfresh & Hdistinct).
  split; [auto|]. split.
  - intros place e He. rewrite entryAt_withStore in He.
    eapply isFresh_mono; [exact Hmono|eauto].
  - intros place1 place2 e1 e2 H1 H2. rewrite !entryAt_withStore in *. eauto.
Qed.

Lemma storeFresh_same (st st' : Store) :
  sameRegistries st st' -> storeFresh st -> storeFresh st'.
Proof.
  intros (_ & Hc & Hu) Hs property e He. rewrite Hc in He.
  eapply isFresh_mono; [exact Hu|eauto].
Qed.

Lemma entryAt_set (selector property : string) (data : AnchorFunction) (p : Pass)
    (place : Place) :
  String.eqb selector "__proto__" = false ->
  entryAt (setAnchorFunction selector property data p) place
  = match place with
    | PlaceDeclaration selector' property' =>
        if decide (selector' = selector /\ property' = property) then Some data
        else entryAt p place
    | PlaceTry _ _ _ => entryAt p place
    end.
Proof.
  intros Hproto. unfold setAnchorFunction. rewrite Hproto.
  destruct place as [selector' property'|name index property']; [|reflexivity].
  cbn [entryAt anchorFunctions].
  destruct (decide (selector' = selector /\ property' = property)) as [[-> ->]|Hne].
  - rewrite lookup_insert_eq, lookup_insert_eq. reflexivity.
  - destruct (decide (selector' = selector)) as [->|Hs].
    + rewrite lookup_insert_eq, lookup_insert_ne by (intros ->; auto).
      destruct (anchorFunctions p !! selector); [reflexivity|apply lookup_empty].
    + rewrite lookup_insert_ne by auto. reflexivity.
Qed.

Lemma Fresh1_set (selector property : string) (data : AnchorFunction) (p : Pass) :
  key data = freshKey uuid (uuidCalls (store p)) ->
  S (uuidCalls (store p)) <= N ->
  Fresh1 p ->
  let st := {| anchorNames := anchorNames (store p);
               customPropAssignments := customPropAssignments (store p);
               uuidCalls := S (uuidCalls (store p)) |} in
  Fresh1 (setAnchorFunction selector property data (withStore st p)).
Proof using uuid_distinct.
  intros Hkey HN HF st.
  destruct (String.eqb selector "__proto__") eqn:Hproto.
  { unfold setAnchorFunction. rewrite Hproto. apply Fresh1_status.
    apply Fresh1_store; [cbn; lia| |exact HF].
    intros _ Hs prop e He. cbn in He |- *.
    eapply isFresh_mono; [|eapply Hs, He]. lia. }
  intros _.
  destruct (HF ltac:(lia)) as (Hs & Hfresh & Hdistinct).
  assert (Hst : uuidCalls st = S (uuidCalls (store p))) by reflexivity.
  assert (Hcpa : customPropAssignments st = customPropAssignments (store p))
    by reflexivity.
  clearbody st.
  assert (Hold : forall place e,
    entryAt (withStore st p) place = Some e -> key e <> key data).
  { intros place e He Hk. rewrite entryAt_withStore in He.
    destruct (Hfresh _ _ He) as (i & Hi & Hki).
    rewrite Hkey, Hki in Hk. apply freshKey_inj in Hk; lia. }
  rewrite setAnchorFunction_store. cbn [store withStore]. split; [|split].
  - intros prop e He. rewrite Hcpa in He.
    eapply isFresh_mono; [|eapply Hs, He]. lia.
  - intros place e He. rewrite entryAt_set in He by exact Hproto.
    destruct place as [selector' property'|name index property'].
    + destruct (decide _) as [_|_].
      * injection He as <-. exists (uuidCalls (store p)). split; [lia|exact Hkey].
      * rewrite entryAt_withStore in He. eapply isFresh_mono; [|eapply Hfresh, He]. lia.
    + rewrite entryAt_withStore in He. eapply isFresh_mono; [|eapply Hfresh, He]. lia.
  - intros place1 place2 e1 e2 H1 H2 Hk. rewrite entryAt_set in H1, H2 by exact Hproto.
    destruct place1 as [s1 p1|n1 i1 p1], place2 as [s2 p2|n2 i2 p2];
      repeat match goal with
      | H : (if decide ?P then _ else _) = _ |- _ => destruct (decide P) as [[-> ->]|?]
      end;
      try reflexivity;
      repeat match goal with
      | H : Some data = Some _ |- _ => injection H as <-
      end;
      try (exfalso; eapply Hold; eauto; congruence);
      rewrite !entryAt_withStore in *; eauto.
Qed.

Lemma enterValue1_fresh (rule : option string) (property : string) (node : ValueNode)
    (p : Pass) :
  Fresh1 p -> Fresh1 (enterValue1 h uuid generate rule property node p).2.
Proof using uuid_distinct.
  intros HF. unfold enterValue1.
  destruct (negb (isRunning p)); [exact HF|].
  destruct node as [name|v|v|v|name children|text]; try exact HF.
  destruct (isAnchorFunction _ && truthy rule)%bool; [|exact HF].
  destruct (startsWith property "--").
  - unfold parseAnchorFn. cbv zeta. cbn [snd uuidCalls anchorNames customPropAssignments].
    apply Fresh1_store; [cbn; lia| |exact HF].
    cbn [uuidCalls customPropAssignments]. intros HN Hs prop e He.
    cbn [uuidCalls customPropAssignments] in *.
    destruct (decide (property = prop)) as [->|Hne].
    + rewrite lookup_insert_eq in He. injection He as <-.
      exists (uuidCalls (store p)). split; [lia|reflexivity].
    + rewrite lookup_insert_ne in He by exact Hne.
      eapply isFresh_mono; [|eapply Hs, He]. lia.
  - destruct (isInset property); [|exact HF].
    unfold parseAnchorFn. cbv zeta. cbn [snd].
    intros HN. apply Fresh1_set; [reflexivity| |exact HF|exact HN].
    rewrite setAnchorFunction_store in HN. cbn [store withStore uuidCalls] in HN.
    exact HN.
Qed.

Lemma entryAt_names (p : Pass) (names : list (string * string)) (place : Place) :
  entryAt {| store := store p; anchorFunctions := anchorFunctions p;
             fallbackNames := names; fallbackRules := fallbackRules p;
             astChanged := astChanged p; status := status p |} place
  = entryAt p place.
Proof. destruct place; reflexivity. Qed.

Lemma Fresh1_names (p : Pass) (names : list (string * string)) :
  Fresh1 p ->
  Fresh1 {| store := store p; anchorFunctions := anchorFunctions p;
            fallbackNames := names; fallbackRules := fallbackRules p;
            astChanged := astChanged p; status := status p |}.
Proof.
  intros HF HN. destruct (HF HN) as (Hs & Hfresh & Hdistinct).
  split; [exact Hs|]. split.
  - intros place e. rewrite entryAt_names. apply Hfresh.
  - intros place1 place2 e1 e2. rewrite !entryAt_names. apply Hdistinct.
Qed.

Lemma Fresh1_flag (p : Pass) (c : bool) :
  Fresh1 p ->
  Fresh1 {| store := store p; anchorFunctions := anchorFunctions p;
            fallbackNames := fallbackNames p; fallbackRules := fallbackRules p;
            astChanged := c; status := status p |}.
Proof.
  intros HF HN. destruct (HF HN) as (Hs & Hfresh & Hdistinct).
  split; [exact Hs|]. split.
  - intros place e He. apply (Hfresh place). destruct place; exact He.
  - intros place1 place2 e1 e2 H1 H2. apply (Hdistinct place1 place2).
    + destruct place1; exact H1.
    + destruct place2; exact H2.
Qed.

Lemma Fresh1_rules (name : string) (blocks : list TryBlock) (st : Store) (p : Pass) :
  sameRegistries (store p) st ->
  (uuidCalls st <= N ->
   blocksFresh (uuidCalls (store p)) (uuidCalls st) blocks /\ blocksDistinct blocks) ->
  Fresh1 p ->
  Fresh1 {| store := st; anchorFunctions := anchorFunctions p;
            fallbackNames := fallbackNames p;
            fallbackRules := <[name := blocks]> (fallbackRules p);
            astChanged := astChanged p; status := status p |}.
Proof using uuid_distinct.
  intros Hsame Hblocks HF HN. cbn [store] in *.
  pose proof Hsame as (_ & _ & Hmono).
  destruct (HF ltac:(lia)) as (Hs & Hfresh & Hdistinct).
  destruct (Hblocks HN) as [Hbf Hbd].
  set (p' := {| store := st; anchorFunctions := anchorFunctions p;
                fallbackNames := fallbackNames p;
                fallbackRules := <[name := blocks]> (fallbackRules p);
                astChanged := astChanged p; status := status p |}).
  assert (Hcase : forall place e,
    entryAt p' place = Some e ->
    (exists index property tryBlock,
        place = PlaceTry name index property /\ blocks !! index = Some tryBlock
        /\ tryBlock !! property = Some (TryAnchor e))
    \/ (entryAt p place = Some e /\ forall index property, place <> PlaceTry name index property)).
  { intros [selector property|name' index property] e He.
    - right. split; [exact He|discriminate].
    - cbn [entryAt p' fallbackRules] in He.
      destruct (decide (name' = name)) as [->|Hne].
      + left. rewrite lookup_insert_eq in He.
        destruct (blocks !! index) as [tryBlock|] eqn:Hb; [|discriminate].
        destruct (tryBlock !! property) as [[text|e']|] eqn:Ht; try discriminate.
        injection He as <-. eauto 6.
      + right. rewrite lookup_insert_ne in He by auto.
        split; [exact He|]. intros i pr Heq. injection Heq as -> _ _. auto. }
  split; [eapply storeFresh_same; eauto|]. split.
  - intros place e He.
    destruct (Hcase _ _ He) as [(index & property & tryBlock & -> & Hb & Ht)|[Hold _]].
    + destruct (Hbf _ _ Hb _ _ Ht) as (i & Hi & Hk). exists i. split; [lia|exact Hk].
    + eapply isFresh_mono; [exact Hmono|eapply Hfresh, Hold].
  - intros place1 place2 e1 e2 H1 H2 Hk.
    destruct (Hcase _ _ H1) as [(i1 & pr1 & tb1 & -> & Hb1 & Ht1)|[Hold1 Hn1]],
      (Hcase _ _ H2) as [(i2 & pr2 & tb2 & -> & Hb2 & Ht2)|[Hold2 Hn2]].
    + destruct (Hbd _ _ _ _ _ _ _ _ Hb1 Hb2 Ht1 Ht2 Hk) as [-> ->]. reflexivity.
    + destruct (Hbf _ _ Hb1 _ _ Ht1) as (j1 & Hj1 & Hk1).
      destruct (Hfresh _ _ Hold2) as (j2 & Hj2 & Hk2).
      rewrite Hk1, Hk2 in Hk. apply freshKey_inj in Hk; lia.
    + destruct (Hbf _ _ Hb2 _ _ Ht2) as (j2 & Hj2 & Hk2).
      destruct (Hfresh _ _ Hold1) as (j1 & Hj1 & Hk1).
      rewrite Hk1, Hk2 in Hk. apply freshKey_inj in Hk; lia.
    + eapply Hdistinct; eauto.
Qed.

Lemma getPositionFallbackRules_fresh (node : Node) (st : Store) :
  forall name blocks,
    (getPositionFallbackRules h uuid generate generateValue node st).1
    = Some (name, blocks) ->
    uuidCalls (getPositionFallbackRules h uuid generate generateValue node st).2 <= N ->
    blocksFresh (uuidCalls st)
      (uuidCalls (getPositionFallbackRules h uuid generate generateValue node st).2)
      blocks
    /\ blocksDistinct blocks.
Proof using uuid_distinct.
  intros name blocks. unfold getPositionFallbackRules.
  destruct node as [prelude block|name' prelude [children|]|property value];
    try discriminate.
  destruct (isFallbackAtRule _ && truthy prelude)%bool; [|discriminate].
  pose proof (tryAtRules_fresh children st) as Hfresh.
  destruct (tryAtRules h uuid generate generateValue children st) as [tryBlocks st1].
  cbn [fst snd] in *. intros Heq. injection Heq as _ <-. exact Hfresh.
Qed.

Lemma registerAnchorName_fresh (rule : option string) (node : Node) (p : Pass) :
  Fresh1 p -> Fresh1 (registerAnchorName rule node p).
Proof.
  intros HF. unfold registerAnchorName.
  destruct (getAnchorNameData node rule) as [[[anchorName|] anchorSelector]|];
    try exact HF.
  destruct (negb (String.eqb anchorName "")); [|exact HF].
  cbv zeta.
  destruct (getProperty (anchorNames (store p)) anchorName);
    [|apply Fresh1_status, HF|];
    (apply Fresh1_store; [cbn; lia| |exact HF]);
    intros _ Hs property e He; cbn in He |- *; apply (Hs _ _ He).
Qed.

Lemma registerFallbackName_fresh (rule : option string) (node : Node) (p : Pass) :
  Fresh1 p -> Fresh1 (registerFallbackName rule node p).
Proof.
  intros HF. unfold registerFallbackName.
  destruct (getPositionFallbackDeclaration node rule) as [[[fbName|] fbSelector]|];
    try exact HF.
  destruct (_ && _)%bool; [|exact HF].
  apply Fresh1_names, HF.
Qed.

Lemma registerFallbackRules_fresh (node : Node) (p : Pass) :
  Fresh1 p -> Fresh1 (registerFallbackRules h uuid generate generateValue node p).
Proof using uuid_distinct.
  intros HF. unfold registerFallbackRules.
  pose proof (getPositionFallbackRules_registries h uuid generate generateValue node
                (store p)) as Hsame.
  pose proof (getPositionFallbackRules_fresh node (store p)) as Hblocks.
  destruct (getPositionFallbackRules h uuid generate generateValue node (store p))
    as [[[fbRuleName fbTryBlocks]|] st]; cbn [fst snd] in *.
  - destruct (negb (Nat.eqb (length fbTryBlocks) 0)).
    + destruct (String.eqb fbRuleName "__proto__").
      * apply Fresh1_status. apply Fresh1_store; [apply Hsame| |exact HF].
        intros _. apply storeFresh_same, Hsame.
      * apply Fresh1_rules; [exact Hsame| |exact HF].
        apply (Hblocks _ _ eq_refl).
    + apply Fresh1_store; [apply Hsame| |exact HF].
      intros _. apply storeFresh_same, Hsame.
  - apply Fresh1_store; [apply Hsame| |exact HF].
    intros _. apply storeFresh_same, Hsame.
Qed.

Lemma enterNode1_fresh (rule : option string) (node : Node) (p : Pass) :
  Fresh1 p -> Fresh1 (enterNode1 h uuid generate generateValue rule node p).
Proof using uuid_distinct.
  intros HF. unfold enterNode1. cbv zeta.
  destruct (negb (isRunning p)); [exact HF|].
  pose proof (registerAnchorName_fresh rule node p HF) as H1.
  destruct (negb (isRunning (registerAnchorName rule node p))); [exact H1|].
  apply registerFallbackRules_fresh, registerFallbackName_fresh, H1.
Qed.

Lemma firstWalk_fresh (styleData : list StyleData) (p : Pass) :
  Fresh1 p ->
  Fresh1 (walkSheets (enterValue1 h uuid generate)
            (enterNode1 h uuid generate generateValue) styleData p).2.
Proof using uuid_distinct.
  apply walkSheets_keeps.
  - intros q c. apply Fresh1_flag.
  - intros rule declaration node q. apply enterValue1_fresh.
  - intros rule node q. apply enterNode1_fresh.
Qed.

(** *** The second walk *)

(** A key the second walk made for [property]: the key of a recorded
    assignment, a dash, and the property; or, where the [var()] names a
    member of [Object.prototype], [undefined], a dash, and the property. *)
Definition isClone (st : Store) (property : string) (e : AnchorFunction) : Prop :=
  (exists customProp a,
     customPropAssignments st !! customProp = Some a
     /\ key e = key a ++ "-" ++ property)
  \/ key e = "undefined" ++ "-" ++ property.

(** The second walk, on the store [st] the first walk left: a reference is
    one of the first walk, with a key of its own, or a declaration whose key
    the second walk made. *)
Definition Fresh2 (st : Store) (p : Pass) : Prop :=
  store p = st
  /\ (forall place e,
        entryAt p place = Some e ->
        isFresh (uuidCalls st) e
        \/ exists selector property,
             place = PlaceDeclaration selector property /\ isClone st property e)
  /\ (forall place1 place2 e1 e2,
        entryAt p place1 = Some e1 -> entryAt p place2 = Some e2 ->
        isFresh (uuidCalls st) e1 -> isFresh (uuidCalls st) e2 ->
        key e1 = key e2 -> place1 = place2).

Lemma clone_not_fresh (st : Store) (property : string) (e : AnchorFunction) :
  uuidCalls st <= N -> storeFresh st ->
  isClone st property e -> isFresh (uuidCalls st) e -> False.
Proof using uuid_length.
  intros HN Hs [(customProp & a & Ha & Hk)|Hk] (i & Hi & Hki).
  - destruct (Hs _ _ Ha) as (j & Hj & Hkj).
    rewrite Hki, Hkj in Hk. apply freshKey_not_clone in Hk; [exact Hk|lia|lia].
  - rewrite Hki in Hk. apply freshKey_not_undefined in Hk. exact Hk.
Qed.

(** Two keys the second walk made are equal for one property only. *)
Lemma isClone_property (st : Store) (property1 property2 : string)
    (e1 e2 : AnchorFunction) :
  uuidCalls st <= N -> storeFresh st ->
  isClone st property1 e1 -> isClone st property2 e2 -> key e1 = key e2 ->
  property1 = property2.
Proof using uuid_length.
  intros HN Hs [(c1 & b1 & Hb1 & Hk1)|Hk1] [(c2 & b2 & Hb2 & Hk2)|Hk2] Hk;
    rewrite Hk1, Hk2 in Hk.
  - destruct (Hs _ _ Hb1) as (j1 & Hj1 & Hkj1).
    destruct (Hs _ _ Hb2) as (j2 & Hj2 & Hkj2).
    rewrite Hkj1, Hkj2 in Hk. eapply (clone_inj j1 j2); [lia|lia|exact Hk].
  - destruct (Hs _ _ Hb1) as (j1 & Hj1 & Hkj1).
    rewrite Hkj1 in Hk. unfold freshKey in Hk. cbn in Hk. discriminate Hk.
  - destruct (Hs _ _ Hb2) as (j2 & Hj2 & Hkj2).
    rewrite Hkj2 in Hk. unfold freshKey in Hk. cbn in Hk. discriminate Hk.
  - cbn in Hk. injection Hk as Hk. exact Hk.
Qed.

Lemma Fresh2_status (st : Store) (s : Status) (p : Pass) :
  Fresh2 st p -> Fresh2 st (withStatus s p).
Proof.
  intros (Hst & Hcase & Hdistinct). split; [exact Hst|]. split.
  - intros place e. rewrite entryAt_withStatus. apply Hcase.
  - intros place1 place2 e1 e2. rewrite !entryAt_withStatus. apply Hdistinct.
Qed.

Lemma Fresh2_set (st : Store) (selector property : string) (data : AnchorFunction)
    (p : Pass) :
  uuidCalls st <= N -> storeFresh st ->
  isClone st property data ->
  Fresh2 st p -> Fresh2 st (setAnchorFunction selector property data p).
Proof using uuid_length.
  intros HN Hs Hclone HF.
  destruct (String.eqb selector "__proto__") eqn:Hproto.
  { unfold setAnchorFunction. rewrite Hproto. apply Fresh2_status, HF. }
  destruct HF as (Hst & Hcase & Hdistinct).
  split; [rewrite setAnchorFunction_store; exact Hst|]. split.
  - intros place e He. rewrite entryAt_set in He by exact Hproto.
    destruct place as [selector' property'|name' index property']; [|eauto].
    destruct (decide _) as [[-> ->]|_]; [|eauto].
    injection He as <-. right. eauto.
  - intros place1 place2 e1 e2 H1 H2 Hf1 Hf2 Hk.
    rewrite entryAt_set in H1, H2 by exact Hproto.
    destruct place1 as [s1 p1|n1 i1 p1], place2 as [s2 p2|n2 i2 p2];
      repeat match goal with
      | H : (if decide ?P then _ else _) = _ |- _ => destruct (decide P) as [[-> ->]|?]
      end;
      try reflexivity;
      repeat match goal with
      | H : Some data = Some _ |- _ => injection H as <-
      end;
      try (exfalso; eapply clone_not_fresh; eauto; fail);
      eapply Hdistinct; eauto.
Qed.

Lemma enterValue2_fresh (st : Store) (rule : option string) (property : string)
    (node : ValueNode) (p : Pass) :
  uuidCalls st <= N -> storeFresh st ->
  Fresh2 st p -> Fresh2 st (enterValue2 rule property node p).2.
Proof using uuid_length.
  intros HN Hs HF. unfold enterValue2.
  destruct (negb (isRunning p)); [exact HF|].
  destruct (_ && _)%bool; [|exact HF].
  cbv zeta.
  pose proof HF as (Hst & _ & _).
  destruct (getProperty (customPropAssignments (store p)) _) as [a| |] eqn:Ha;
    cbn [cloneFor snd]; [| |exact HF].
  - apply getProperty_Own in Ha. rewrite Hst in Ha.
    apply Fresh2_set; [exact HN|exact Hs| |exact HF].
    left. eexists _, a. split; [exact Ha|reflexivity].
  - apply Fresh2_set; [exact HN|exact Hs| |exact HF].
    right. reflexivity.
Qed.

Lemma Fresh2_flag (st : Store) (p : Pass) (c : bool) :
  Fresh2 st p ->
  Fresh2 st {| store := store p; anchorFunctions := anchorFunctions p;
               fallbackNames := fallbackNames p; fallbackRules := fallbackRules p;
               astChanged := c; status := status p |}.
Proof.
  intros (Hst & Hcase & Hdistinct). split; [exact Hst|]. split.
  - intros place e He. apply (Hcase place). destruct place; exact He.
  - intros place1 place2 e1 e2 H1 H2. apply (Hdistinct place1 place2).
    + destruct place1; exact H1.
    + destruct place2; exact H2.
Qed.

Lemma Fresh1_Fresh2 (p : Pass) :
  uuidCalls (store p) <= N -> Fresh1 p -> Fresh2 (store p) p.
Proof.
  intros HN HF. destruct (HF HN) as (Hs & Hfresh & Hdistinct).
  split; [reflexivity|]. split; [eauto|eauto].
Qed.

Lemma secondWalk_fresh (st : Store) (styleData : list StyleData) (p : Pass) :
  uuidCalls st <= N -> storeFresh st ->
  Fresh2 st p -> Fresh2 st (walkSheets enterValue2 enterNode2 styleData p).2.
Proof using uuid_length.
  intros HN Hs. apply walkSheets_keeps.
  - intros q c. apply Fresh2_flag.
  - intros rule declaration node q. apply enterValue2_fresh; assumption.
  - intros rule node q Hq. exact Hq.
Qed.

(** *** The rule model [parseCSS] returns *)

(** A declaration and the try blocks of a selector in a rule model, and in
    what a run of [parseCSS] ended with: nothing when it threw. *)
Definition declarationIn (rules : gmap string AnchorPosition)
    (selector property : string) : option AnchorFunction :=
  match rules !! selector with
  | Some {| declarations := Some anchorFns |} => anchorFns !! property
  | _ => None
  end.

Definition fallbacksIn (rules : gmap string AnchorPosition) (selector : string)
    : option (list TryBlock) :=
  match rules !! selector with
  | Some position => fallbacks position
  | None => None
  end.

Definition declarationAt (outcome : Outcome) (selector property : string)
    : option AnchorFunction :=
  match outcome with
  | Returned rules => declarationIn rules selector property
  | _ => None
  end.

Definition positionAt (outcome : Outcome) (selector : string) : option AnchorPosition :=
  match outcome with
  | Returned rules => rules !! selector
  | _ => None
  end.

Definition fallbacksOf (outcome : Outcome) (selector : string) : option (list TryBlock) :=
  match outcome with
  | Returned rules => fallbacksIn rules selector
  | _ => None
  end.

Definition tryReference (blocks : option (list TryBlock)) (index : nat)
    (property : string) : option AnchorFunction :=
  match blocks with
  | Some blocks =>
      match blocks !! index with
      | Some tryBlock =>
          match tryBlock !! property with
          | Some (TryAnchor e) => Some e
          | _ => None
          end
      | None => None
      end
  | None => None
  end.

Definition tryReferenceAt (outcome : Outcome) (selector : string)
    (index : nat) (property : string) : option AnchorFunction :=
  tryReference (fallbacksOf outcome selector) index property.

Lemma fallbackPositions_lookup (names : list (string * string))
    (rules : gmap string (list TryBlock)) (selector : string) (position : AnchorPosition) :
  fallbackPositions names rules !! selector = Some position ->
  declarations position = None
  /\ exists name blocks, rules !! name = Some blocks /\ fallbacks position = Some blocks.
Proof.
  unfold fallbackPositions.
  assert (Hgen : forall acc : gmap string AnchorPosition,
    (forall sel pos, acc !! sel = Some pos ->
       declarations pos = None
       /\ exists name blocks, rules !! name = Some blocks /\ fallbacks pos = Some blocks) ->
    forall sel pos,
      fold_left
        (fun validPositions '(targetSel, fallbackName) =>
           match rules !! fallbackName with
           | Some positionFallbacks =>
               <[targetSel := {| declarations := None;
                                 fallbacks := Some positionFallbacks |}]> validPositions
           | None => validPositions
           end) names acc !! sel = Some pos ->
      declarations pos = None
      /\ exists name blocks, rules !! name = Some blocks /\ fallbacks pos = Some blocks).
  { induction names as [|[targetSel fallbackName] names IH]; intros acc Hacc sel pos;
      [apply Hacc|].
    cbn [fold_left]. apply IH.
    destruct (rules !! fallbackName) as [blocks|] eqn:Hb; [|exact Hacc].
    intros sel' pos' Hl. destruct (decide (targetSel = sel')) as [->|Hne].
    - rewrite lookup_insert_eq in Hl. injection Hl as <-. cbn. eauto.
    - rewrite lookup_insert_ne in Hl by exact Hne. eauto. }
  apply Hgen. intros sel pos Hl. rewrite lookup_empty in Hl. discriminate.
Qed.

(** [anchorEl] is written into the shared try blocks; their keys stay. *)
Lemma bindFallbacks_keys (st : Store) (names : list (string * string))
    (rules bound : gmap string (list TryBlock)) (name : string) (index : nat)
    (property : string) (e : AnchorFunction) :
  bindFallbacks h validatedForPositioning st names rules = Some bound ->
  tryReference (bound !! name) index property = Some e ->
  exists e0, tryReference (rules !! name) index property = Some e0 /\ key e = key e0.
Proof.
  revert rules e.
  induction names as [|[targetSel fallbackName] names IH]; intros rules e Hbound He.
  { injection Hbound as <-. eauto. }
  cbn [bindFallbacks] in Hbound.
  destruct (getProperty rules fallbackName) as [blocks| |] eqn:Hb;
    [|discriminate|eauto].
  apply getProperty_Own in Hb.
  destruct (IH _ _ Hbound He) as (e1 & He1 & Hk1).
  destruct (decide (fallbackName = name)) as [->|Hne];
    [|rewrite lookup_insert_ne in He1 by exact Hne; eauto].
  rewrite lookup_insert_eq in He1. rewrite Hb.
  cbn [tryReference] in *. rewrite list_lookup_fmap in He1.
  destruct (blocks !! index) as [tryBlock|]; [|discriminate].
  cbn [fmap option_fmap option_map] in He1. rewrite lookup_fmap in He1.
  destruct (tryBlock !! property) as [[text|e0]|]; try discriminate.
  cbn in He1. injection He1 as <-. exists e0. split; [reflexivity|exact Hk1].
Qed.

Lemma ruleModel_lookup (p : Pass) (bound : gmap string (list TryBlock))
    (selector : string) :
  ruleModel h validatedForPositioning p bound !! selector
  = withDeclarations
      (fallbackPositions (fallbackNames p) bound !! selector)
      (anchorFunctions p !! selector
         ≫= boundDeclarations h validatedForPositioning (store p) selector).
Proof.
  unfold ruleModel. rewrite lookup_merge, map_lookup_imap.
  destruct (fallbackPositions _ _ !! selector), (anchorFunctions p !! selector ≫= _);
    reflexivity.
Qed.

Lemma ruleModel_declaration (p : Pass) (bound : gmap string (list TryBlock))
    (selector property : string) (e : AnchorFunction) :
  declarationIn (ruleModel h validatedForPositioning p bound) selector property = Some e ->
  exists e0, entryAt p (PlaceDeclaration selector property) = Some e0 /\ key e = key e0.
Proof.
  unfold declarationIn. rewrite ruleModel_lookup. cbn [entryAt].
  destruct (anchorFunctions p !! selector) as [anchorFns|]; cbn [mbind option_bind].
  - unfold boundDeclarations. destruct (bool_decide (anchorFns = ∅)).
    + cbn [withDeclarations].
      destruct (fallbackPositions _ _ !! selector) as [position|] eqn:Hp; [|discriminate].
      apply fallbackPositions_lookup in Hp as [Hd _].
      destruct position as [d f]. cbn in Hd. subst d. discriminate.
    + cbn [withDeclarations declarations]. rewrite lookup_fmap.
      destruct (anchorFns !! property) as [e0|]; [|discriminate].
      cbn. intros He. injection He as <-. eauto.
  - cbn [withDeclarations].
    destruct (fallbackPositions _ _ !! selector) as [position|] eqn:Hp; [|discriminate].
    apply fallbackPositions_lookup in Hp as [Hd _].
    destruct position as [d f]. cbn in Hd. subst d. discriminate.
Qed.

Lemma ruleModel_fallbacks (p : Pass) (bound : gmap string (list TryBlock))
    (selector : string) (blocks : list TryBlock) :
  fallbacksIn (ruleModel h validatedForPositioning p bound) selector = Some blocks ->
  exists name, bound !! name = Some blocks.
Proof.
  unfold fallbacksIn. rewrite ruleModel_lookup.
  destruct (fallbackPositions _ _ !! selector) as [position|] eqn:Hp.
  - apply fallbackPositions_lookup in Hp as [_ (name & blocks' & Hn & Hf)].
    destruct (anchorFunctions p !! selector ≫= _); cbn; rewrite Hf;
      intros Heq; injection Heq as <-; eauto.
  - destruct (anchorFunctions p !! selector ≫= _); cbn; discriminate.
Qed.

Lemma assemble_declaration (p : Pass) (selector property : string) (e : AnchorFunction) :
  declarationAt (assemble h validatedForPositioning p) selector property = Some e ->
  exists e0, entryAt p (PlaceDeclaration selector property) = Some e0 /\ key e = key e0.
Proof.
  destruct (assemble h validatedForPositioning p) as [rules| |] eqn:Hrules;
    try discriminate.
  apply assemble_Returned in Hrules as (_ & bound & _ & ->).
  apply ruleModel_declaration.
Qed.

Lemma assemble_try (p : Pass) (selector : string) (index : nat) (property : string)
    (e : AnchorFunction) :
  tryReferenceAt (assemble h validatedForPositioning p) selector index property = Some e ->
  exists name e0 bound,
    entryAt p (PlaceTry name index property) = Some e0 /\ key e = key e0
    /\ bindFallbacks h validatedForPositioning (store p) (fallbackNames p)
         (fallbackRules p) = Some bound
    /\ fallbacksOf (assemble h validatedForPositioning p) selector = bound !! name.
Proof.
  unfold tryReferenceAt.
  destruct (assemble h validatedForPositioning p) as [rules| |] eqn:Hrules;
    try discriminate.
  apply assemble_Returned in Hrules as (_ & bound & Hbound & ->).
  cbn [fallbacksOf]. intros He.
  destruct (fallbacksIn _ selector) as [blocks|] eqn:Hf; [|discriminate].
  destruct (ruleModel_fallbacks _ _ _ _ Hf) as [name Hn].
  rewrite <- Hn in He.
  destruct (bindFallbacks_keys _ _ _ _ _ _ _ _ Hbound He) as (e0 & He0 & Hk).
  exists name, e0, bound. split; [|split; [exact Hk|split; [exact Hbound|congruence]]].
  cbn [entryAt]. unfold tryReference in He0.
  destruct (fallbackRules p !! name); exact He0.
Qed.

Lemma isFresh_key (n : nat) (e e' : AnchorFunction) :
  key e = key e' -> isFresh n e -> isFresh n e'.
Proof. intros Hk (i & Hi & Hki). exists i. split; [exact Hi|congruence]. Qed.

Lemma isClone_key (st : Store) (property : string) (e e' : AnchorFunction) :
  key e = key e' -> isClone st property e -> isClone st property e'.
Proof.
  intros Hk [(c & a & Ha & Hka)|Hka]; [left|right]; [|congruence].
  exists c, a. split; [exact Ha|congruence].
Qed.

Lemma parseCSS_fresh (styleData : list StyleData) (st : Store) :
  let result :=
    parseCSS h uuid generate generateValue validatedForPositioning styleData st in
  storeFresh st -> uuidCalls result.2 <= N ->
  exists p,
    result.1.1 = assemble h validatedForPositioning p
    /\ result.2 = store p
    /\ storeFresh (store p)
    /\ Fresh2 (store p) p.
Proof using uuid_distinct uuid_length.
  cbv zeta. rewrite parseCSS_eq. unfold walks. cbv zeta. intros Hs HN.
  assert (H0 : Fresh1 (initialPass st)).
  { intros _. split; [exact Hs|]. split.
    - intros [selector property|name index property] e He; cbn in He;
        rewrite lookup_empty in He; discriminate.
    - intros [selector property|name index property] place2 e1 e2 He; cbn in He;
        rewrite lookup_empty in He; discriminate. }
  pose proof (firstWalk_fresh styleData _ H0) as H1.
  destruct (walkSheets (enterValue1 h uuid generate)
              (enterNode1 h uuid generate generateValue) styleData (initialPass st))
    as [styleData1 p1].
  cbn [fst snd] in *.
  destruct (bool_decide (customPropAssignments (store p1) = ∅) || negb (isRunning p1))%bool.
  - cbn [fst snd] in *. exists p1. destruct (H1 HN) as (Hs1 & _).
    repeat split; try reflexivity; [exact Hs1|apply Fresh1_Fresh2; assumption..].
  - pose proof (walkSheets_keeps (fun p => store p = store p1) enterValue2 enterNode2)
      as Hstore.
    specialize (Hstore ltac:(auto)
      (fun rule declaration node p Hp => eq_trans (enterValue2_store _ _ _ _) Hp)
      (fun rule node p Hp => Hp) styleData1 p1 eq_refl).
    pose proof (fun H1 H2 => secondWalk_fresh (store p1) styleData1 p1 H1 H2) as H2.
    destruct (walkSheets enterValue2 enterNode2 styleData1 p1) as [styleData2 p2].
    cbn [fst snd] in *. rewrite Hstore in *.
    destruct (H1 HN) as (Hs1 & _).
    exists p2. rewrite Hstore.
    repeat split; try reflexivity; try exact Hs1;
      apply H2; try assumption; apply Fresh1_Fresh2; assumption.
Qed.


End Keys.

(** *** One custom property used by two selectors *)

(** [#x { --center: anchor(--a 50%) } #a { top: var(--center) }
     #b { top: var(--center) }] *)
Definition sharedPropertySheet : Parse.StyleData :=
  {| Parse.css :=
       [Parse.Rule "#x"
          [Parse.Declaration "--center"
             [Parse.Function "anchor"
                [Parse.Identifier "--a"; Parse.Percentage "50"]]];
        Parse.Rule "#a"
          [Parse.Declaration "top" [Parse.Function "var" [Parse.Identifier "--center"]]];
        Parse.Rule "#b"
          [Parse.Declaration "top" [Parse.Function "var" [Parse.Identifier "--center"]]]];
     Parse.changed := false |}.



(** [#x { --center: anchor(--a 50%) } #a { top: var(toString) }
     #b { top: var(valueOf) }] *)
Definition prototypeMemberSheet : Parse.StyleData :=
  {| Parse.css :=
       [Parse.Rule "#x"
          [Parse.Declaration "--center"
             [Parse.Function "anchor"
                [Parse.Identifier "--a"; Parse.Percentage "50"]]];
        Parse.Rule "#a"
          [Parse.Declaration "top" [Parse.Function "var" [Parse.Identifier "toString"]]];
        Parse.Rule "#b"
          [Parse.Declaration "top" [Parse.Function "var" [Parse.Identifier "valueOf"]]]];
     Parse.changed := false |}.

(** Two [var()] references that name members of [Object.prototype] are
    taken for uses of an assignment: both declarations get the key
    [undefined-top], and both references are renamed to it. *)
Lemma prototype_member_clones_share_key :
  let result := sampleParseCSS [prototypeMemberSheet] Parse.emptyStore in
  (Parse.key <$> declarationAt result.1.1 "#a" "top") = Some "undefined-top"
  /\ (Parse.key <$> declarationAt result.1.1 "#b" "top") = Some "undefined-top"
  /\ result.1.2
     = [{| Parse.css :=
             [Parse.Rule "#x"
                [Parse.Declaration "--center"
                   [Parse.Function "anchor"
                      [Parse.Identifier "--a"; Parse.Percentage "50"]]];
              Parse.Rule "#a"
                [Parse.Declaration "top"
                   [Parse.Function "var" [Parse.Identifier "undefined-top"]]];
              Parse.Rule "#b"
                [Parse.Declaration "top"
                   [Parse.Function "var" [Parse.Identifier "undefined-top"]]]];
           Parse.changed := true |}].
Proof. vm_compute. repeat split; reflexivity. Qed.
(** ** The arguments of [anchor()] *)

Section AnchorArguments.
Import Parse.

Variable h : Host.
Variable uuid : nat -> string.
Variable generate : ValueNode -> string.

(** [child.type === 'Operator' && child.value === ','] *)
Definition isComma (child : ValueNode) : bool :=
  match child with
  | Operator "," => true
  | _ => false
  end.

(** The text of the nodes after the comma, as the loop builds it. *)
Definition generatedText (children : list ValueNode) : string :=
  fold_left (fun text child => text ++ generate child) children "".

Lemma parseAnchorFnChild_comma (acc : AnchorFnArgs) (idx : nat) (child : ValueNode) :
  foundComma acc = false -> isComma child = true ->
  parseAnchorFnChild h generate acc idx child
  = {| argName := argName acc; argEdge := argEdge acc; argFallback := argFallback acc;
       foundComma := true; argCustomProp := argCustomProp acc |}.
Proof.
  intros Hacc Hc. unfold parseAnchorFnChild. rewrite Hacc.
  destruct child as [name|value|value|value|name children|text]; try discriminate.
  destruct value as [|[[] [] [] [] [] [] [] []] [|]]; try discriminate. reflexivity.
Qed.

Lemma parseAnchorFnChild_argument (acc : AnchorFnArgs) (idx : nat) (child : ValueNode) :
  foundComma acc = false -> isComma child = false ->
  foundComma (parseAnchorFnChild h generate acc idx child) = false
  /\ argFallback (parseAnchorFnChild h generate acc idx child) = argFallback acc.
Proof.
  intros Hacc Hc. unfold parseAnchorFnChild. rewrite Hacc.
  destruct child as [name|value|value|value|name children|text];
    try (destruct idx as [|[|idx]]; cbn;
         repeat match goal with |- context [if ?b then _ else _] => destruct b end;
         cbn; auto; fail).
  destruct value as [|[[] [] [] [] [] [] [] []] [|]]; try discriminate;
    destruct idx as [|[|idx]]; cbn; auto.
Qed.

(** After the comma every node is text of the fallback. *)
Lemma parseAnchorFnChildren_after_comma (rest : list ValueNode) :
  forall acc idx,
    foundComma acc = true ->
    parseAnchorFnChildren h generate acc idx rest
    = {| argName := argName acc; argEdge := argEdge acc;
         argFallback := fold_left (fun text child => text ++ generate child) rest
                          (argFallback acc);
         foundComma := true; argCustomProp := argCustomProp acc |}.
Proof.
  induction rest as [|child rest IH]; intros acc idx Hacc.
  - cbn. destruct acc. cbn in Hacc. subst. reflexivity.
  - cbn [parseAnchorFnChildren fold_left]. unfold parseAnchorFnChild at 1. rewrite Hacc.
    rewrite IH by reflexivity. reflexivity.
Qed.

(** The arguments before the comma decide everything but the fallback. *)
Lemma parseAnchorFnChildren_split (args rest : list ValueNode) :
  forall acc idx,
    foundComma acc = false ->
    Forall (fun child => isComma child = false) args ->
    let before := parseAnchorFnChildren h generate acc idx args in
    foundComma before = false
    /\ argFallback before = argFallback acc
    /\ parseAnchorFnChildren h generate acc idx (args ++ Operator "," :: rest)
       = {| argName := argName before; argEdge := argEdge before;
            argFallback := fold_left (fun text child => text ++ generate child) rest
                             (argFallback acc);
            foundComma := true; argCustomProp := argCustomProp before |}.
Proof.
  induction args as [|child args IH]; intros acc idx Hacc Hargs; cbv zeta.
  - cbn [app parseAnchorFnChildren]. split; [exact Hacc|]. split; [reflexivity|].
    rewrite parseAnchorFnChild_comma by (first [exact Hacc|reflexivity]).
    rewrite parseAnchorFnChildren_after_comma by reflexivity. reflexivity.
  - apply Forall_cons in Hargs as [Hchild Hargs].
    destruct (parseAnchorFnChild_argument acc idx child Hacc Hchild) as [Hc Hf].
    cbn [app parseAnchorFnChildren].
    destruct (IH (parseAnchorFnChild h generate acc idx child) (S idx) Hc Hargs)
      as (Hc' & Hf' & Heq).
    split; [exact Hc'|]. split; [congruence|]. rewrite Heq, Hf. reflexivity.
Qed.

(** X1: the fallback of an [anchor()] call is the text after its first comma,
    and [0px] when there is no comma or nothing after it; the anchor name,
    the custom property and the side are read before the comma, and are
    what they would be without the fallback. *)
Theorem fallback_is_text_after_first_comma (args rest : list ValueNode) (st : Store) :
  Forall (fun child => isComma child = false) args ->
  let plain := (parseAnchorFn h uuid generate args st).1.1 in
  let data := (parseAnchorFn h uuid generate (args ++ Operator "," :: rest) st).1.1 in
  fallbackValue plain = Some "0px"
  /\ fallbackValue data
     = Some (if String.eqb (generatedText rest) "" then "0px" else generatedText rest)
  /\ anchorName data = anchorName plain
  /\ customPropName data = customPropName plain
  /\ anchorEdge data = anchorEdge plain
  /\ key data = key plain.
Proof.
  intros Hargs. cbv zeta. unfold parseAnchorFn. cbv zeta. cbn [fst snd].
  destruct (parseAnchorFnChildren_split args rest
              {| argName := None; argEdge := None; argFallback := "";
                 foundComma := false; argCustomProp := None |} 0 eq_refl Hargs)
    as (_ & Hf & Heq).
  rewrite Heq, Hf. cbn. repeat split.
Qed.

End AnchorArguments.

(** [anchor(--my-anchor bottom, 10px)] *)
Lemma fallback_is_text_after_first_comma_witness :
  Parse.fallbackValue
    (Parse.parseAnchorFn sampleHost sampleUuid sampleGenerate
       ([Parse.Identifier "--my-anchor"; Parse.Identifier "bottom"]
        ++ Parse.Operator "," :: [Parse.Leaf "10px"]) Parse.emptyStore).1.1
  = Some "10px".
Proof.
  refine (eq_trans
    (proj1 (proj2 (fallback_is_text_after_first_comma sampleHost sampleUuid sampleGenerate
                     [Parse.Identifier "--my-anchor"; Parse.Identifier "bottom"]
                     [Parse.Leaf "10px"] Parse.emptyStore _))) _).
  - repeat constructor.
  - reflexivity.
Defined.

(** ** Where the walker calls [enter] *)

Section WalkReach.
Import Parse.
Context {S : Type}.
Variable enterValue : option string -> string -> ValueNode -> S -> Visit * S.
Variable enterNode : option string -> Node -> S -> S.

(** [occurs rule' target rule node]: walking [node] below the rule [rule],
    the walker comes to [target] below the rule [rule']: the enclosing rule
    is the nearest [Rule] above, and an at-rule does not change it. *)
Inductive occurs (rule' : option string) (target : Node) : option string -> Node -> Prop :=
| occurs_here : occurs rule' target rule' target
| occurs_rule (rule : option string) (prelude : string) (block : list Node) (child : Node) :
    child ∈ block -> occurs rule' target (Some prelude) child ->
    occurs rule' target rule (Rule prelude block)
| occurs_atrule (rule : option string) (name : string) (prelude : option string)
    (block : list Node) (child : Node) :
    child ∈ block -> occurs rule' target rule child ->
    occurs rule' target rule (Atrule name prelude (Some block)).

Variable P : S -> Prop.
Hypothesis enterValue_keeps :
  forall rule declaration node s, P s -> P (enterValue rule declaration node s).2.
Hypothesis enterNode_keeps : forall rule node s, P s -> P (enterNode rule node s).

Lemma walkNodes_keeps (l : list Node) :
  forall rule s, P s -> P (walkNodes enterValue enterNode rule l s).2.
Proof using enterValue_keeps enterNode_keeps.
  induction l as [|child l IH]; intros rule s Hs; [exact Hs|].
  cbn [walkNodes].
  pose proof (walkNode_keeps enterValue enterNode P enterValue_keeps enterNode_keeps
                child rule s Hs) as Hc.
  destruct (walkNode enterValue enterNode rule child s) as [c' s1].
  specialize (IH rule s1 Hc).
  destruct (walkNodes enterValue enterNode rule l s1) as [l' s2]. exact IH.
Qed.

(** Once [enter] has been called on a node, the walk below it keeps [P]. *)
Lemma walkNode_entered (rule : option string) (node : Node) (s : S) :
  P (enterNode rule node s) -> P (walkNode enterValue enterNode rule node s).2.
Proof using enterValue_keeps enterNode_keeps.
  intros Hs. rewrite walkNode_eq. cbv zeta.
  destruct node as [prelude block|name prelude [block|]|property value].
  - pose proof (walkNodes_keeps block (Some prelude) _ Hs) as Hb.
    destruct (walkNodes enterValue enterNode (Some prelude) block _) as [b' s1]. exact Hb.
  - pose proof (walkNodes_keeps block rule _ Hs) as Hb.
    destruct (walkNodes enterValue enterNode rule block _) as [b' s1]. exact Hb.
  - exact Hs.
  - rewrite walkValues_eq.
    pose proof (walkChildren_keeps enterValue P enterValue_keeps value rule property
                  None _ Hs) as Hv.
    destruct (walkChildren enterValue rule property None value _) as [v' s1]. exact Hv.
Qed.

Lemma walkNodes_elem (l : list Node) (child : Node) (rule : option string) :
  child ∈ l ->
  (forall s, P (walkNode enterValue enterNode rule child s).2) ->
  forall s, P (walkNodes enterValue enterNode rule l s).2.
Proof using enterValue_keeps enterNode_keeps.
  intros Hin Hchild. induction l as [|c l IH]; intros s; [inversion Hin|].
  cbn [walkNodes]. apply elem_of_cons in Hin as [<-|Hin].
  - specialize (Hchild s).
    destruct (walkNode enterValue enterNode rule child s) as [c' s1].
    pose proof (walkNodes_keeps l rule s1 Hchild) as Hl.
    destruct (walkNodes enterValue enterNode rule l s1) as [l' s2]. exact Hl.
  - destruct (walkNode enterValue enterNode rule c s) as [c' s1].
    specialize (IH Hin s1).
    destruct (walkNodes enterValue enterNode rule l s1) as [l' s2]. exact IH.
Qed.

(** What [enter] on [target] establishes, and every call keeps, holds after
    the walk of a tree in which [target] occurs. *)
Lemma walkNode_establishes (rule' : option string) (target : Node)
    (rule : option string) (node : Node) :
  occurs rule' target rule node ->
  (forall s, P (enterNode rule' target s)) ->
  forall s, P (walkNode enterValue enterNode rule node s).2.
Proof using enterValue_keeps enterNode_keeps.
  intros Hocc Hest.
  induction Hocc as [|rule prelude block child Hin _ IH
                     |rule name prelude block child Hin _ IH]; intros s.
  - apply walkNode_entered, Hest.
  - rewrite walkNode_eq. cbv zeta.
    pose proof (walkNodes_elem block child (Some prelude) Hin IH
                  (enterNode rule (Rule prelude block) s)) as Hb.
    destruct (walkNodes enterValue enterNode (Some prelude) block _) as [b' s1]. exact Hb.
  - rewrite walkNode_eq. cbv zeta.
    pose proof (walkNodes_elem block child rule Hin IH
                  (enterNode rule (Atrule name prelude (Some block)) s)) as Hb.
    destruct (walkNodes enterValue enterNode rule block _) as [b' s1]. exact Hb.
Qed.

Lemma walk_establishes (rule' : option string) (target : Node)
    (ast : list Node) (node : Node) :
  node ∈ ast ->
  occurs rule' target None node ->
  (forall s, P (enterNode rule' target s)) ->
  forall s, P (walk enterValue enterNode ast s).2.
Proof using enterValue_keeps enterNode_keeps.
  intros Hin Hocc Hest s. rewrite walk_eq.
  apply (walkNodes_elem ast node None Hin).
  apply (walkNode_establishes rule' target None node Hocc Hest).
Qed.

End WalkReach.

(** ** Declared anchor names *)

Section DeclaredAnchors.
Import Parse.

Variable h : Host.
Variable uuid : nat -> string.
Variable generate : ValueNode -> string.
Variable generateValue : list ValueNode -> string.
Variable validatedForPositioning : option Element -> Candidates -> option Element.

(** [anchorNames[name]] includes [selector]. *)
Definition registered (name selector : string) (st : Store) : Prop :=
  exists selectors, anchorNames st !! name = Some selectors /\ selector ∈ selectors.

Lemma registered_extends (name selector : string) (st st' : Store) :
  storeExtends st st' -> registered name selector st -> registered name selector st'.
Proof.
  intros (Hnames & _) (selectors & Hs & Hin).
  destruct (Hnames _ _ Hs) as [more Hmore].
  exists (selectors ++ more)%list. split; [exact Hmore|].
  apply elem_of_app. left. exact Hin.
Qed.

(** [anchor-name: name] in a rule for [selector], as the tree has it. *)
Definition anchorNameDeclaration (name : string) (more : list ValueNode) : Node :=
  Declaration "anchor-name" (Identifier name :: more).

(** A pass that is still running has registered [selector] under [name]. *)
Definition registeredIfRunning (name selector : string) (p : Pass) : Prop :=
  isRunning p = true -> registered name selector (store p).

Lemma registerAnchorName_registers (name selector : string) (more : list ValueNode)
    (p : Pass) :
  name <> "" -> selector <> "" ->
  registeredIfRunning name selector
    (registerAnchorName (Some selector) (anchorNameDeclaration name more) p).
Proof.
  intros Hname Hsel. unfold registeredIfRunning, registerAnchorName, anchorNameDeclaration.
  cbn. rewrite (eqb_empty_false _ Hsel). cbn. rewrite (eqb_empty_false _ Hname).
  cbn. destruct (getProperty (anchorNames (store p)) name) as [selectors| |];
    [|discriminate|]; intros _; unfold registered; cbn [store withStore anchorNames];
    rewrite lookup_insert_eq.
  - exists (selectors ++ [selector])%list. split; [reflexivity|].
    apply elem_of_app. right. apply list_elem_of_singleton. reflexivity.
  - exists [selector]. split; [reflexivity|].
    apply list_elem_of_singleton. reflexivity.
Qed.

Lemma enterNode1_registers (name selector : string) (more : list ValueNode) (p : Pass) :
  name <> "" -> selector <> "" ->
  registeredIfRunning name selector
    (enterNode1 h uuid generate generateValue (Some selector)
       (anchorNameDeclaration name more) p).
Proof.
  intros Hname Hsel Hrun.
  pose proof (registerAnchorName_registers name selector more p Hname Hsel) as H1.
  revert Hrun. unfold enterNode1. cbv zeta.
  destruct (isRunning p) eqn:Hp; [|cbn [negb]; rewrite Hp; discriminate].
  cbn [negb].
  destruct (isRunning (registerAnchorName (Some selector)
                         (anchorNameDeclaration name more) p)) eqn:Hp1;
    [|cbn [negb]; rewrite Hp1; discriminate].
  cbn [negb]. intros _. specialize (H1 Hp1).
  eapply registered_extends; [|exact H1].
  apply sameRegistries_extends.
  pose proof (registerFallbackRules_registries h uuid generate generateValue
                (anchorNameDeclaration name more)
                (registerFallbackName (Some selector) (anchorNameDeclaration name more)
                   (registerAnchorName (Some selector)
                      (anchorNameDeclaration name more) p))) as H3.
  rewrite registerFallbackName_store in H3. exact H3.
Qed.

Lemma enterNode1_keeps_registered (name selector : string) (rule : option string)
    (node : Node) (p : Pass) :
  registeredIfRunning name selector p ->
  registeredIfRunning name selector (enterNode1 h uuid generate generateValue rule node p).
Proof.
  intros Hp Hrun. eapply registered_extends; [apply enterNode1_extends|].
  apply Hp. eapply enterNode1_running, Hrun.
Qed.

Lemma enterValue1_keeps_registered (name selector : string) (rule : option string)
    (declaration : string) (node : ValueNode) (p : Pass) :
  registeredIfRunning name selector p ->
  registeredIfRunning name selector
    (enterValue1 h uuid generate rule declaration node p).2.
Proof.
  intros Hp Hrun. eapply registered_extends; [apply enterValue1_extends|].
  apply Hp. eapply enterValue1_running, Hrun.
Qed.

Lemma enterValue2_keeps_registered (name selector : string) (rule : option string)
    (declaration : string) (node : ValueNode) (p : Pass) :
  registeredIfRunning name selector p ->
  registeredIfRunning name selector (enterValue2 rule declaration node p).2.
Proof.
  intros Hp Hrun. rewrite enterValue2_store.
  apply Hp. eapply enterValue2_running, Hrun.
Qed.

Lemma firstWalk_registers (styleData : list StyleData) (sheet : StyleData) (node : Node)
    (name selector : string) (more : list ValueNode) :
  sheet ∈ styleData -> node ∈ css sheet ->
  occurs (Some selector) (anchorNameDeclaration name more) None node ->
  name <> "" -> selector <> "" ->
  forall p,
    registeredIfRunning name selector
      (walkSheets (enterValue1 h uuid generate)
         (enterNode1 h uuid generate generateValue) styleData p).2.
Proof.
  intros Hsheet Hnode Hocc Hname Hsel.
  set (P := registeredIfRunning name selector).
  assert (HV : forall rule declaration node p,
            P p -> P (enterValue1 h uuid generate rule declaration node p).2).
  { intros rule declaration n p. apply enterValue1_keeps_registered. }
  assert (HN : forall rule node p,
            P p -> P (enterNode1 h uuid generate generateValue rule node p)).
  { intros rule n p. apply enterNode1_keeps_registered. }
  induction styleData as [|styleObj rest IH]; intros p; [inversion Hsheet|].
  cbn [walkSheets]. unfold walkSheet.
  apply elem_of_cons in Hsheet as [<-|Hsheet].
  - match goal with
    | |- context [walk ?ev ?en (css sheet) ?q] =>
        pose proof (walk_establishes ev en P HV HN (Some selector)
                      (anchorNameDeclaration name more) (css sheet) node Hnode Hocc
                      (fun s => enterNode1_registers name selector more s Hname Hsel) q)
          as Hw;
        destruct (walk ev en (css sheet) q) as [ast q1]
    end.
    cbn [snd] in Hw.
    assert (Hrest : forall sheet' : StyleData,
              P (let '(rest', p') :=
                   walkSheets (enterValue1 h uuid generate)
                     (enterNode1 h uuid generate generateValue) rest q1 in
                 (sheet' :: rest', p')).2).
    { intros sheet'.
      pose proof (walkSheets_keeps P (enterValue1 h uuid generate)
                    (enterNode1 h uuid generate generateValue)
                    ltac:(intros ? ? Hp; exact Hp) HV HN rest q1 Hw) as Hr.
      destruct (walkSheets _ _ rest q1) as [rest' p']. exact Hr. }
    destruct (astChanged q1 && isRunning q1)%bool; apply Hrest.
  - match goal with
    | |- context [walk ?ev ?en (css styleObj) ?q] =>
        destruct (walk ev en (css styleObj) q) as [ast q1]
    end.
    specialize (IH Hsheet).
    assert (Hrest : forall sheet' : StyleData,
              P (let '(rest', p') :=
                   walkSheets (enterValue1 h uuid generate)
                     (enterNode1 h uuid generate generateValue) rest q1 in
                 (sheet' :: rest', p')).2).
    { intros sheet'. specialize (IH q1).
      destruct (walkSheets _ _ rest q1) as [rest' p']. exact IH. }
    destruct (astChanged q1 && isRunning q1)%bool; apply Hrest.
Qed.

(** X2: when [parseCSS] returns, an [anchor-name] declaration in a rule of
    any of the sheets has made the rule's selector a candidate for that
    name: the registry lists the selector under the name, and the binder
    hands the validity check the registry's list for a reference that gives
    the name. (A call that comes to a declaration naming a member of
    [Object.prototype] does not return.) *)
Theorem declared_anchor_is_candidate (styleData : list StyleData) (st : Store)
    (sheet : StyleData) (node : Node) (name selector : string) (more : list ValueNode)
    (target : option Element) (anchorObj : AnchorFunction)
    (rules : gmap string AnchorPosition) :
  sheet ∈ styleData -> node ∈ css sheet ->
  occurs (Some selector) (anchorNameDeclaration name more) None node ->
  name <> "" -> selector <> "" ->
  anchorName anchorObj = Some name ->
  let result :=
    parseCSS h uuid generate generateValue validatedForPositioning styleData st in
  result.1.1 = Returned rules ->
  exists candidates,
    anchorNames result.2 !! name = Some candidates
    /\ selector ∈ candidates
    /\ getAnchorEl h validatedForPositioning result.2 target anchorObj
       = validatedForPositioning target (Selectors candidates).
Proof.
  intros Hsheet Hnode Hocc Hname Hsel Hobj. cbv zeta.
  rewrite parseCSS_eq. cbn [fst snd]. intros Hreturned.
  apply assemble_Returned in Hreturned as [Hrunning _].
  assert (Hwalks : registeredIfRunning name selector
                     (walks h uuid generate generateValue styleData st).2).
  { unfold walks. cbv zeta.
    pose proof (firstWalk_registers styleData sheet node name selector more
                  Hsheet Hnode Hocc Hname Hsel (initialPass st)) as Hfirst.
    destruct (walkSheets _ _ styleData (initialPass st)) as [styleData1 p1].
    cbn [fst snd] in *.
    destruct (_ || _)%bool; [exact Hfirst|].
    apply (walkSheets_keeps (registeredIfRunning name selector)
             enterValue2 enterNode2); try (intros; assumption).
    intros rule declaration n p. apply enterValue2_keeps_registered. }
  destruct Hwalks as (candidates & Hc & Hin).
  { unfold isRunning. rewrite Hrunning. reflexivity. }
  exists candidates. split; [exact Hc|]. split; [exact Hin|].
  unfold getAnchorEl, candidatesFor. rewrite Hobj. cbn [truthy].
  rewrite (eqb_empty_false _ Hname). cbn [negb andb].
  replace (match target with
           | Some _ => match customPropName anchorObj with
                       | Some _ => Some name
                       | None => Some name
                       end
           | None => Some name
           end) with (Some name)
    by (destruct target, (customPropName anchorObj); reflexivity).
  rewrite (eqb_empty_false _ Hname). cbn [negb].
  apply getProperty_Own in Hc. rewrite Hc. reflexivity.
Qed.

End DeclaredAnchors.

Lemma declared_anchor_is_candidate_witness :
  exists candidates,
    Parse.anchorNames (sampleParseCSS [firstSheet] Parse.emptyStore).2 !! "--a"
    = Some candidates
    /\ "#anchor" ∈ candidates
    /\ Parse.getAnchorEl sampleHost sampleValidated
         (sampleParseCSS [firstSheet] Parse.emptyStore).2 (Some 1)
         {| Parse.anchorEl := None; Parse.anchorName := Some "--a";
            Parse.anchorEdge := None; Parse.fallbackValue := Some "0px";
            Parse.customPropName := None; Parse.key := "--anchor-0" |}
       = sampleValidated (Some 1) (Parse.Selectors candidates).
Proof.
  apply (declared_anchor_is_candidate sampleHost sampleUuid sampleGenerate
           sampleGenerateValue sampleValidated [firstSheet] Parse.emptyStore firstSheet
           (Parse.Rule "#anchor" [Parse.Declaration "anchor-name" [Parse.Identifier "--a"]])
           "--a" "#anchor" [] (Some 1) _ ∅).
  - left.
  - left.
  - eapply occurs_rule; [left|apply occurs_here].
  - discriminate.
  - discriminate.
  - reflexivity.
  - vm_compute. reflexivity.
Defined.
(** ** Placeholders *)

Section Placeholders.
Import Parse.

Variable h : Host.
Variable uuid : nat -> string.
Variable generate : ValueNode -> string.
Variable generateValue : list ValueNode -> string.

Lemma dropClosing_append (name : string) : dropClosing (name ++ ")") = Some name.
Proof.
  induction name as [|c name IH]; [reflexivity|].
  change (String c name ++ ")") with (String c (name ++ ")")).
  cbn [dropClosing]. rewrite IH.
  destruct name; reflexivity.
Qed.

(** The text of a placeholder is read back as a [var()] of its key. *)
Lemma readRaw_placeholder (key : string) :
  readRaw ("var(" ++ key ++ ")") = Function "var" [Identifier key].
Proof.
  unfold readRaw.
  change (dropPrefix "var(" ("var(" ++ key ++ ")")) with (Some (key ++ ")")).
  cbn [mbind option_bind]. rewrite dropClosing_append. reflexivity.
Qed.

Lemma withStore_id (p : Pass) : withStore (store p) p = p.
Proof. destruct p. reflexivity. Qed.

Lemma enterNode1_inset (rule : option string) (property : string)
    (value : list ValueNode) (p : Pass) :
  isInset property = true ->
  enterNode1 h uuid generate generateValue rule (Declaration property value) p = p.
Proof.
  intros Hp. unfold enterNode1.
  destruct (isRunning p) eqn:Hrun; [|reflexivity].
  apply isInset_cases in Hp as [-> | [-> | [-> | ->]]];
    cbn; rewrite Hrun; cbn; apply withStore_id.
Qed.

Lemma setAnchorFunction_lookup (selector property : string) (data : AnchorFunction)
    (p : Pass) :
  selector <> "__proto__" ->
  astChanged (setAnchorFunction selector property data p) = true
  /\ (anchorFunctions (setAnchorFunction selector property data p) !! selector
      ≫= (.!! property)) = Some data.
Proof.
  intros Hproto. unfold setAnchorFunction.
  rewrite (proj2 (String.eqb_neq _ _) Hproto).
  cbn [astChanged anchorFunctions]. split; [reflexivity|].
  rewrite lookup_insert_eq. cbn [mbind option_bind]. apply lookup_insert_eq.
Qed.

(** X3: the first walk, in a run in which nothing was thrown and no
    prototype replaced, on [property: anchor(...)] in a rule for [selector], [property] an inset
    property and [selector] not [__proto__]: the call is replaced by a
    placeholder, a [var()] of a key made for it, the sheet is marked as
    changed, and the data of the call is recorded for [selector] and
    [property] under that same key. *)
Theorem inset_anchor_gets_placeholder (selector property : string)
    (children : list ValueNode) (p : Pass) :
  status p = Running ->
  selector <> "" -> selector <> "__proto__" -> isInset property = true ->
  let key := freshKey uuid (uuidCalls (store p)) in
  let result :=
    walkNode (enterValue1 h uuid generate) (enterNode1 h uuid generate generateValue)
      (Some selector) (Declaration property [Function "anchor" children]) p in
  result.1 = Declaration property [Raw ("var(" ++ key ++ ")")]
  /\ rereadNode result.1 = Declaration property [Function "var" [Identifier key]]
  /\ astChanged result.2 = true
  /\ uuidCalls (store result.2) = S (uuidCalls (store p))
  /\ (anchorFunctions result.2 !! selector ≫= (.!! property))
     = Some (parseAnchorFn h uuid generate children (store p)).1.1
  /\ Parse.key (parseAnchorFn h uuid generate children (store p)).1.1 = key.
Proof.
  intros Hrun Hsel Hproto Hp. cbv zeta.
  rewrite walkNode_eq. cbv zeta. rewrite enterNode1_inset by exact Hp.
  rewrite walkValues_eq. cbn [walkChildren]. rewrite walkValue_eq. cbv zeta.
  cbn [from_option]. unfold enterValue1.
  assert (Hr : isRunning p = true) by (unfold isRunning; rewrite Hrun; reflexivity).
  rewrite !Hr. cbn [negb].
  cbn [isAnchorFunction truthy]. rewrite (eqb_empty_false _ Hsel).
  change (String.eqb "anchor" "anchor") with true. cbn [negb andb].
  assert (Hcustom : startsWith property "--" = false).
  { apply isInset_cases in Hp as [-> | [-> | [-> | ->]]]; reflexivity. }
  rewrite Hcustom, Hp.
  unfold parseAnchorFn. cbv zeta. cbn [fst snd from_option]. unfold id.
  match goal with
  | |- context [setAnchorFunction selector property ?data ?q] =>
      destruct (setAnchorFunction_lookup selector property data q Hproto)
        as [Hchanged Hlookup];
      pose proof (setAnchorFunction_store selector property data q) as Hstore
  end.
  split; [reflexivity|]. split.
  - cbn [rereadNode map rereadValue]. rewrite readRaw_placeholder. reflexivity.
  - split; [exact Hchanged|]. split; [rewrite Hstore; reflexivity|].
    split; [exact Hlookup|reflexivity].
Qed.

Lemma enterValue2_identifier (rule : option string) (property name : string) (p : Pass) :
  enterValue2 rule property (Identifier name) p = (Descend None, p).
Proof.
  unfold enterValue2. destruct (negb (isRunning p)); [reflexivity|].
  cbn [isVarFunction]. rewrite andb_false_r. reflexivity.
Qed.

Lemma enterValue2_use (selector property name : string) (assigned : AnchorFunction)
    (p : Pass) :
  status p = Running ->
  selector <> "" -> isInset property = true ->
  customPropAssignments (store p) !! name = Some assigned ->
  enterValue2 (Some selector) property (Function "var" [Identifier name]) p
  = (Descend (Some (key assigned ++ "-" ++ property)),
     setAnchorFunction selector property
       {| anchorEl := anchorEl assigned; anchorName := anchorName assigned;
          anchorEdge := anchorEdge assigned; fallbackValue := fallbackValue assigned;
          customPropName := customPropName assigned;
          key := key assigned ++ "-" ++ property |} p).
Proof.
  intros Hrun Hsel Hp Hassigned. unfold enterValue2.
  unfold isRunning. rewrite Hrun. cbn [negb].
  cbn [isVarFunction truthy firstChild head]. rewrite (eqb_empty_false _ Hsel), Hp.
  change (String.eqb "var" "var") with true.
  rewrite bool_decide_true by (eexists; reflexivity).
  cbn [negb andb mbind option_bind nodeName from_option]. unfold id.
  rewrite (proj2 (getProperty_Own _ _ _) Hassigned). reflexivity.
Qed.

(** X4: the second walk, in a run in which nothing was thrown and no
    prototype replaced, on [property: var(name)] in a rule for [selector], [property] an inset
    property, [selector] not [__proto__] and [name] a custom property with
    a recorded [anchor()] assignment: the reference is renamed to a key of
    its own, the assignment's key followed by the property, and the
    assignment's data is recorded for [selector] and [property] under that
    key; the registries are left as they are. *)
Theorem custom_property_use_gets_own_key (selector property name : string)
    (assigned : AnchorFunction) (p : Pass) :
  status p = Running ->
  selector <> "" -> selector <> "__proto__" -> isInset property = true ->
  customPropAssignments (store p) !! name = Some assigned ->
  let key := Parse.key assigned ++ "-" ++ property in
  let result :=
    walkNode enterValue2 enterNode2 (Some selector)
      (Declaration property [Function "var" [Identifier name]]) p in
  result.1 = Declaration property [Function "var" [Identifier key]]
  /\ store result.2 = store p
  /\ astChanged result.2 = true
  /\ (anchorFunctions result.2 !! selector ≫= (.!! property))
     = Some {| anchorEl := anchorEl assigned; anchorName := anchorName assigned;
               anchorEdge := anchorEdge assigned;
               fallbackValue := fallbackValue assigned;
               customPropName := customPropName assigned; Parse.key := key |}.
Proof.
  intros Hrun Hsel Hproto Hp Hassigned. cbv zeta.
  rewrite walkNode_eq. cbv zeta. unfold enterNode2.
  rewrite walkValues_eq. cbn [walkChildren]. rewrite walkValue_eq. cbv zeta.
  cbn [from_option]. rewrite (enterValue2_use _ _ _ _ _ Hrun Hsel Hp Hassigned).
  cbn [walkChildren]. rewrite walkValue_eq. cbv zeta.
  cbn [from_option setName]. rewrite enterValue2_identifier.
  cbn [fst snd nodeName from_option]. unfold id.
  match goal with
  | |- context [setAnchorFunction selector property ?data ?q] =>
      destruct (setAnchorFunction_lookup selector property data q Hproto)
        as [Hchanged Hlookup];
      pose proof (setAnchorFunction_store selector property data q) as Hstore
  end.
  split; [reflexivity|]. split; [exact Hstore|]. split; [exact Hchanged|].
  exact Hlookup.
Qed.

End Placeholders.

(** A pass that has recorded [--c: anchor(--my-anchor bottom)]. *)
Definition samplePass : Parse.Pass :=
  {| Parse.store :=
       {| Parse.anchorNames := ∅;
          Parse.customPropAssignments := {[ "--c" := sampleReference ]};
          Parse.uuidCalls := 1 |};
     Parse.anchorFunctions := ∅; Parse.fallbackNames := [];
     Parse.fallbackRules := ∅; Parse.astChanged := false;
     Parse.status := Parse.Running |}.

Lemma inset_anchor_gets_placeholder_witness :
  (Parse.walkNode (Parse.enterValue1 sampleHost sampleUuid sampleGenerate)
     (Parse.enterNode1 sampleHost sampleUuid sampleGenerate sampleGenerateValue)
     (Some "#target")
     (Parse.Declaration "top"
        [Parse.Function "anchor" [Parse.Identifier "--a"; Parse.Identifier "bottom"]])
     samplePass).1
  = Parse.Declaration "top" [Parse.Raw ("var(" ++ Parse.freshKey sampleUuid 1 ++ ")")].
Proof.
  refine (proj1 (inset_anchor_gets_placeholder sampleHost sampleUuid sampleGenerate
                   sampleGenerateValue "#target" "top"
                   [Parse.Identifier "--a"; Parse.Identifier "bottom"] samplePass
                   _ _ _ _)).
  - reflexivity.
  - discriminate.
  - discriminate.
  - reflexivity.
Defined.

Lemma custom_property_use_gets_own_key_witness :
  (Parse.walkNode Parse.enterValue2 Parse.enterNode2 (Some "#target")
     (Parse.Declaration "left" [Parse.Function "var" [Parse.Identifier "--c"]])
     samplePass).1
  = Parse.Declaration "left"
      [Parse.Function "var" [Parse.Identifier "--anchor-0-left"]].
Proof.
  refine (proj1 (custom_property_use_gets_own_key "#target" "left" "--c" sampleReference
                   samplePass _ _ _ _ _)).
  - reflexivity.
  - discriminate.
  - discriminate.
  - reflexivity.
  - reflexivity.
Defined.

(** ** The [changed] flag *)

Section ChangedFlag.
Import Parse.

Variable h : Host.
Variable uuid : nat -> string.
Variable generate : ValueNode -> string.
Variable generateValue : list ValueNode -> string.
Variable validatedForPositioning : option Element -> Candidates -> option Element.

(** A style sheet record after a walk: the record as it was, or a record
    marked as changed. *)
Definition keptOrMarked (before after : StyleData) : Prop :=
  after = before \/ changed after = true.

Lemma keptOrMarked_trans (a b c : StyleData) :
  keptOrMarked a b -> keptOrMarked b c -> keptOrMarked a c.
Proof. intros [->|Hb] [->|Hc]; unfold keptOrMarked; auto. Qed.

Lemma walkSheets_keptOrMarked
    (enterValue : option string -> string -> ValueNode -> Pass -> Visit * Pass)
    (enterNode : option string -> Node -> Pass -> Pass) (styleData : list StyleData) :
  forall p, Forall2 keptOrMarked styleData (walkSheets enterValue enterNode styleData p).1.
Proof.
  induction styleData as [|styleObj rest IH]; intros p; [constructor|].
  cbn [walkSheets]. unfold walkSheet.
  destruct (walk enterValue enterNode (css styleObj) _) as [ast q].
  destruct (astChanged q && isRunning q)%bool.
  - specialize (IH q). destruct (walkSheets enterValue enterNode rest q) as [rest' q'].
    constructor; [right; reflexivity|exact IH].
  - specialize (IH q). destruct (walkSheets enterValue enterNode rest q) as [rest' q'].
    constructor; [left; reflexivity|exact IH].
Qed.

Lemma Forall2_keptOrMarked_trans (l1 l2 l3 : list StyleData) :
  Forall2 keptOrMarked l1 l2 -> Forall2 keptOrMarked l2 l3 -> Forall2 keptOrMarked l1 l3.
Proof.
  intros H12. revert l3. induction H12 as [|a b l1 l2 Hab _ IH]; intros l3 H23.
  - inversion H23. constructor.
  - inversion H23 as [|b' c l2' l3' Hbc H23']; subst.
    constructor; [eapply keptOrMarked_trans; eassumption|apply IH, H23'].
Qed.

(** X5: [parseCSS] returns as many style sheet records as it was given, in the
    same order, and never rewrites a sheet without marking it: each record
    comes back as it was, or marked as changed. *)
Theorem rewritten_sheets_are_marked (styleData : list StyleData) (st : Store) :
  Forall2 keptOrMarked styleData
    (parseCSS h uuid generate generateValue validatedForPositioning styleData st).1.2.
Proof.
  rewrite parseCSS_eq. unfold walks. cbv zeta. cbn [fst snd].
  pose proof (walkSheets_keptOrMarked (enterValue1 h uuid generate)
                (enterNode1 h uuid generate generateValue) styleData (initialPass st))
    as Hfirst.
  destruct (walkSheets _ _ styleData (initialPass st)) as [styleData1 p1].
  cbn [fst snd] in *.
  destruct (_ || _)%bool; [exact Hfirst|].
  eapply Forall2_keptOrMarked_trans; [exact Hfirst|].
  apply walkSheets_keptOrMarked.
Qed.

End ChangedFlag.

(** ** The structure of a rewritten sheet *)

Section Skeleton.
Import Parse.

(** A tree without the values of its declarations: its rules with their
    selectors, its at-rules with their names and preludes, and its
    declarations with their properties, in order. *)
Fixpoint skeleton (node : Node) : Node :=
  match node with
  | Rule prelude block => Rule prelude (map skeleton block)
  | Atrule name prelude block => Atrule name prelude (map skeleton <$> block)
  | Declaration property _ => Declaration property []
  end.

Lemma skeleton_rereadNode (node : Node) : skeleton (rereadNode node) = skeleton node.
Proof.
  induction node as [prelude block IH|name prelude block IH|property value].
  - cbn [rereadNode skeleton]. f_equal. rewrite map_map.
    induction IH as [|child Hchild block _ IHblock]; [reflexivity|].
    cbn [map]. rewrite Hchild, IHblock. reflexivity.
  - cbn [rereadNode skeleton]. f_equal.
    destruct IH as [block IH|]; [|reflexivity]. cbn [fmap option_fmap option_map].
    f_equal. rewrite map_map.
    induction IH as [|child Hchild block _ IHblock]; [reflexivity|].
    cbn [map]. rewrite Hchild, IHblock. reflexivity.
  - reflexivity.
Qed.

Context {S : Type}.
Variable enterValue : option string -> string -> ValueNode -> S -> Visit * S.
Variable enterNode : option string -> Node -> S -> S.

Lemma walkNode_skeleton (node : Node) :
  forall rule s, skeleton (walkNode enterValue enterNode rule node s).1 = skeleton node.
Proof.
  induction node as [prelude block IH|name prelude block IH|property value];
    intros rule s; rewrite walkNode_eq; cbv zeta.
  - generalize (enterNode rule (Rule prelude block) s). clear s. intros s.
    assert (Hblock : map skeleton
              (walkNodes enterValue enterNode (Some prelude) block s).1
            = map skeleton block).
    { revert s. induction IH as [|child Hchild block _ IHblock]; intros s; [reflexivity|].
      cbn [walkNodes]. specialize (Hchild (Some prelude) s).
      destruct (walkNode enterValue enterNode (Some prelude) child s) as [c' s1].
      specialize (IHblock s1).
      destruct (walkNodes enterValue enterNode (Some prelude) block s1) as [l' s2].
      cbn [fst map] in *. rewrite Hchild, IHblock. reflexivity. }
    destruct (walkNodes enterValue enterNode (Some prelude) block s) as [b' s1].
    cbn [fst skeleton] in *. rewrite Hblock. reflexivity.
  - destruct IH as [block IH|]; [|reflexivity].
    generalize (enterNode rule (Atrule name prelude (Some block)) s). clear s. intros s.
    assert (Hblock : map skeleton (walkNodes enterValue enterNode rule block s).1
                     = map skeleton block).
    { revert s. induction IH as [|child Hchild block _ IHblock]; intros s; [reflexivity|].
      cbn [walkNodes]. specialize (Hchild rule s).
      destruct (walkNode enterValue enterNode rule child s) as [c' s1].
      specialize (IHblock s1).
      destruct (walkNodes enterValue enterNode rule block s1) as [l' s2].
      cbn [fst map] in *. rewrite Hchild, IHblock. reflexivity. }
    destruct (walkNodes enterValue enterNode rule block s) as [b' s1].
    cbn [fst skeleton fmap option_fmap option_map] in *. rewrite Hblock. reflexivity.
  - destruct (walkValues enterValue rule property value _) as [v' s1]. reflexivity.
Qed.

Lemma walk_skeleton (ast : list Node) :
  forall s, map skeleton (walk enterValue enterNode ast s).1 = map skeleton ast.
Proof.
  induction ast as [|node ast IH]; intros s; [reflexivity|].
  cbn [walk]. pose proof (walkNode_skeleton node None s) as Hnode.
  destruct (walkNode enterValue enterNode None node s) as [n' s1].
  specialize (IH s1). destruct (walk enterValue enterNode ast s1) as [a' s2].
  cbn [fst map] in *. rewrite Hnode, IH. reflexivity.
Qed.

End Skeleton.

Section SheetStructure.
Import Parse.

(** Two style sheet records with the same structure. *)
Definition sameStructure (before after : StyleData) : Prop :=
  map skeleton (css after) = map skeleton (css before).

Lemma walkSheets_structure
    (enterValue : option string -> string -> ValueNode -> Pass -> Visit * Pass)
    (enterNode : option string -> Node -> Pass -> Pass) (styleData : list StyleData) :
  forall p, Forall2 sameStructure styleData (walkSheets enterValue enterNode styleData p).1.
Proof.
  induction styleData as [|styleObj rest IH]; intros p; [constructor|].
  cbn [walkSheets]. unfold walkSheet.
  match goal with
  | |- context [walk enterValue enterNode (css styleObj) ?q] =>
      pose proof (walk_skeleton enterValue enterNode (css styleObj) q) as Hw;
      destruct (walk enterValue enterNode (css styleObj) q) as [ast q1]
  end.
  cbn [fst] in Hw. specialize (IH q1).
  destruct (astChanged q1 && isRunning q1)%bool;
    destruct (walkSheets enterValue enterNode rest q1) as [rest' q'];
    (constructor; [|exact IH]); unfold sameStructure; cbn [css]; [|reflexivity].
  rewrite map_map, <- Hw. apply map_ext. intros node. apply skeleton_rereadNode.
Qed.

Lemma Forall2_sameStructure_trans (l1 l2 l3 : list StyleData) :
  Forall2 sameStructure l1 l2 -> Forall2 sameStructure l2 l3 ->
  Forall2 sameStructure l1 l3.
Proof.
  intros H12. revert l3. induction H12 as [|a b l1 l2 Hab _ IH]; intros l3 H23.
  - inversion H23. constructor.
  - inversion H23 as [|b' c l2' l3' Hbc H23']; subst.
    constructor; [unfold sameStructure in *; congruence|apply IH, H23'].
Qed.

End SheetStructure.

(** ** Try blocks *)

Section TryBlocks.
Import Parse.

Variable h : Host.
Variable uuid : nat -> string.
Variable generate : ValueNode -> string.
Variable generateValue : list ValueNode -> string.

(** The declarations of a [@try] at-rule that has a block. *)
Definition tryWithBlock (node : Node) : option (list Node) :=
  match node with
  | Atrule name _ (Some declarations) =>
      if String.eqb name "try" then Some declarations else None
  | _ => None
  end.

Definition declaredProperty (node : Node) : option string :=
  match node with
  | Declaration property _ => Some property
  | _ => None
  end.

(** The arguments of the [anchor()] call a value starts with. *)
Definition anchorCall (value : list ValueNode) : option (list ValueNode) :=
  match head value with
  | Some (Function name children) =>
      if String.eqb name "anchor" then Some children else None
  | _ => None
  end.

(** [v] is what a declaration of [property] among [declarations] gives: the
    data of the [anchor()] call its value starts with, or else the text of
    its value. *)
Definition fromDeclaration (declarations : list Node) (property : string)
    (v : TryValue) : Prop :=
  exists value,
    Declaration property value ∈ declarations
    /\ match v with
       | TryRaw text => anchorCall value = None /\ text = generateValue value
       | TryAnchor data =>
           exists children st,
             anchorCall value = Some children
             /\ data = (parseAnchorFn h uuid generate children st).1.1
       end.

Lemma fromDeclaration_cons (node : Node) (declarations : list Node) (property : string)
    (v : TryValue) :
  fromDeclaration declarations property v ->
  fromDeclaration (node :: declarations) property v.
Proof.
  intros (value & Hin & Hv). exists value. split; [|exact Hv].
  apply elem_of_cons. right. exact Hin.
Qed.

(** The properties an object gets from the declarations: an assignment to
    [__proto__] adds none. *)
Definition ownProperties (declarations : list Node) (property : string) : Prop :=
  property ∈ omap declaredProperty declarations /\ property <> "__proto__".

Lemma tryDeclarations_source (declarations : list Node) :
  forall tryBlock st,
    let result :=
      (tryDeclarations h uuid generate generateValue declarations tryBlock st).1 in
    (forall property,
       is_Some (result !! property)
       <-> is_Some (tryBlock !! property) \/ ownProperties declarations property)
    /\ (forall property v,
          result !! property = Some v ->
          tryBlock !! property = Some v \/ fromDeclaration declarations property v).
Proof.
  induction declarations as [|node declarations IH]; intros tryBlock st; cbv zeta.
  - cbn. split.
    + intros property. split; [auto|]. intros [H|[H _]]; [exact H|inversion H].
    + auto.
  - assert (Hset : forall property value v st',
      (v = TryRaw (generateValue value) /\ anchorCall value = None
       \/ exists children st0, v = TryAnchor (parseAnchorFn h uuid generate children st0).1.1
                               /\ anchorCall value = Some children) ->
      node = Declaration property value ->
      let result :=
        (tryDeclarations h uuid generate generateValue declarations
           (setTryValue property v tryBlock) st').1 in
      (forall prop,
         is_Some (result !! prop)
         <-> is_Some (tryBlock !! prop) \/ ownProperties (node :: declarations) prop)
      /\ (forall prop v',
            result !! prop = Some v' ->
            tryBlock !! prop = Some v'
            \/ fromDeclaration (node :: declarations) prop v')).
    { intros property value v st' Hv -> . cbv zeta.
      destruct (IH (setTryValue property v tryBlock) st') as [Hdom Hval].
      unfold setTryValue in *. unfold ownProperties in *.
      cbn [omap list_omap declaredProperty].
      destruct (String.eqb property "__proto__") eqn:Hproto.
      - apply String.eqb_eq in Hproto. subst property. split.
        + intros prop. rewrite Hdom, elem_of_cons. split.
          * intros [H|[H Hne]]; auto.
          * intros [H|[[H|H] Hne]]; auto. congruence.
        + intros prop v' Hr. destruct (Hval _ _ Hr) as [Hins|Hfrom]; [auto|].
          right. apply fromDeclaration_cons, Hfrom.
      - apply String.eqb_neq in Hproto. split.
        + intros prop. rewrite Hdom, elem_of_cons.
          destruct (decide (property = prop)) as [->|Hne].
          * rewrite lookup_insert_eq. split; [auto|]. intros _. left. eexists; reflexivity.
          * rewrite lookup_insert_ne by exact Hne. split.
            -- intros [H|[H Hp]]; auto.
            -- intros [H|[[H|H] Hp]]; auto. congruence.
        + intros prop v' Hr. destruct (Hval _ _ Hr) as [Hins|Hfrom].
          * destruct (decide (property = prop)) as [->|Hne].
            -- rewrite lookup_insert_eq in Hins. injection Hins as <-. right.
               exists value. split; [left|].
               destruct Hv as [[-> Hcall]|(children & st0 & -> & Hcall)]; eauto.
            -- rewrite lookup_insert_ne in Hins by exact Hne. auto.
          * right. apply fromDeclaration_cons, Hfrom. }
    destruct node as [prelude block|name prelude block|property value].
    + cbn [tryDeclarations]. unfold ownProperties.
      cbn [omap list_omap declaredProperty].
      destruct (IH tryBlock st) as [Hdom Hval]. split; [exact Hdom|].
      intros property v Hr. destruct (Hval _ _ Hr); [auto|].
      right. apply fromDeclaration_cons. assumption.
    + cbn [tryDeclarations]. unfold ownProperties.
      cbn [omap list_omap declaredProperty].
      destruct (IH tryBlock st) as [Hdom Hval]. split; [exact Hdom|].
      intros property v Hr. destruct (Hval _ _ Hr); [auto|].
      right. apply fromDeclaration_cons. assumption.
    + cbn [tryDeclarations].
      destruct (head value) as [[name|v|v|v|name children|text]|] eqn:Hhead;
        try (apply (Hset property value); [left; split; [reflexivity|]|reflexivity];
             unfold anchorCall; rewrite Hhead; reflexivity).
      cbn [isAnchorFunction]. destruct (String.eqb name "anchor") eqn:Hname.
      * unfold parseAnchorFn at 1. cbv zeta.
        apply (Hset property value); [right|reflexivity].
        exists children, st. split; [reflexivity|].
        unfold anchorCall. rewrite Hhead, Hname. reflexivity.
      * apply (Hset property value); [left; split; [reflexivity|]|reflexivity].
        unfold anchorCall. rewrite Hhead, Hname. reflexivity.
Qed.

(** X7: the try blocks of a [@position-fallback] block are one for each [@try]
    at-rule with a block, in source order. Each lists exactly the
    properties its [@try] block declares, [__proto__] apart, an assignment
    to which adds no property; and each value is what a declaration of that
    property there gives: the data of [anchor()] when the value starts with
    a call of it, and else the text of the value. *)
Theorem try_blocks_follow_source (children : list Node) (st : Store) :
  Forall2
    (fun declarations tryBlock =>
       (forall property,
          is_Some (tryBlock !! property)
          <-> property ∈ omap declaredProperty declarations /\ property <> "__proto__")
       /\ (forall property v,
             tryBlock !! property = Some v -> fromDeclaration declarations property v))
    (omap tryWithBlock children)
    (tryAtRules h uuid generate generateValue children st).1.
Proof.
  revert st. induction children as [|node children IH]; intros st; [constructor|].
  destruct node as [prelude block|name prelude [declarations|]|property value];
    cbn [tryAtRules omap list_omap tryWithBlock isTryAtRule]; try apply IH.
  - destruct (String.eqb name "try"); [|apply IH].
    cbn [option_bind mbind].
    pose proof (tryDeclarations_source declarations ∅ st) as Hsrc. cbv zeta in Hsrc.
    destruct (tryDeclarations h uuid generate generateValue declarations ∅ st)
      as [tryBlock st1].
    specialize (IH st1).
    destruct (tryAtRules h uuid generate generateValue children st1) as [tryBlocks st2].
    cbn [fst] in *. constructor; [|exact IH].
    destruct Hsrc as [Hdom Hval]. split.
    + intros property. rewrite Hdom, lookup_empty. unfold ownProperties. split.
      * intros [[x Hx]|H]; [discriminate|exact H].
      * auto.
    + intros property v Hv. destruct (Hval _ _ Hv) as [He|H]; [|exact H].
      rewrite lookup_empty in He. discriminate.
  - destruct (String.eqb name "try"); apply IH.
Qed.

End TryBlocks.

(** ** The entries of the rule model *)

Section RuleModel.
Import Parse.

Variable h : Host.
Variable uuid : nat -> string.
Variable generate : ValueNode -> string.
Variable generateValue : list ValueNode -> string.
Variable validatedForPositioning : option Element -> Candidates -> option Element.

(** What the walks have recorded for [selector] and [property]. *)
Definition recordedAt (p : Pass) (selector property : string) : option AnchorFunction :=
  anchorFunctions p !! selector ≫= (.!! property).

Lemma fallbackPositions_no_declarations (names : list (string * string))
    (rules : gmap string (list TryBlock)) (selector : string) :
  fallbackPositions names rules !! selector ≫= declarations = None.
Proof.
  destruct (fallbackPositions names rules !! selector) as [position|] eqn:Hp;
    [|reflexivity].
  apply fallbackPositions_lookup in Hp as [Hd _]. exact Hd.
Qed.

Lemma assemble_bound (p : Pass) (selector property : string) (e : AnchorFunction) :
  declarationAt (assemble h validatedForPositioning p) selector property = Some e ->
  exists e0,
    recordedAt p selector property = Some e0
    /\ e = bind h validatedForPositioning (store p) (querySelector h selector) e0.
Proof.
  destruct (assemble h validatedForPositioning p) as [rules| |] eqn:Hrules;
    try discriminate.
  apply assemble_Returned in Hrules as (_ & bound & _ & ->).
  unfold declarationAt, declarationIn, recordedAt. rewrite ruleModel_lookup.
  pose proof (fallbackPositions_no_declarations (fallbackNames p) bound selector)
    as Hnone.
  destruct (fallbackPositions _ _ !! selector) as [[d f]|];
    cbn [mbind option_bind declarations] in Hnone; subst;
    destruct (anchorFunctions p !! selector) as [anchorFns|];
    cbn [mbind option_bind withDeclarations]; try discriminate;
    unfold boundDeclarations; destruct (bool_decide (anchorFns = ∅));
    cbn [withDeclarations]; try discriminate;
    rewrite lookup_fmap; destruct (anchorFns !! property) as [e0|]; try discriminate;
    cbn; intros He; injection He as <-; eauto.
Qed.

(** X8: every declaration of the rule model is bound against the registry as
    it is when [parseCSS] returns, with every sheet walked: its anchor
    element is what the binder finds then for the element of its selector,
    wherever in the sheets the anchor was named. *)
Theorem declarations_are_bound_last (styleData : list StyleData) (st : Store)
    (selector property : string) (e : AnchorFunction) :
  let result := parseCSS h uuid generate generateValue validatedForPositioning styleData st in
  declarationAt result.1.1 selector property = Some e ->
  anchorEl e
  = getAnchorEl h validatedForPositioning result.2 (querySelector h selector) e.
Proof.
  cbv zeta. rewrite parseCSS_eq. cbn [fst snd]. intros He.
  apply assemble_bound in He as (e0 & _ & ->). reflexivity.
Qed.

(** *** No empty entries *)

Definition nothingEmpty (p : Pass) : Prop :=
  map_Forall (fun _ blocks => blocks <> []) (fallbackRules p)
  /\ map_Forall (fun _ anchorFns => anchorFns <> (∅ : gmap string AnchorFunction))
       (anchorFunctions p).

Lemma nothingEmpty_set (selector property : string) (data : AnchorFunction) (p : Pass) :
  nothingEmpty p -> nothingEmpty (setAnchorFunction selector property data p).
Proof.
  intros [Hr Hf]. unfold setAnchorFunction.
  destruct (String.eqb selector "__proto__"); [split; assumption|].
  split; [exact Hr|]. cbn [anchorFunctions].
  apply map_Forall_insert_2; [|exact Hf]. apply insert_non_empty.
Qed.

Lemma nothingEmpty_withStore (st : Store) (p : Pass) :
  nothingEmpty p -> nothingEmpty (withStore st p).
Proof. intros H. exact H. Qed.

Lemma enterValue1_nothingEmpty (rule : option string) (property : string)
    (node : ValueNode) (p : Pass) :
  nothingEmpty p -> nothingEmpty (enterValue1 h uuid generate rule property node p).2.
Proof.
  intros Hp. unfold enterValue1.
  destruct (negb (isRunning p)); [exact Hp|].
  destruct node as [name|value|value|value|name children|text]; try exact Hp.
  destruct (isAnchorFunction _ && truthy rule)%bool; [|exact Hp].
  destruct (startsWith property "--"); [exact Hp|].
  destruct (isInset property); [|exact Hp].
  apply nothingEmpty_set, Hp.
Qed.

Lemma enterValue2_nothingEmpty (rule : option string) (property : string)
    (node : ValueNode) (p : Pass) :
  nothingEmpty p -> nothingEmpty (enterValue2 rule property node p).2.
Proof.
  intros Hp. unfold enterValue2.
  destruct (negb (isRunning p)); [exact Hp|].
  destruct (_ && _)%bool; [|exact Hp].
  cbv zeta. destruct (cloneFor _ _); [|exact Hp].
  apply nothingEmpty_set, Hp.
Qed.

Lemma enterNode1_nothingEmpty (rule : option string) (node : Node) (p : Pass) :
  nothingEmpty p -> nothingEmpty (enterNode1 h uuid generate generateValue rule node p).
Proof.
  intros Hp. unfold enterNode1. cbv zeta.
  destruct (negb (isRunning p)); [exact Hp|].
  assert (H1 : nothingEmpty (registerAnchorName rule node p)).
  { unfold registerAnchorName.
    destruct (getAnchorNameData node rule) as [[[anchorName|] anchorSelector]|];
      try exact Hp.
    destruct (negb (String.eqb anchorName "")); [|exact Hp].
    cbv zeta. destruct (getProperty _ _); exact Hp. }
  destruct (negb (isRunning (registerAnchorName rule node p))); [exact H1|].
  assert (H2 : nothingEmpty (registerFallbackName rule node
                               (registerAnchorName rule node p))).
  { unfold registerFallbackName.
    destruct (getPositionFallbackDeclaration node rule) as [[[fbName|] fbSelector]|];
      try exact H1.
    destruct (_ && _)%bool; exact H1. }
  revert H2. generalize (registerFallbackName rule node (registerAnchorName rule node p)).
  intros q [Hr Hf]. unfold registerFallbackRules.
  destruct (getPositionFallbackRules h uuid generate generateValue node (store q))
    as [[[fbRuleName fbTryBlocks]|] st']; [|split; assumption].
  destruct (Nat.eqb (length fbTryBlocks) 0) eqn:Hlen; cbn [negb]; [split; assumption|].
  destruct (String.eqb fbRuleName "__proto__"); [split; assumption|].
  split; [|exact Hf]. cbn [fallbackRules].
  apply map_Forall_insert_2; [|exact Hr].
  intros ->; discriminate.
Qed.

Lemma bindFallbacks_nonempty (st : Store) (names : list (string * string))
    (rules bound : gmap string (list TryBlock)) :
  bindFallbacks h validatedForPositioning st names rules = Some bound ->
  map_Forall (fun _ blocks => blocks <> []) rules ->
  map_Forall (fun _ blocks => blocks <> []) bound.
Proof.
  revert rules.
  induction names as [|[targetSel fallbackName] names IH]; intros rules Hbound Hr.
  { injection Hbound as <-. exact Hr. }
  cbn [bindFallbacks] in Hbound.
  destruct (getProperty rules fallbackName) as [blocks| |] eqn:Hb;
    [|discriminate|eauto].
  apply getProperty_Own in Hb. apply (IH _ Hbound).
  apply map_Forall_insert_2; [|exact Hr].
  pose proof (Hr _ _ Hb) as Hne. destruct blocks; [congruence|discriminate].
Qed.

(** X9: every entry of the rule model [parseCSS] returns has something to
    position: declarations or try blocks; its declarations, when it has
    them, are not an empty object, and its try blocks not an empty list. *)
Theorem rule_model_has_no_empty_entry (styleData : list StyleData) (st : Store)
    (selector : string) (position : AnchorPosition) :
  positionAt
    (parseCSS h uuid generate generateValue validatedForPositioning styleData st).1.1
    selector = Some position ->
  (is_Some (declarations position) \/ is_Some (fallbacks position))
  /\ (forall anchorFns, declarations position = Some anchorFns -> anchorFns <> ∅)
  /\ (forall blocks, fallbacks position = Some blocks -> blocks <> []).
Proof.
  rewrite parseCSS_eq. cbn [fst snd].
  assert (Hp : nothingEmpty (walks h uuid generate generateValue styleData st).2).
  { apply (walks_keep h uuid generate generateValue nothingEmpty);
      try (intros; assumption).
    - intros; apply enterValue1_nothingEmpty; assumption.
    - intros; apply enterNode1_nothingEmpty; assumption.
    - intros; apply enterValue2_nothingEmpty; assumption.
    - split; apply map_Forall_empty. }
  revert Hp. generalize (walks h uuid generate generateValue styleData st).2.
  intros p [Hr Hf].
  destruct (assemble h validatedForPositioning p) as [rules| |] eqn:Hrules;
    try discriminate.
  apply assemble_Returned in Hrules as (_ & bound & Hb & ->).
  cbn [positionAt]. rewrite ruleModel_lookup.
  pose proof (bindFallbacks_nonempty _ _ _ _ Hb Hr) as Hbound.
  destruct (fallbackPositions _ _ !! selector) as [[d f]|] eqn:Hpos.
  - apply fallbackPositions_lookup in Hpos as [Hd (name & blocks & Hn & Hbl)].
    cbn [declarations fallbacks] in Hd, Hbl. subst d f.
    pose proof (Hbound _ _ Hn) as Hne.
    destruct (anchorFunctions p !! selector) as [anchorFns|] eqn:Ha;
      cbn [mbind option_bind]; [unfold boundDeclarations|].
    + rewrite bool_decide_false by (eapply Hf, Ha).
      cbn [withDeclarations mbind option_bind fallbacks]. intros Heq. injection Heq as <-.
      cbn [declarations fallbacks]. split; [left; eexists; reflexivity|]. split.
      * intros fns Heq. injection Heq as <-. rewrite fmap_empty_iff. eapply Hf, Ha.
      * intros bl Heq. injection Heq as <-. exact Hne.
    + cbn [withDeclarations]. intros Heq. injection Heq as <-.
      cbn [declarations fallbacks]. split; [right; eexists; reflexivity|]. split.
      * discriminate.
      * intros bl Heq. injection Heq as <-. exact Hne.
  - destruct (anchorFunctions p !! selector) as [anchorFns|] eqn:Ha;
      cbn [mbind option_bind]; [unfold boundDeclarations|discriminate].
    rewrite bool_decide_false by (eapply Hf, Ha).
    cbn [withDeclarations mbind option_bind]. intros Heq. injection Heq as <-.
    cbn [declarations fallbacks]. split; [left; eexists; reflexivity|]. split.
    + intros fns Heq. injection Heq as <-. rewrite fmap_empty_iff. eapply Hf, Ha.
    + discriminate.
Qed.

End RuleModel.


(** The reference of [secondSheet], bound to the element of [#anchor]. *)
Definition boundReference : Parse.AnchorFunction :=
  {| Parse.anchorEl := Some 2; Parse.anchorName := Some "--a";
     Parse.anchorEdge := Some (SideKeyword "bottom"); Parse.fallbackValue := Some "0px";
     Parse.customPropName := None; Parse.key := Parse.freshKey sampleUuid 0 |}.

(** The reference comes first, the anchor's name in a later sheet. *)
Lemma declarations_are_bound_last_witness :
  Parse.anchorEl boundReference
  = Parse.getAnchorEl sampleHost sampleValidated
      (sampleParseCSS [secondSheet; firstSheet] Parse.emptyStore).2
      (querySelector sampleHost "#target") boundReference.
Proof.
  apply (declarations_are_bound_last sampleHost sampleUuid sampleGenerate
           sampleGenerateValue sampleValidated [secondSheet; firstSheet]
           Parse.emptyStore "#target" "top" boundReference).
  vm_compute. reflexivity.
Defined.

(** The reference and the entry of [#target] for [secondSheet] alone: no
    anchor is named. *)
Definition unboundReference : Parse.AnchorFunction :=
  {| Parse.anchorEl := None; Parse.anchorName := Some "--a";
     Parse.anchorEdge := Some (SideKeyword "bottom"); Parse.fallbackValue := Some "0px";
     Parse.customPropName := None; Parse.key := Parse.freshKey sampleUuid 0 |}.

Definition samplePosition : Parse.AnchorPosition :=
  {| Parse.declarations := Some {[ "top" := unboundReference ]};
     Parse.fallbacks := None |}.

Lemma rule_model_has_no_empty_entry_witness :
  is_Some (Parse.declarations samplePosition) \/ is_Some (Parse.fallbacks samplePosition).
Proof.
  apply (rule_model_has_no_empty_entry sampleHost sampleUuid sampleGenerate
           sampleGenerateValue sampleValidated [secondSheet] Parse.emptyStore
           "#target" samplePosition).
  vm_compute. reflexivity.
Defined.

(** ** Where the entries of the rule model come from *)

Section WalkProvenance.
Import Parse.
Context {S : Type}.
Variable enterValue : option string -> string -> ValueNode -> S -> Visit * S.
Variable enterNode : option string -> Node -> S -> S.
Variable P : S -> Prop.

Lemma walkValue_keeps_at (rule : option string) (declaration : string) :
  (forall node s, P s -> P (enterValue rule declaration node s).2) ->
  forall node rename s,
    P s -> P (walkValue enterValue rule declaration rename node s).2.
Proof.
  intros Hkeep node.
  induction node as [name|value|value|value|name children IH|text];
    intros rename s Hs; rewrite walkValue_eq; cbv zeta;
    match goal with
    | |- context [enterValue rule declaration ?n ?s] =>
        pose proof (Hkeep n s Hs) as Hs';
        destruct (enterValue rule declaration n s) as [[renameFirst|node'] s']
    end; cbn [snd] in *; try exact Hs'.
  revert renameFirst s' Hs'.
  induction IH as [|child Hchild children _ IHchildren]; intros renameFirst s' Hs'.
  - exact Hs'.
  - cbn [walkChildren].
    specialize (Hchild renameFirst s' Hs').
    destruct (walkValue enterValue rule declaration renameFirst child s') as [c' s1].
    specialize (IHchildren None s1 Hchild).
    destruct (walkChildren enterValue rule declaration None children s1) as [l'' s2].
    exact IHchildren.
Qed.

Lemma walkChildren_keeps_at (rule : option string) (declaration : string) :
  (forall node s, P s -> P (enterValue rule declaration node s).2) ->
  forall l rename s,
    P s -> P (walkChildren enterValue rule declaration rename l s).2.
Proof.
  intros Hkeep l. induction l as [|c l IH]; intros rename s Hs; [exact Hs|].
  cbn [walkChildren].
  pose proof (walkValue_keeps_at rule declaration Hkeep c rename s Hs) as Hc.
  destruct (walkValue enterValue rule declaration rename c s) as [c' s1].
  specialize (IH None s1 Hc).
  destruct (walkChildren enterValue rule declaration None l s1) as [l'' s2]. exact IH.
Qed.

Lemma list_all_elem {A : Type} (Q : A -> Prop) (l : list A) :
  list_all A Q l -> forall x, x ∈ l -> Q x.
Proof.
  intros Hall. induction Hall as [|a Ha l _ IH]; intros x Hx; [inversion Hx|].
  apply elem_of_cons in Hx as [->|Hx]; [exact Ha|apply IH, Hx].
Qed.

Lemma walkNodes_keeps_each (rule : option string) (block : list Node) :
  (forall child, child ∈ block ->
     forall s, P s -> P (walkNode enterValue enterNode rule child s).2) ->
  forall s, P s -> P (walkNodes enterValue enterNode rule block s).2.
Proof.
  induction block as [|child block IH]; intros Hchild s Hs; [exact Hs|].
  cbn [walkNodes].
  pose proof (Hchild child ltac:(left) s Hs) as Hc.
  destruct (walkNode enterValue enterNode rule child s) as [c' s1].
  specialize (IH (fun x Hx => Hchild x ltac:(right; exact Hx)) s1 Hc).
  destruct (walkNodes enterValue enterNode rule block s1) as [l' s2]. exact IH.
Qed.

(** What [enter] keeps on the nodes that occur in a tree, with the rule
    that encloses them there, the walk of the tree keeps. *)
Lemma walkNode_keeps_occurring (rule0 : option string) (root : Node) :
  (forall rule node s,
     occurs rule node rule0 root -> P s -> P (enterNode rule node s)) ->
  (forall rule property value node s,
     occurs rule (Declaration property value) rule0 root ->
     P s -> P (enterValue rule property node s).2) ->
  forall s, P s -> P (walkNode enterValue enterNode rule0 root s).2.
Proof.
  intros HN HV.
  assert (Hgen : forall node rule,
    (forall r n, occurs r n rule node -> occurs r n rule0 root) ->
    forall s, P s -> P (walkNode enterValue enterNode rule node s).2).
  { clear -HN HV.
    induction node as [prelude block IH|name prelude block IH|property value];
      intros rule Hin s Hs; rewrite walkNode_eq; cbv zeta.
    - pose proof (HN rule _ s (Hin _ _ (occurs_here _ _)) Hs) as Hs'.
      pose proof (walkNodes_keeps_each (Some prelude) block) as Hb.
      match type of Hb with ?A -> _ => assert (Hchildren : A) end.
      { intros child Hc. apply (list_all_elem _ _ IH child Hc).
        intros r n Ho. apply Hin. eapply occurs_rule; eassumption. }
      specialize (Hb Hchildren _ Hs').
      destruct (walkNodes enterValue enterNode (Some prelude) block _) as [b' s1].
      exact Hb.
    - pose proof (HN rule _ s (Hin _ _ (occurs_here _ _)) Hs) as Hs'.
      destruct IH as [block IH|]; [|exact Hs'].
      pose proof (walkNodes_keeps_each rule block) as Hb.
      match type of Hb with ?A -> _ => assert (Hchildren : A) end.
      { intros child Hc. apply (list_all_elem _ _ IH child Hc).
        intros r n Ho. apply Hin. eapply occurs_atrule; eassumption. }
      specialize (Hb Hchildren _ Hs').
      destruct (walkNodes enterValue enterNode rule block _) as [b' s1].
      exact Hb.
    - pose proof (Hin _ _ (occurs_here _ _)) as Hocc.
      pose proof (HN rule _ s Hocc Hs) as Hs'.
      rewrite walkValues_eq.
      pose proof (walkChildren_keeps_at rule property
                    (fun node s => HV rule property value node s Hocc) value None _ Hs')
        as Hv.
      destruct (walkChildren enterValue rule property None value _) as [v' s1].
      exact Hv. }
  apply Hgen. auto.
Qed.

End WalkProvenance.

Section Provenance.
Import Parse.

Variable h : Host.
Variable uuid : nat -> string.
Variable generate : ValueNode -> string.
Variable generateValue : list ValueNode -> string.
Variable validatedForPositioning : option Element -> Candidates -> option Element.

Lemma occurs_skeleton (rule' : option string) (target : Node) (rule : option string)
    (node : Node) :
  occurs rule' target rule node -> occurs rule' (skeleton target) rule (skeleton node).
Proof.
  intros Hocc.
  induction Hocc as [|rule prelude block child Hin _ IH
                     |rule name prelude block child Hin _ IH].
  - apply occurs_here.
  - cbn [skeleton]. eapply occurs_rule; [|exact IH].
    apply list_elem_of_fmap. exists child. auto.
  - cbn [skeleton fmap option_fmap option_map]. eapply occurs_atrule; [|exact IH].
    apply list_elem_of_fmap. exists child. auto.
Qed.

(** The top-level nodes of the sheets, without values. *)
Definition trees (styleData : list StyleData) : list Node :=
  flat_map (fun sheet => map skeleton (css sheet)) styleData.

(** The sheets declare [property] in a rule for [selector]. *)
Definition declaredIn (styleData : list StyleData) (selector property : string) : Prop :=
  exists root,
    root ∈ trees styleData
    /\ occurs (Some selector) (Declaration property []) None root.

Definition justified (styleData : list StyleData) (p : Pass) : Prop :=
  forall selector property e,
    recordedAt p selector property = Some e ->
    isInset property = true /\ selector <> "" /\ declaredIn styleData selector property.

Lemma trees_elem (styleData : list StyleData) (sheet : StyleData) (root : Node) :
  sheet ∈ styleData -> root ∈ css sheet -> skeleton root ∈ trees styleData.
Proof.
  intros Hsheet Hroot. unfold trees. apply list_elem_of_In, in_flat_map.
  exists sheet. split; [apply list_elem_of_In, Hsheet|].
  apply in_map, list_elem_of_In, Hroot.
Qed.

Lemma trees_sameStructure (before after : list StyleData) :
  Forall2 sameStructure before after -> trees after = trees before.
Proof.
  intros H. induction H as [|a b before after Hab _ IH]; [reflexivity|].
  unfold trees in *. cbn [flat_map]. rewrite IH, Hab. reflexivity.
Qed.

Lemma recordedAt_set (s pr : string) (d : AnchorFunction) (p : Pass)
    (selector property : string) (e : AnchorFunction) :
  recordedAt (setAnchorFunction s pr d p) selector property = Some e ->
  (s = selector /\ pr = property) \/ recordedAt p selector property = Some e.
Proof.
  unfold recordedAt, setAnchorFunction.
  destruct (String.eqb s "__proto__"); [auto|]. cbn [anchorFunctions].
  destruct (decide (s = selector)) as [->|Hs].
  - rewrite lookup_insert_eq. cbn [mbind option_bind].
    destruct (decide (pr = property)) as [->|Hp]; [auto|].
    rewrite lookup_insert_ne by exact Hp.
    destruct (anchorFunctions p !! selector); cbn; [auto|].
    rewrite lookup_empty. discriminate.
  - rewrite lookup_insert_ne by exact Hs. auto.
Qed.

Lemma justified_set (styleData : list StyleData) (root : Node) (selector property : string)
    (value : list ValueNode) (d : AnchorFunction) (p : Pass) :
  skeleton root ∈ trees styleData ->
  occurs (Some selector) (Declaration property value) None root ->
  selector <> "" -> isInset property = true ->
  justified styleData p ->
  justified styleData (setAnchorFunction selector property d p).
Proof.
  intros Hroot Hocc Hsel Hprop Hp sel prop e He.
  apply recordedAt_set in He as [[<- <-]|He]; [|apply (Hp _ _ _ He)].
  split; [exact Hprop|]. split; [exact Hsel|].
  exists (skeleton root). split; [exact Hroot|].
  apply (occurs_skeleton _ _ _ _ Hocc).
Qed.

Lemma truthy_Some (rule : option string) :
  truthy rule = true -> exists selector, rule = Some selector /\ selector <> "".
Proof.
  destruct rule as [selector|]; [|discriminate]. cbn.
  rewrite negb_true_iff, String.eqb_neq. eauto.
Qed.

Lemma enterValue1_justified (styleData : list StyleData) (root : Node)
    (rule : option string) (property : string) (value : list ValueNode)
    (node : ValueNode) (p : Pass) :
  skeleton root ∈ trees styleData ->
  occurs rule (Declaration property value) None root ->
  justified styleData p ->
  justified styleData (enterValue1 h uuid generate rule property node p).2.
Proof.
  intros Hroot Hocc Hp. unfold enterValue1.
  destruct (negb (isRunning p)); [exact Hp|].
  destruct node as [name|v|v|v|name children|text]; try exact Hp.
  destruct (isAnchorFunction _) eqn:Hanchor; cbn [andb]; [|exact Hp].
  destruct (truthy rule) eqn:Hrule; [|exact Hp].
  destruct (startsWith property "--"); [exact Hp|].
  destruct (isInset property) eqn:Hprop; [|exact Hp].
  apply truthy_Some in Hrule as (selector & -> & Hsel).
  cbn [snd default from_option].
  eapply justified_set; eauto.
Qed.

Lemma enterValue2_justified (styleData : list StyleData) (root : Node)
    (rule : option string) (property : string) (value : list ValueNode)
    (node : ValueNode) (p : Pass) :
  skeleton root ∈ trees styleData ->
  occurs rule (Declaration property value) None root ->
  justified styleData p ->
  justified styleData (enterValue2 rule property node p).2.
Proof.
  intros Hroot Hocc Hp. unfold enterValue2.
  destruct (negb (isRunning p)); [exact Hp|].
  destruct (truthy rule) eqn:Hrule; cbn [andb]; [|exact Hp].
  destruct (isVarFunction node); cbn [andb]; [|exact Hp].
  destruct (bool_decide _); cbn [andb]; [|exact Hp].
  destruct (isInset property) eqn:Hprop; [|exact Hp].
  cbv zeta. destruct (cloneFor _ _) as [data|]; [|exact Hp].
  apply truthy_Some in Hrule as (selector & -> & Hsel).
  cbn [snd default from_option].
  eapply justified_set; eauto.
Qed.

Lemma registerAnchorName_fields (rule : option string) (node : Node) (p : Pass) :
  anchorFunctions (registerAnchorName rule node p) = anchorFunctions p
  /\ fallbackNames (registerAnchorName rule node p) = fallbackNames p.
Proof.
  unfold registerAnchorName.
  destruct (getAnchorNameData node rule) as [[[anchorName|] anchorSelector]|]; auto.
  destruct (negb (String.eqb anchorName "")); auto.
  cbv zeta. destruct (getProperty _ _); auto.
Qed.

Lemma registerFallbackRules_fields (node : Node) (p : Pass) :
  anchorFunctions (registerFallbackRules h uuid generate generateValue node p)
  = anchorFunctions p
  /\ fallbackNames (registerFallbackRules h uuid generate generateValue node p)
     = fallbackNames p.
Proof.
  unfold registerFallbackRules.
  destruct (getPositionFallbackRules h uuid generate generateValue node (store p))
    as [[[fbRuleName fbTryBlocks]|] st']; auto.
  destruct (negb (Nat.eqb (length fbTryBlocks) 0)); auto.
  destruct (String.eqb fbRuleName "__proto__"); auto.
Qed.

Lemma registerFallbackName_anchorFunctions (rule : option string) (node : Node)
    (p : Pass) :
  anchorFunctions (registerFallbackName rule node p) = anchorFunctions p.
Proof.
  unfold registerFallbackName.
  destruct (getPositionFallbackDeclaration node rule) as [[[fbName|] fbSelector]|]; auto.
  destruct (_ && _)%bool; auto.
Qed.

Lemma enterNode1_anchorFunctions (rule : option string) (node : Node) (p : Pass) :
  anchorFunctions (enterNode1 h uuid generate generateValue rule node p)
  = anchorFunctions p.
Proof.
  unfold enterNode1. cbv zeta.
  destruct (negb (isRunning p)); [reflexivity|].
  destruct (negb (isRunning (registerAnchorName rule node p)));
    [apply registerAnchorName_fields|].
  rewrite (proj1 (registerFallbackRules_fields _ _)),
    registerFallbackName_anchorFunctions.
  apply registerAnchorName_fields.
Qed.

Lemma walkSheets_keeps_occurring (all : list StyleData) (P : Pass -> Prop)
    (enterValue : option string -> string -> ValueNode -> Pass -> Visit * Pass)
    (enterNode : option string -> Node -> Pass -> Pass) :
  (forall p c, P p -> P {| store := store p; anchorFunctions := anchorFunctions p;
                           fallbackNames := fallbackNames p;
                           fallbackRules := fallbackRules p; astChanged := c;
                           status := status p |}) ->
  (forall root rule property value node p,
     skeleton root ∈ trees all ->
     occurs rule (Declaration property value) None root ->
     P p -> P (enterValue rule property node p).2) ->
  (forall root rule node p,
     skeleton root ∈ trees all -> occurs rule node None root ->
     P p -> P (enterNode rule node p)) ->
  forall styleData p,
    (forall sheet root, sheet ∈ styleData -> root ∈ css sheet ->
                        skeleton root ∈ trees all) ->
    P p -> P (walkSheets enterValue enterNode styleData p).2.
Proof.
  intros Hflag HV HN styleData.
  induction styleData as [|styleObj rest IH]; intros p Hin Hp; [exact Hp|].
  cbn [walkSheets]. unfold walkSheet.
  match goal with
  | |- context [walk enterValue enterNode (css styleObj) ?q] =>
      assert (Hw : P (walk enterValue enterNode (css styleObj) q).2);
      [|destruct (walk enterValue enterNode (css styleObj) q) as [ast q1]]
  end.
  { rewrite walk_eq.
    apply (walkNodes_keeps_each enterValue enterNode P); [|apply Hflag, Hp].
    intros root Hroot.
    assert (Htree : skeleton root ∈ trees all)
      by (apply (Hin styleObj root); [left|exact Hroot]).
    apply (walkNode_keeps_occurring enterValue enterNode P).
    - intros rule node s Hocc Hs. apply (HN root); assumption.
    - intros rule property value node s Hocc Hs.
      apply (HV root rule property value node s); assumption. }
  cbn [snd] in Hw.
  assert (Hrest : P (walkSheets enterValue enterNode rest q1).2).
  { apply IH; [|exact Hw]. intros sheet root Hs. apply Hin. right. exact Hs. }
  destruct (astChanged q1 && isRunning q1)%bool;
    destruct (walkSheets enterValue enterNode rest q1) as [rest' p']; exact Hrest.
Qed.

(** What both walks keep, the pass has when the walks are over. *)
Lemma walks_keep_occurring (P : Pass -> Prop) (styleData : list StyleData) (st : Store) :
  (forall p c, P p -> P {| store := store p; anchorFunctions := anchorFunctions p;
                           fallbackNames := fallbackNames p;
                           fallbackRules := fallbackRules p; astChanged := c;
                           status := status p |}) ->
  (forall root rule property value node p,
     skeleton root ∈ trees styleData ->
     occurs rule (Declaration property value) None root ->
     P p -> P (enterValue1 h uuid generate rule property node p).2) ->
  (forall root rule node p,
     skeleton root ∈ trees styleData -> occurs rule node None root ->
     P p -> P (enterNode1 h uuid generate generateValue rule node p)) ->
  (forall root rule property value node p,
     skeleton root ∈ trees styleData ->
     occurs rule (Declaration property value) None root ->
     P p -> P (enterValue2 rule property node p).2) ->
  P (initialPass st) ->
  P (walks h uuid generate generateValue styleData st).2.
Proof.
  intros Hflag HV1 HN1 HV2 H0. unfold walks. cbv zeta.
  assert (H1 : P (walkSheets (enterValue1 h uuid generate)
                    (enterNode1 h uuid generate generateValue) styleData
                    (initialPass st)).2).
  { apply (walkSheets_keeps_occurring styleData P); try assumption.
    intros sheet root. apply trees_elem. }
  pose proof (walkSheets_structure (enterValue1 h uuid generate)
                (enterNode1 h uuid generate generateValue) styleData (initialPass st))
    as Hsame.
  destruct (walkSheets _ _ styleData (initialPass st)) as [styleData1 p1].
  cbn [fst snd] in *.
  destruct (_ || _)%bool; [exact H1|].
  apply (walkSheets_keeps_occurring styleData P); try assumption.
  - intros root rule node p _ _ Hp. exact Hp.
  - intros sheet root Hsheet Hroot. rewrite <- (trees_sameStructure _ _ Hsame).
    apply (trees_elem _ sheet); assumption.
Qed.


(** *** Try blocks *)

Definition fallbackJustified (styleData : list StyleData) (p : Pass) : Prop :=
  forall selector name,
    (selector, name) ∈ fallbackNames p ->
    selector <> "" /\ name <> ""
    /\ declaredIn styleData selector "position-fallback".

Lemma elem_of_assign {V : Type} (k : string) (v : V) (o : list (string * V))
    (x : string * V) :
  x ∈ assign k v o -> x = (k, v) \/ x ∈ o.
Proof.
  induction o as [|[k' v'] o IH]; cbn [assign].
  - intros Hx. apply list_elem_of_singleton in Hx. auto.
  - destruct (String.eqb k k').
    + intros Hx. apply elem_of_cons in Hx as [->|Hx]; [auto|].
      right. right. exact Hx.
    + intros Hx. apply elem_of_cons in Hx as [->|Hx]; [right; left|].
      destruct (IH Hx) as [->|Ho]; [auto|]. right. right. exact Ho.
Qed.

Lemma getPositionFallbackDeclaration_Some (node : Node) (rule : option string)
    (name : option string) (selector : string) :
  getPositionFallbackDeclaration node rule = Some (name, selector) ->
  exists value,
    node = Declaration "position-fallback" value
    /\ rule = Some selector /\ selector <> "".
Proof.
  unfold getPositionFallbackDeclaration.
  destruct node as [prelude block|n prelude block|property value]; try discriminate.
  cbn [isFallbackDeclaration].
  destruct (String.eqb_spec property "position-fallback") as [->|]; [|discriminate].
  destruct (bool_decide _); [|discriminate].
  destruct (truthy rule) eqn:Hrule; [|discriminate].
  apply truthy_Some in Hrule as (sel & -> & Hsel).
  cbn. intros Heq. injection Heq as _ <-. eauto.
Qed.

Lemma registerFallbackName_fallbackNames (rule : option string) (node : Node) (p : Pass)
    (selector name : string) :
  (selector, name) ∈ fallbackNames (registerFallbackName rule node p) ->
  (selector, name) ∈ fallbackNames p
  \/ (getPositionFallbackDeclaration node rule = Some (Some name, selector)
      /\ name <> "").
Proof.
  unfold registerFallbackName.
  destruct (getPositionFallbackDeclaration node rule) as [[[fbName|] fbSelector]|];
    auto.
  destruct (String.eqb_spec fbName "") as [|Hname]; cbn [negb andb]; [auto|].
  destruct (negb (String.eqb fbSelector "__proto__")); [|auto].
  cbn [fallbackNames]. intros Hin.
  apply elem_of_assign in Hin as [Heq|Hin]; [|auto].
  injection Heq as -> ->. auto.
Qed.

Lemma enterNode1_fallbackJustified (styleData : list StyleData) (root : Node)
    (rule : option string) (node : Node) (p : Pass) :
  skeleton root ∈ trees styleData -> occurs rule node None root ->
  fallbackJustified styleData p ->
  fallbackJustified styleData (enterNode1 h uuid generate generateValue rule node p).
Proof.
  intros Hroot Hocc Hp selector name. unfold enterNode1. cbv zeta.
  destruct (negb (isRunning p)); [apply Hp|].
  destruct (negb (isRunning (registerAnchorName rule node p))).
  { rewrite (proj2 (registerAnchorName_fields _ _ _)). apply Hp. }
  rewrite (proj2 (registerFallbackRules_fields _ _)). intros Hin.
  apply registerFallbackName_fallbackNames in Hin as [Hin|[Hdecl Hname]].
  { rewrite (proj2 (registerAnchorName_fields _ _ _)) in Hin. apply Hp, Hin. }
  apply getPositionFallbackDeclaration_Some in Hdecl as (value & -> & -> & Hsel).
  split; [exact Hsel|]. split; [exact Hname|].
  exists (skeleton root). split; [exact Hroot|].
  apply (occurs_skeleton _ _ _ _ Hocc).
Qed.

Lemma setAnchorFunction_fallbackNames (selector property : string)
    (data : AnchorFunction) (p : Pass) :
  fallbackNames (setAnchorFunction selector property data p) = fallbackNames p.
Proof. unfold setAnchorFunction. destruct (String.eqb selector "__proto__"); reflexivity. Qed.

Lemma enterValue1_fallbackNames (rule : option string) (property : string)
    (node : ValueNode) (p : Pass) :
  fallbackNames (enterValue1 h uuid generate rule property node p).2 = fallbackNames p.
Proof.
  unfold enterValue1.
  destruct (negb (isRunning p)); [reflexivity|].
  destruct node as [name|v|v|v|name children|text]; try reflexivity.
  destruct (_ && _)%bool; [|reflexivity].
  destruct (startsWith property "--"); [reflexivity|].
  destruct (isInset property); [|reflexivity].
  unfold parseAnchorFn. cbv zeta. cbn [snd].
  rewrite setAnchorFunction_fallbackNames. reflexivity.
Qed.

Lemma enterValue2_fallbackNames (rule : option string) (property : string)
    (node : ValueNode) (p : Pass) :
  fallbackNames (enterValue2 rule property node p).2 = fallbackNames p.
Proof.
  unfold enterValue2.
  destruct (negb (isRunning p)); [reflexivity|].
  destruct (_ && _)%bool; [|reflexivity].
  cbv zeta. destruct (cloneFor _ _); [|reflexivity].
  cbn [snd]. apply setAnchorFunction_fallbackNames.
Qed.

Lemma fallbackPositions_named (names : list (string * string))
    (rules : gmap string (list TryBlock)) (selector : string) (position : AnchorPosition) :
  fallbackPositions names rules !! selector = Some position ->
  exists name, (selector, name) ∈ names.
Proof.
  unfold fallbackPositions.
  assert (Hgen : forall (l : list (string * string)) (acc : gmap string AnchorPosition),
    fold_left
      (fun validPositions '(targetSel, fallbackName) =>
         match rules !! fallbackName with
         | Some positionFallbacks =>
             <[targetSel := {| declarations := None;
                               fallbacks := Some positionFallbacks |}]> validPositions
         | None => validPositions
         end) l acc !! selector = Some position ->
    is_Some (acc !! selector) \/ exists name, (selector, name) ∈ l).
  { induction l as [|[targetSel fallbackName] l IH]; intros acc Hl.
    - left. cbn in Hl. eauto.
    - cbn [fold_left] in Hl. apply IH in Hl as [Hacc|[name Hin]].
      + destruct (rules !! fallbackName).
        * destruct (decide (targetSel = selector)) as [->|Hne].
          -- right. exists fallbackName. left.
          -- rewrite lookup_insert_ne in Hacc by exact Hne. auto.
        * auto.
      + right. exists name. right. exact Hin. }
  intros Hl. apply Hgen in Hl as [[x Hx]|H]; [|exact H].
  rewrite lookup_empty in Hx. discriminate.
Qed.

Lemma assemble_fallbacks_named (p : Pass) (selector : string) (blocks : list TryBlock) :
  fallbacksOf (assemble h validatedForPositioning p) selector = Some blocks ->
  exists name, (selector, name) ∈ fallbackNames p.
Proof.
  destruct (assemble h validatedForPositioning p) as [rules| |] eqn:Hrules;
    try discriminate.
  apply assemble_Returned in Hrules as (_ & bound & _ & ->).
  unfold fallbacksOf, fallbacksIn. rewrite ruleModel_lookup.
  destruct (fallbackPositions _ _ !! selector) as [position|] eqn:Hp.
  - intros _. apply fallbackPositions_named in Hp. exact Hp.
  - destruct (_ ≫= boundDeclarations _ _ _ _); discriminate.
Qed.

(** X11: the try blocks of the rule model come from the sheets too: a selector
    with try blocks is not empty, and a rule with that selector in one of
    the sheets has a [position-fallback] declaration. *)
Theorem fallbacks_come_from_rules (styleData : list StyleData) (st : Store)
    (selector : string) (blocks : list TryBlock) :
  fallbacksOf
    (parseCSS h uuid generate generateValue validatedForPositioning styleData st).1.1
    selector = Some blocks ->
  selector <> "" /\ declaredIn styleData selector "position-fallback".
Proof.
  rewrite parseCSS_eq. cbn [fst snd]. intros Hb.
  apply assemble_fallbacks_named in Hb as [name Hin].
  match type of Hin with
  | _ ∈ fallbackNames ?x => assert (HJ : fallbackJustified styleData x)
  end.
  { apply (walks_keep_occurring (fallbackJustified styleData) styleData st).
    - intros p c Hp. exact Hp.
    - intros root rule prop value node p _ _ Hp s n.
      rewrite enterValue1_fallbackNames. apply Hp.
    - intros root rule node p. apply enterNode1_fallbackJustified.
    - intros root rule prop value node p _ _ Hp s n.
      rewrite enterValue2_fallbackNames. apply Hp.
    - intros s n Hx. inversion Hx. }
  destruct (HJ selector name Hin) as (Hsel & _ & Hd). auto.
Qed.

End Provenance.


Lemma fallbacks_come_from_rules_witness :
  "#target" <> "" /\ declaredIn [rewrittenSheet] "#target" "position-fallback".
Proof.
  apply (fallbacks_come_from_rules sampleHost sampleUuid sampleGenerate
           sampleGenerateValue sampleValidated [rewrittenSheet] Parse.emptyStore
           "#target" [{[ "left" := Parse.TryRaw "10px" ]}]).
  vm_compute. reflexivity.
Defined.

(** ** [anchor-size()] *)

Section AnchorSize.
Import Polyfill.

Variable h : Host.
Variable isSizingProp : string -> bool.

(** Whether the target is laid out in a vertical writing mode. *)
Definition verticalWritingMode (target : Element) : bool :=
  let writingMode := getCSSPropertyValue h target "writing-mode" in
  (startsWith writingMode "vertical-" || startsWith writingMode "sideways-")%bool.

(** The dimension a size keyword names. *)
Definition dimensionOf (vertical : bool) (size : string) : option Dimension :=
  if String.eqb size "width" then Some dim_width
  else if String.eqb size "height" then Some dim_height
  else if (String.eqb size "block" || String.eqb size "self-block")%bool then
    Some (if vertical then dim_width else dim_height)
  else if (String.eqb size "inline" || String.eqb size "self-inline")%bool then
    Some (if vertical then dim_height else dim_width)
  else None.

Ltac next_character s :=
  destruct s as [|[[] [] [] [] [] [] [] []] s]; try reflexivity.

Lemma resolvedSize_dimensionOf (target : Element) (size : string) :
  resolvedSize h target size = dimensionOf (verticalWritingMode target) size.
Proof.
  unfold resolvedSize, dimensionOf, verticalWritingMode, resolveLogicalSizeKeyword.
  next_character size; next_character size; next_character size; next_character size;
    next_character size; next_character size; next_character size.
Qed.

(** X12: [anchor-size()] on a sizing property of a target with a bound rect is
    the rect's width or height in pixels: [width] and [height] name them
    directly; [block] and [self-block] name the height, and [inline] and
    [self-inline] the width, the other way round when the target's writing
    mode is vertical; any other keyword gives the fallback. A side given
    beside the size plays no part. *)
Theorem anchor_size_pixels (target : Element) (property : string) (rect : Rect)
    (side : option AnchorSide) (size fb : string) :
  isSizingProp property = true ->
  size <> "" ->
  getPixelValue h isSizingProp
    {| targetEl := Some target; targetProperty := property; anchorRect := Some rect;
       anchorSide := side; anchorSize := Some size; fallback := fb |}
  = match dimensionOf (verticalWritingMode target) size with
    | Some dim_width => numberToString h (width rect) ++ "px"
    | Some dim_height => numberToString h (height rect) ++ "px"
    | None => fb
    end.
Proof.
  intros Hprop Hsize. unfold getPixelValue.
  cbn [targetEl anchorRect anchorSize anchorSide targetProperty fallback truthy default].
  rewrite (eqb_empty_false _ Hsize), Hprop. cbn [negb orb].
  rewrite resolvedSize_dimensionOf. unfold id.
  destruct (dimensionOf (verticalWritingMode target) size) as [[]|]; reflexivity.
Qed.

End AnchorSize.

Lemma anchor_size_pixels_witness :
  Polyfill.getPixelValue sampleHost sampleSizing
    {| Polyfill.targetEl := Some 1; Polyfill.targetProperty := "width";
       Polyfill.anchorRect := Some sampleRect; Polyfill.anchorSide := None;
       Polyfill.anchorSize := Some "block"; Polyfill.fallback := "0px" |}
  = numberToString sampleHost 20 ++ "px".
Proof.
  refine (eq_trans
    (anchor_size_pixels sampleHost sampleSizing 1 "width" sampleRect None "block" "0px"
       _ _) _).
  - reflexivity.
  - discriminate.
  - reflexivity.
Defined.

(** ** Writing direction *)

Section Direction.
Import Polyfill.

Variable isSizingProp : string -> bool.

(** The host [h] with every element written right to left ([rtl]) or left
    to right. *)
Definition withDirection (rtl : bool) (h : Host) : Host :=
  {| getPropertyValue := getPropertyValue h;
     platform_getOffsetParent := platform_getOffsetParent h;
     platform_isElement := platform_isElement h;
     platform_getDocumentElement := platform_getDocumentElement h;
     documentElement := documentElement h;
     platform_isRTL := fun _ => Some rtl;
     clientHeight := clientHeight h;
     clientWidth := clientWidth h;
     offsetHeight := offsetHeight h;
     offsetWidth := offsetWidth h;
     parseInt := parseInt h;
     numberToString := numberToString h;
     toNumber := toNumber h;
     querySelector := querySelector h |}.

(** An [anchor()] reference with the side [side]. *)
Definition sideReference (target : Element) (property : string) (rect : Rect)
    (fb : string) (side : string) : GetPixelValueOpts :=
  {| targetEl := Some target; targetProperty := property; anchorRect := Some rect;
     anchorSide := Some (SideKeyword side); anchorSize := None; fallback := fb |}.

(** X13: right to left, the logical sides resolve as their opposites do left to
    right; the physical sides and [center] resolve the same in both
    directions. *)
Theorem direction_mirrors_logical_sides (h : Host) (target : Element) (property : string)
    (rect : Rect) (fb : string) :
  let rtl side :=
    getPixelValue (withDirection true h) isSizingProp
      (sideReference target property rect fb side) in
  let ltr side :=
    getPixelValue (withDirection false h) isSizingProp
      (sideReference target property rect fb side) in
  rtl "start" = ltr "end" /\ rtl "end" = ltr "start"
  /\ rtl "self-start" = ltr "self-end" /\ rtl "self-end" = ltr "self-start"
  /\ rtl "left" = ltr "left" /\ rtl "right" = ltr "right"
  /\ rtl "top" = ltr "top" /\ rtl "bottom" = ltr "bottom"
  /\ rtl "center" = ltr "center".
Proof.
  cbv zeta. repeat split; reflexivity.
Qed.

End Direction.

(** ** What the resolver returns *)

Section ResolverResult.
Import Polyfill.

Variable h : Host.
Variable isSizingProp : string -> bool.

(** X14: whatever it is given, the resolver returns the fallback as it is, or a
    number followed by [px]; and it returns the fallback whenever the
    reference has neither a side nor a size. *)
Theorem resolver_returns_pixels_or_fallback (opts : GetPixelValueOpts) :
  (getPixelValue h isSizingProp opts = fallback opts
   \/ exists value, getPixelValue h isSizingProp opts = numberToString h value ++ "px")
  /\ (truthy (anchorSize opts) = false -> anchorSide opts = None ->
      getPixelValue h isSizingProp opts = fallback opts).
Proof.
  unfold getPixelValue. split.
  - destruct (targetEl opts) as [target|]; [|auto].
    destruct (anchorRect opts) as [rect|]; [|auto].
    destruct (negb _); [auto|].
    destruct (truthy (anchorSize opts)).
    + destruct (negb _); [auto|]. destruct (resolvedSize _ _ _); eauto.
    + destruct (anchorSide opts) as [side|]; [|auto].
      destruct (negb _); [auto|]. cbv zeta.
      destruct (sidePercentage h target side) as [percentage|]; [|auto].
      destruct (getAxis (targetProperty opts)) as [axis|]; [|auto].
      cbn [getAxisProperty].
      destruct axis; destruct (PrimFloat.is_nan percentage); eauto.
  - intros Hsize Hside. rewrite Hsize, Hside.
    destruct (targetEl opts), (anchorRect opts); reflexivity.
Qed.

End ResolverResult.

(** ** A default position that fits *)

Section Targets.
Import Polyfill.

Variable fallbacks : list TryBlock.
Variable order : string.

(** X16: when the default position fits, whatever the order: the block applied
    before is taken off the target, no try block is measured, and the
    target is at rest again. *)
Theorem default_fit_takes_fallback_off (s : TargetState) (defaultOverflow : SideObject.t) :
  checking s = false ->
  pending s = [] ->
  noneOverflows defaultOverflow = true ->
  run fallbacks order [LayoutChange; Overflow 0 defaultOverflow] s
  = {| checking := false; attribute := None; pending := [];
       checks := checks s ++ [None] |}.
Proof.
  intros Hc Hp Hfit. rewrite !run_cons, step_layout_change, Hp by exact Hc.
  cbn. rewrite Hfit. reflexivity.
Qed.

End Targets.

Lemma default_fit_takes_fallback_off_witness :
  Polyfill.run sampleBlocks "most-width"
    [Polyfill.LayoutChange; Polyfill.Overflow 0 fitting]
    {| Polyfill.checking := false; Polyfill.attribute := Some "try-1";
       Polyfill.pending := []; Polyfill.checks := [] |}
  = {| Polyfill.checking := false; Polyfill.attribute := None;
       Polyfill.pending := []; Polyfill.checks := [None] |}.
Proof.
  apply (default_fit_takes_fallback_off sampleBlocks "most-width"
           {| Polyfill.checking := false; Polyfill.attribute := Some "try-1";
              Polyfill.pending := []; Polyfill.checks := [] |} fitting);
    reflexivity.
Defined.

(** ** [applyAnchorPositions] *)

Module Apply.

(** The fields of an [AnchorFunction] of the rule model that
    [applyAnchorPositions] reads. *)
Record AnchorFunction := {
  anchorEl : option Element;
  targetEl : option Element;
  anchorSide : option AnchorSide;
  anchorSize : option string;
  fallbackValue : string;
  uuid : string;
}.

(** What [applyAnchorPositions] does on the page: it sets a custom property
    on the root element, or it hands [autoUpdate] a callback for an anchor
    and a target. *)
Inductive Effect :=
| SetProperty (name value : string)
| AutoUpdate (anchor target : Element) (property : string) (anchorValue : AnchorFunction).

Section Callbacks.

Variable h : Host.
Variable isSizingProp : string -> bool.

(** The callback given to [autoUpdate], run when [getElementRects] gives
    [reference] for the anchor. *)
Definition update (reference : Polyfill.Rect) (target : Element) (property : string)
    (anchorValue : AnchorFunction) : Effect :=
  let resolved :=
    Polyfill.getPixelValue h isSizingProp
      {| Polyfill.targetEl := Some target;
         Polyfill.targetProperty := property;
         Polyfill.anchorRect := Some reference;
         Polyfill.anchorSide := anchorSide anchorValue;
         Polyfill.anchorSize := anchorSize anchorValue;
         Polyfill.fallback := fallbackValue anchorValue |} in
  SetProperty (uuid anchorValue) resolved.

(** The body of the inner loop. *)
Definition applyAnchorValue (property : string) (anchorValue : AnchorFunction) : Effect :=
  match anchorEl anchorValue, targetEl anchorValue with
  | Some anchor, Some target => AutoUpdate anchor target property anchorValue
  | _, _ =>
      (* Use fallback value *)
      let resolved :=
        Polyfill.getPixelValue h isSizingProp
          {| Polyfill.targetEl := None;
             Polyfill.targetProperty := property;
             Polyfill.anchorRect := None;
             Polyfill.anchorSide := anchorSide anchorValue;
             Polyfill.anchorSize := anchorSize anchorValue;
             Polyfill.fallback := fallbackValue anchorValue |} in
      SetProperty (uuid anchorValue) resolved
  end.

(** [applyAnchorPositions(declarations)], on the entries of [declarations]
    in their order: the effects, in the order they happen. *)
Definition applyAnchorPositions (declarations : list (string * list AnchorFunction))
    : list Effect :=
  fold_left
    (fun effects '(property, anchorValues) =>
       fold_left
         (fun effects anchorValue =>
            (effects ++ [applyAnchorValue property anchorValue])%list)
         anchorValues effects)
    declarations [].

End Callbacks.

End Apply.

Section ApplyFacts.
Import Apply.

Variable h : Host.
Variable isSizingProp : string -> bool.

(** A reference with both its elements. *)
Definition bound (anchorValue : AnchorFunction) : bool :=
  match anchorEl anchorValue, targetEl anchorValue with
  | Some _, Some _ => true
  | _, _ => false
  end.

(** The references of [declarations] with their properties, in order. *)
Definition references (declarations : list (string * list AnchorFunction))
    : list (string * AnchorFunction) :=
  flat_map (fun '(property, anchorValues) => map (pair property) anchorValues)
    declarations.

Lemma applyAnchorValues_app (property : string) (anchorValues : list AnchorFunction) :
  forall effects,
    fold_left
      (fun effects anchorValue =>
         (effects ++ [applyAnchorValue h isSizingProp property anchorValue])%list)
      anchorValues effects
    = (effects ++ map (applyAnchorValue h isSizingProp property) anchorValues)%list.
Proof.
  induction anchorValues as [|anchorValue anchorValues IH]; intros effects.
  - cbn. rewrite app_nil_r. reflexivity.
  - cbn [fold_left map]. rewrite IH, <- app_assoc. reflexivity.
Qed.

Lemma applyAnchorPositions_references (declarations : list (string * list AnchorFunction)) :
  applyAnchorPositions h isSizingProp declarations
  = map (fun '(property, anchorValue) =>
           applyAnchorValue h isSizingProp property anchorValue)
      (references declarations).
Proof.
  unfold applyAnchorPositions.
  assert (Hgen : forall effects,
    fold_left
      (fun effects '(property, anchorValues) =>
         fold_left
           (fun effects anchorValue =>
              (effects ++ [applyAnchorValue h isSizingProp property anchorValue])%list)
           anchorValues effects)
      declarations effects
    = (effects ++ map (fun '(property, anchorValue) =>
                         applyAnchorValue h isSizingProp property anchorValue)
                    (references declarations))%list).
  { induction declarations as [|[property anchorValues] declarations IH]; intros effects.
    - cbn. rewrite app_nil_r. reflexivity.
    - cbn [fold_left references flat_map]. rewrite IH, applyAnchorValues_app.
      fold (references declarations).
      rewrite map_app, map_map, <- app_assoc. reflexivity. }
  apply (Hgen []).
Qed.

(** X17: [applyAnchorPositions] does one thing for each reference, in the order
    of the declarations: a reference without its anchor element or without
    its target element has its custom property set to its fallback value,
    as it is; a reference with both is handed to [autoUpdate], and nothing
    is set for it until its callback runs. The callback sets the
    reference's custom property, and no other. *)
Theorem unbound_references_are_set_to_fallback
    (declarations : list (string * list AnchorFunction)) :
  applyAnchorPositions h isSizingProp declarations
  = map (fun '(property, anchorValue) =>
           match anchorEl anchorValue, targetEl anchorValue with
           | Some anchor, Some target => AutoUpdate anchor target property anchorValue
           | _, _ => SetProperty (uuid anchorValue) (fallbackValue anchorValue)
           end)
      (references declarations)
  /\ forall reference target property anchorValue,
       exists value,
         update h isSizingProp reference target property anchorValue
         = SetProperty (uuid anchorValue) value.
Proof.
  split.
  - rewrite applyAnchorPositions_references. apply map_ext.
    intros [property anchorValue]. unfold applyAnchorValue.
    destruct (anchorEl anchorValue), (targetEl anchorValue); reflexivity.
  - intros reference target property anchorValue. eexists. reflexivity.
Qed.

End ApplyFacts.

(** ** Names that are members of [Object.prototype] *)

Section PrototypeMembers.
Import Parse.

Variable h : Host.
Variable uuid : nat -> string.
Variable generate : ValueNode -> string.
Variable generateValue : list ValueNode -> string.
Variable validatedForPositioning : option Element -> Candidates -> option Element.

Lemma enterValue2_inherited (selector property name : string) (p : Pass) :
  status p = Running ->
  selector <> "" -> isInset property = true ->
  getProperty (customPropAssignments (store p)) name = Inherited ->
  enterValue2 (Some selector) property (Function "var" [Identifier name]) p
  = (Descend (Some ("undefined" ++ "-" ++ property)),
     setAnchorFunction selector property
       {| anchorEl := None; anchorName := None; anchorEdge := None;
          fallbackValue := None; customPropName := None;
          key := "undefined" ++ "-" ++ property |} p).
Proof.
  intros Hrun Hsel Hp Hname. unfold enterValue2.
  unfold isRunning. rewrite Hrun. cbn [negb].
  cbn [isVarFunction truthy firstChild head]. rewrite (eqb_empty_false _ Hsel), Hp.
  change (String.eqb "var" "var") with true.
  rewrite bool_decide_true by (eexists; reflexivity).
  cbn [negb andb mbind option_bind nodeName from_option]. unfold id.
  rewrite Hname. reflexivity.
Qed.

(** X18: the second walk, in a run in which nothing was thrown and no
    prototype replaced, on
    [property: var(name)] in a rule for [selector], [property] an inset
    property, [selector] not [__proto__], and [name] a member of
    [Object.prototype] that is not a custom property with a recorded
    assignment: the member is taken for an assignment. The reference is
    renamed to [undefined-property], and a reference of that key, with no
    anchor name, no side and no fallback, is recorded for [selector] and
    [property]; the sheet is marked as changed. *)
Theorem prototype_member_use_gets_undefined_key (selector property name : string)
    (p : Pass) :
  status p = Running ->
  selector <> "" -> selector <> "__proto__" -> isInset property = true ->
  getProperty (customPropAssignments (store p)) name = Inherited ->
  let key := "undefined-" ++ property in
  let result :=
    walkNode enterValue2 enterNode2 (Some selector)
      (Declaration property [Function "var" [Identifier name]]) p in
  result.1 = Declaration property [Function "var" [Identifier key]]
  /\ store result.2 = store p
  /\ astChanged result.2 = true
  /\ (anchorFunctions result.2 !! selector ≫= (.!! property))
     = Some {| anchorEl := None; anchorName := None; anchorEdge := None;
               fallbackValue := None; customPropName := None; Parse.key := key |}.
Proof.
  intros Hrun Hsel Hproto Hp Hname. cbv zeta.
  rewrite walkNode_eq. cbv zeta. unfold enterNode2.
  rewrite walkValues_eq. cbn [walkChildren]. rewrite walkValue_eq. cbv zeta.
  cbn [from_option]. rewrite (enterValue2_inherited _ _ _ _ Hrun Hsel Hp Hname).
  cbn [walkChildren]. rewrite walkValue_eq. cbv zeta.
  cbn [from_option setName]. rewrite enterValue2_identifier.
  cbn [fst snd nodeName from_option]. unfold id.
  match goal with
  | |- context [setAnchorFunction selector property ?data ?q] =>
      destruct (setAnchorFunction_lookup selector property data q Hproto)
        as [Hchanged Hlookup];
      pose proof (setAnchorFunction_store selector property data q) as Hstore
  end.
  split; [reflexivity|]. split; [exact Hstore|]. split; [exact Hchanged|].
  exact Hlookup.
Qed.

(** *** An anchor named after a member *)

Lemma getProperty_insert_ne {V : Type} (obj : gmap string V) (key key' : string)
    (value : V) :
  key <> key' -> getProperty (<[key := value]> obj) key' = getProperty obj key'.
Proof. intros Hne. unfold getProperty. rewrite lookup_insert_ne by exact Hne. reflexivity. Qed.

(** [anchorNames[name]] is a member of [Object.prototype]. *)
Definition inheritedName (name : string) (p : Pass) : Prop :=
  getProperty (anchorNames (store p)) name = Inherited.

Lemma registerAnchorName_inherited (name : string) (rule : option string) (node : Node)
    (p : Pass) :
  inheritedName name p <-> inheritedName name (registerAnchorName rule node p).
Proof.
  unfold inheritedName, registerAnchorName.
  destruct (getAnchorNameData node rule) as [[[anchorName|] anchorSelector]|];
    try reflexivity.
  destruct (negb (String.eqb anchorName "")); [|reflexivity].
  cbv zeta.
  destruct (getProperty (anchorNames (store p)) anchorName) as [selectors| |] eqn:Hget;
    [|reflexivity|]; cbn [store withStore anchorNames];
    (destruct (decide (anchorName = name)) as [->|Hne];
     [|rewrite getProperty_insert_ne by exact Hne; reflexivity]);
    rewrite Hget; unfold getProperty; rewrite lookup_insert_eq;
    split; discriminate.
Qed.

Lemma enterNode1_inherited (name : string) (rule : option string) (node : Node)
    (p : Pass) :
  inheritedName name p
  <-> inheritedName name (enterNode1 h uuid generate generateValue rule node p).
Proof.
  unfold enterNode1. cbv zeta.
  destruct (negb (isRunning p)); [reflexivity|].
  rewrite (registerAnchorName_inherited name rule node p).
  destruct (negb (isRunning (registerAnchorName rule node p))); [reflexivity|].
  unfold inheritedName.
  pose proof (registerFallbackRules_registries h uuid generate generateValue node
                (registerFallbackName rule node (registerAnchorName rule node p)))
    as (Hnames & _).
  rewrite Hnames, registerFallbackName_store. reflexivity.
Qed.

Lemma enterValue1_anchorNames (rule : option string) (property : string)
    (node : ValueNode) (p : Pass) :
  anchorNames (store (enterValue1 h uuid generate rule property node p).2)
  = anchorNames (store p).
Proof.
  unfold enterValue1.
  destruct (negb (isRunning p)); [reflexivity|].
  destruct node as [name|v|v|v|name children|text]; try reflexivity.
  destruct (isAnchorFunction _ && truthy rule)%bool; [|reflexivity].
  destruct (startsWith property "--"); [reflexivity|].
  destruct (isInset property); [|reflexivity].
  unfold parseAnchorFn. cbv zeta. cbn [snd]. rewrite setAnchorFunction_store.
  reflexivity.
Qed.

(** Where [anchorNames[name]] is a member, the run has thrown. *)
Definition stoppedIfInherited (name : string) (p : Pass) : Prop :=
  inheritedName name p -> isRunning p = false.

Lemma not_running (p : Pass) : isRunning p <> true -> isRunning p = false.
Proof. destruct (isRunning p); congruence. Qed.

Lemma enterNode1_stops (name selector : string) (more : list ValueNode) (p : Pass) :
  selector <> "" ->
  stoppedIfInherited name
    (enterNode1 h uuid generate generateValue (Some selector)
       (anchorNameDeclaration name more) p).
Proof.
  intros Hsel Hin. apply not_running. intros Hrun.
  apply enterNode1_inherited in Hin.
  pose proof (getProperty_Inherited _ _ Hin) as Hmember.
  assert (Hname : String.eqb name "" = false).
  { destruct (String.eqb_spec name "") as [->|]; [discriminate Hmember|reflexivity]. }
  revert Hrun. unfold enterNode1. cbv zeta.
  destruct (isRunning p) eqn:Hp; [|cbn [negb]; rewrite Hp; discriminate].
  cbn [negb].
  assert (Hthrew : isRunning (registerAnchorName (Some selector)
                                (anchorNameDeclaration name more) p) = false).
  { unfold registerAnchorName, anchorNameDeclaration. cbn.
    rewrite (eqb_empty_false _ Hsel). cbn. rewrite Hname. cbn.
    unfold inheritedName in Hin. rewrite Hin. reflexivity. }
  rewrite Hthrew. cbn [negb]. rewrite Hthrew. discriminate.
Qed.

Lemma walkSheets_establishes (P : Pass -> Prop)
    (enterValue : option string -> string -> ValueNode -> Pass -> Visit * Pass)
    (enterNode : option string -> Node -> Pass -> Pass)
    (rule' : option string) (target : Node) :
  (forall p c, P p -> P {| store := store p; anchorFunctions := anchorFunctions p;
                           fallbackNames := fallbackNames p;
                           fallbackRules := fallbackRules p; astChanged := c;
                           status := status p |}) ->
  (forall rule declaration node p, P p -> P (enterValue rule declaration node p).2) ->
  (forall rule node p, P p -> P (enterNode rule node p)) ->
  (forall p, P (enterNode rule' target p)) ->
  forall styleData sheet node,
    sheet ∈ styleData -> node ∈ css sheet -> occurs rule' target None node ->
    forall p, P (walkSheets enterValue enterNode styleData p).2.
Proof.
  intros Hflag HV HN Hest styleData sheet node Hsheet Hnode Hocc.
  induction styleData as [|styleObj rest IH]; intros p; [inversion Hsheet|].
  cbn [walkSheets]. unfold walkSheet.
  apply elem_of_cons in Hsheet as [<-|Hsheet].
  - match goal with
    | |- context [walk enterValue enterNode (css sheet) ?q] =>
        pose proof (walk_establishes enterValue enterNode P HV HN rule' target
                      (css sheet) node Hnode Hocc Hest q) as Hw;
        destruct (walk enterValue enterNode (css sheet) q) as [ast q1]
    end.
    cbn [snd] in Hw.
    pose proof (walkSheets_keeps P enterValue enterNode Hflag HV HN rest q1 Hw) as Hr.
    destruct (astChanged q1 && isRunning q1)%bool;
      destruct (walkSheets enterValue enterNode rest q1) as [rest' p']; exact Hr.
  - match goal with
    | |- context [walk enterValue enterNode (css styleObj) ?q] =>
        destruct (walk enterValue enterNode (css styleObj) q) as [ast q1]
    end.
    specialize (IH Hsheet q1).
    destruct (astChanged q1 && isRunning q1)%bool;
      destruct (walkSheets enterValue enterNode rest q1) as [rest' p']; exact IH.
Qed.

(** X19: an [anchor-name] declaration, in a rule of any of the sheets, whose
    name is a member of [Object.prototype] that the registry does not hold
    as a name of its own, makes [parseCSS] throw. *)
Theorem anchor_named_after_prototype_member_throws
    (styleData : list StyleData) (st : Store) (sheet : StyleData) (node : Node)
    (name selector : string) (more : list ValueNode) :
  sheet ∈ styleData -> node ∈ css sheet ->
  occurs (Some selector) (anchorNameDeclaration name more) None node ->
  selector <> "" ->
  getProperty (anchorNames st) name = Inherited ->
  (parseCSS h uuid generate generateValue validatedForPositioning styleData st).1.1
  = Throws.
Proof.
  intros Hsheet Hnode Hocc Hsel Hname.
  rewrite parseCSS_eq. cbn [fst snd].
  assert (Hin : inheritedName name (walks h uuid generate generateValue styleData st).2).
  { apply (walks_keep h uuid generate generateValue (inheritedName name)).
    - intros p c Hp. exact Hp.
    - intros rule declaration n p Hp. unfold inheritedName.
      rewrite enterValue1_anchorNames. exact Hp.
    - intros rule n p. apply enterNode1_inherited.
    - intros rule declaration n p Hp. unfold inheritedName.
      rewrite enterValue2_store. exact Hp.
    - exact Hname. }
  assert (Hstopped : stoppedIfInherited name
                       (walks h uuid generate generateValue styleData st).2).
  { assert (HV1 : forall rule declaration n p,
              stoppedIfInherited name p ->
              stoppedIfInherited name (enterValue1 h uuid generate rule declaration n p).2).
    { intros rule declaration n p Hp Hi. apply not_running. intros Hrun.
      apply enterValue1_running in Hrun. unfold inheritedName in Hi.
      rewrite enterValue1_anchorNames in Hi. rewrite (Hp Hi) in Hrun. discriminate. }
    assert (HN1 : forall rule n p,
              stoppedIfInherited name p ->
              stoppedIfInherited name (enterNode1 h uuid generate generateValue rule n p)).
    { intros rule n p Hp Hi. apply not_running. intros Hrun.
      apply enterNode1_running in Hrun. apply enterNode1_inherited in Hi.
      rewrite (Hp Hi) in Hrun. discriminate. }
    unfold walks. cbv zeta.
    pose proof (walkSheets_establishes (stoppedIfInherited name)
                  (enterValue1 h uuid generate)
                  (enterNode1 h uuid generate generateValue)
                  (Some selector) (anchorNameDeclaration name more)
                  ltac:(intros p c Hp; exact Hp) HV1 HN1
                  (fun p => enterNode1_stops name selector more p Hsel)
                  styleData sheet node Hsheet Hnode Hocc (initialPass st)) as Hfirst.
    destruct (walkSheets _ _ styleData (initialPass st)) as [styleData1 p1].
    cbn [fst snd] in *.
    destruct (_ || _)%bool; [exact Hfirst|].
    apply (walkSheets_keeps (stoppedIfInherited name) enterValue2 enterNode2);
      try (intros; assumption).
    intros rule declaration n p Hp Hi. apply not_running. intros Hrun.
    apply enterValue2_running in Hrun. unfold inheritedName in Hi.
    rewrite enterValue2_store in Hi. rewrite (Hp Hi) in Hrun. discriminate. }
  specialize (Hstopped Hin). unfold isRunning in Hstopped. unfold assemble.
  destruct (status (walks h uuid generate generateValue styleData st).2);
    [discriminate|reflexivity|discriminate].
Qed.

(** *** A fallback named after a member *)

(** X20: the loop that binds the try blocks throws when it comes to a
    [position-fallback] declaration whose name is a member of
    [Object.prototype] and not the name of a [@position-fallback] rule. *)
Theorem fallback_named_after_prototype_member_throws (st : Store)
    (names : list (string * string)) (rules : gmap string (list TryBlock))
    (selector name : string) :
  (selector, name) ∈ names ->
  getProperty rules name = Inherited ->
  bindFallbacks h validatedForPositioning st names rules = None.
Proof.
  revert rules. induction names as [|[targetSel fallbackName] names IH];
    intros rules Hin Hname; [inversion Hin|].
  cbn [bindFallbacks].
  destruct (getProperty rules fallbackName) as [blocks| |] eqn:Hget.
  - apply elem_of_cons in Hin as [Heq|Hin].
    { injection Heq as -> ->. congruence. }
    apply IH; [exact Hin|].
    rewrite getProperty_insert_ne; [exact Hname|]. intros ->. congruence.
  - reflexivity.
  - apply elem_of_cons in Hin as [Heq|Hin].
    { injection Heq as -> ->. congruence. }
    apply IH; assumption.
Qed.

End PrototypeMembers.

Lemma prototype_member_use_gets_undefined_key_witness :
  (Parse.walkNode Parse.enterValue2 Parse.enterNode2 (Some "#target")
     (Parse.Declaration "left" [Parse.Function "var" [Parse.Identifier "toString"]])
     samplePass).1
  = Parse.Declaration "left"
      [Parse.Function "var" [Parse.Identifier "undefined-left"]].
Proof.
  refine (proj1 (prototype_member_use_gets_undefined_key "#target" "left" "toString"
                   samplePass _ _ _ _ _)).
  - reflexivity.
  - discriminate.
  - discriminate.
  - reflexivity.
  - reflexivity.
Defined.

Lemma anchor_named_after_prototype_member_throws_witness :
  (sampleParseCSS [prototypeNameSheet] Parse.emptyStore).1.1 = Parse.Throws.
Proof.
  apply (anchor_named_after_prototype_member_throws sampleHost sampleUuid
           sampleGenerate sampleGenerateValue sampleValidated [prototypeNameSheet]
           Parse.emptyStore prototypeNameSheet
           (Parse.Rule "#a" [Parse.Declaration "anchor-name" [Parse.Identifier "toString"]])
           "toString" "#a" []).
  - left.
  - left.
  - eapply occurs_rule; [left|apply occurs_here].
  - discriminate.
  - reflexivity.
Defined.

Lemma fallback_named_after_prototype_member_throws_witness :
  Parse.bindFallbacks sampleHost sampleValidated Parse.emptyStore
    [("#target", "constructor")] ∅ = None.
Proof.
  apply (fallback_named_after_prototype_member_throws sampleHost sampleValidated
           Parse.emptyStore [("#target", "constructor")] ∅ "#target" "constructor").
  - left.
  - reflexivity.
Defined.
